(** * Vertical-text pagination: a shallow embedding of the paginators

    The development follows the TypeScript sources:
    - [useVerticalTextPagination] (hook with [getStructuredBlocks], the
      binary search [findFittingText], its kinsoku step,
      [measureActualDisplayArea] and [calculatePagination]);
    - [content-position-finder.ts] ([enrichPageWithMetadata],
      [findPageByBlockId], [findPageByChapterId],
      [getContentPositionFromPage], [findNearestPageToPosition],
      [findPageRangeByBlockRange], [findPageByProgress]);
    - [text-measurement.ts] ([TextMeasurer.getPageCapacity],
      [TextMeasurer.fitTextToPage], [VerticalPaginationCalculator]);
    - [pagination-calculator.ts] ([PaginationCalculator.calculatePages],
      [splitLargeBlock], [findPageByPosition], [getPaginationState],
      [getPageContent], [getChapterStartPage], [hasNextPage],
      [hasPreviousPage], [getSummary]);
    - [dom-pagination-calculator] ([findOptimalBreakPoint], [applyKinsoku],
      [processChapter], [calculatePages]);
    - [vertical-text-paginator.tsx] (the paginator component).

    JavaScript strings are sequences of UTF-16 code units; they are modelled
    as lists of code units.  [s.substring(0, k)] is [take k s],
    [s.substring(k)] is [drop k s], [s.length] is [length s] and [s[i]] is
    [s !! i].  The DOM measurement ([scrollWidth] of the hidden measuring
    element, or the overflow test) is an oracle: a function on strings, kept
    as a section variable.  Page identifiers ([Date.now()], [Math.random()])
    carry no information and are left out, as are logging and progress
    reports.

    A [while] loop is a [Fixpoint] on a fuel argument that returns [None]
    when the fuel runs out; the properties show that the fuel given by the
    callers is always enough.  The outer loop of
    [DOMPaginationCalculator.processChapter] is the exception: it can run
    for ever, and its fuel is an argument. *)

From Stdlib Require Import ZArith QArith Qminmax Qround Lia.
From stdpp Require Import base option list gmap numbers.

Local Open Scope Z_scope.

(** ** Strings *)

Abbreviation jsstring := (list N).

(** U+3000, the full-width space used as paragraph indent. *)
Definition IDEOGRAPHIC_SPACE : N := 12288%N.
(** U+000A. *)
Definition NEWLINE : N := 10%N.

(** JavaScript truthiness of a string: non-empty. *)
Definition truthy (s : jsstring) : bool :=
  match s with [] => false | _ => true end.

(** [s.slice(0, -1)] *)
Definition slice_0_m1 (s : jsstring) : jsstring :=
  take (length s - 1)%nat s.

(** [s.replace(/　/g, '').length] *)
Definition lengthWithoutIndent (s : jsstring) : nat :=
  length (filter (λ c, c ≠ IDEOGRAPHIC_SPACE) s).

(** ** The fitting search of the hook ([findFittingText]) *)

(** The characters tested by the kinsoku step of [findFittingText]:
    。 、 」 』 ） 】 *)
Definition isLeadingProhibited (c : N) : bool :=
  (c =? 12290)%N || (c =? 12289)%N || (c =? 12301)%N ||
  (c =? 12303)%N || (c =? 65289)%N || (c =? 12305)%N.

Section FittingSearch.
(** [measureTextWidth]: the hidden measuring element's [scrollWidth]. *)
Variable measureTextWidth : jsstring → Z.

(** The [while (left <= right)] loop.  [fuel] bounds the number of
    iterations; [None] is returned only when it runs out. *)
Fixpoint findFittingText_loop (fuel : nat) (text : jsstring) (maxWidth : Z)
    (baseContent separator : jsstring) (left right : Z) (result : jsstring)
    : option jsstring :=
  if bool_decide (left ≤ right) then
    match fuel with
    | O => None
    | S fuel' =>
        let mid := (left + right) `div` 2 in
        let testText := take (Z.to_nat mid) text in
        let fullTestContent := (baseContent ++ separator) ++ testText in
        let width := measureTextWidth fullTestContent in
        if bool_decide (width ≤ maxWidth) then
          findFittingText_loop fuel' text maxWidth baseContent separator
            (mid + 1) right testText
        else
          findFittingText_loop fuel' text maxWidth baseContent separator
            left (mid - 1) result
    end
  else Some result.

(** The binary search alone: the value of [result] when the loop ends. *)
Definition findFittingText_search (text : jsstring) (maxWidth : Z)
    (baseContent separator : jsstring) : option jsstring :=
  findFittingText_loop (S (length text)) text maxWidth baseContent separator
    0 (Z.of_nat (length text)) [].

(** The kinsoku step that follows the loop. *)
Definition kinsokuAdjust (text result : jsstring) : jsstring :=
  if bool_decide (0 < length result)%nat && bool_decide (length result < length text)%nat then
    match text !! length result with
    | Some nextChar =>
        if isLeadingProhibited nextChar then
          if bool_decide (1 < length result)%nat then slice_0_m1 result
          else result
        else result
    | None => result
    end
  else result.

Definition findFittingText (text : jsstring) (maxWidth : Z)
    (baseContent separator : jsstring) : option jsstring :=
  result ← findFittingText_search text maxWidth baseContent separator;
  Some (kinsokuAdjust text result).

End FittingSearch.

(** ** Pages and positions ([content-position-finder.ts]) *)

Record CharacterRange := {
  range_start : Z;
  range_end : Z;
}.

(** [PageData.metadata].  Optional fields are [option]s: [None] is
    [undefined]. *)
Record PageMetadata := {
  chapterId : N;
  blockIds : list N;
  startBlockId : option N;
  endBlockId : option N;
  endBlockCharacterOffset : option nat;
  characterRange : option CharacterRange;
}.

(** [PageData] without its [id]. *)
Record PageData := {
  content : jsstring;
  chapterTitle : option jsstring;
  isChapterStart : option bool;
  isChapterEnd : option bool;
  metadata : option PageMetadata;
}.

(** [ContentPosition] of [reading-state]. *)
Record ContentPosition := {
  pos_chapterId : N;
  pos_blockId : N;
  pos_characterOffset : Z;
}.

Record FindResult := {
  pageIndex : nat;
  page : PageData;
  exactMatch : bool;
}.

(** [blockIds.includes(x)] *)
Definition includes (x : N) (l : list N) : bool := bool_decide (x ∈ l).

(** [page.metadata?.blockIds?.includes(targetBlockId)] *)
Definition pageHasBlock (targetBlockId : N) (p : PageData) : bool :=
  match metadata p with
  | Some m => includes targetBlockId (blockIds m)
  | None => false
  end.

(** The [for] loop of [findPageByBlockId], started at index [i]. *)
Fixpoint findPageByBlockId_from (i : nat) (pages : list PageData)
    (targetBlockId : N) : option FindResult :=
  match pages with
  | [] => None
  | p :: rest =>
      if pageHasBlock targetBlockId p then
        Some {| pageIndex := i; page := p; exactMatch := true |}
      else findPageByBlockId_from (S i) rest targetBlockId
  end.

Definition findPageByBlockId (pages : list PageData) (targetBlockId : N)
    : option FindResult :=
  findPageByBlockId_from 0 pages targetBlockId.

(** JavaScript truthiness of a number that is an identifier. *)
Definition truthyN (n : N) : bool := negb (n =? 0)%N.

(** [a || b] on an optional number and a number. *)
Definition orElseN (a : option N) (b : N) : N :=
  match a with
  | Some x => if truthyN x then x else b
  | None => b
  end.

(** [getContentPositionFromPage]: [None] is the [null] result. *)
Definition getContentPositionFromPage (p : PageData) (characterOffset : Z)
    : option ContentPosition :=
  match metadata p with
  | None => None
  | Some m =>
      if negb (truthyN (chapterId m)) then None
      else
        match blockIds m !! 0%nat with
        | None => None
        | Some b0 =>
            if negb (truthyN b0) then None
            else
              let adjustedOffset :=
                Z.max 0 (Z.min characterOffset (Z.of_nat (length (content p)) - 1)) in
              Some {| pos_chapterId := chapterId m;
                      pos_blockId := orElseN (startBlockId m) b0;
                      pos_characterOffset := adjustedOffset |}
        end
  end.

(** [pages.map((page, index) => ({ page, index }))] *)
Definition indexed (pages : list PageData) : list (PageData * nat) :=
  zip pages (seq 0 (length pages)).

Definition inChapter (c : N) (pi : PageData * nat) : bool :=
  match metadata pi.1 with
  | Some m => (chapterId m =? c)%N
  | None => false
  end.

(** The inner [for (const blockId of page.metadata.blockIds)] loop.
    [bestDistance] starts at [Number.MAX_VALUE], modelled by [None]: every
    distance between identifiers is below it. *)
Fixpoint nearestInPage (target : N) (pi : PageData * nat) (ids : list N)
    (best : (PageData * nat) * option Z) : (PageData * nat) * option Z :=
  match ids with
  | [] => best
  | blockId :: rest =>
      let distance := Z.abs (Z.of_N blockId - Z.of_N target) in
      let closer :=
        match best.2 with
        | None => true
        | Some d => bool_decide (distance < d)
        end in
      nearestInPage target pi rest (if closer then (pi, Some distance) else best)
  end.

(** The outer [for (const { page, index } of chapterMatches)] loop. *)
Fixpoint nearestInChapter (target : N) (matches : list (PageData * nat))
    (best : (PageData * nat) * option Z) : (PageData * nat) * option Z :=
  match matches with
  | [] => best
  | pi :: rest =>
      match metadata pi.1 with
      | None => nearestInChapter target rest best
      | Some m =>
          nearestInChapter target rest (nearestInPage target pi (blockIds m) best)
      end
  end.

Definition findNearestPageToPosition (pages : list PageData)
    (position : ContentPosition) : option FindResult :=
  match findPageByBlockId pages (pos_blockId position) with
  | Some exact => Some exact
  | None =>
      let chapterMatches :=
        filter (λ pi, inChapter (pos_chapterId position) pi = true) (indexed pages) in
      match chapterMatches with
      | [] => None
      | first :: _ =>
          let bestMatch :=
            (nearestInChapter (pos_blockId position) chapterMatches (first, None)).1 in
          Some {| pageIndex := bestMatch.2; page := bestMatch.1; exactMatch := false |}
      end
  end.

(** [enrichPageWithMetadata] *)
Definition enrichPageWithMetadata (pageContent : jsstring)
    (title : option jsstring) (chapter : N) (ids : list N)
    (chapterStart chapterEnd : bool) (endOffset : option nat) : PageData :=
  {| content := pageContent;
     chapterTitle := title;
     isChapterStart := Some chapterStart;
     isChapterEnd := Some chapterEnd;
     metadata := Some {|
       chapterId := chapter;
       blockIds := ids;
       startBlockId := ids !! 0%nat;
       endBlockId := ids !! (length ids - 1)%nat;
       endBlockCharacterOffset := endOffset;
       characterRange := Some {| range_start := 0;
                                 range_end := Z.of_nat (length pageContent) - 1 |} |} |}.

(** ** The book and its structured blocks *)

(** [block.type], cast to ['paragraph' | 'conversation'] by the hook. *)
Inductive BlockKind := paragraph | conversation.

Record Block := {
  block_id : N;
  block_type : BlockKind;
  block_text : jsstring;
}.

Record Chapter := {
  chapter_id : N;
  chapter_title : jsstring;
  chapter_blocks : list Block;
}.

(** [bookData.content.chapters] *)
Abbreviation Book := (list Chapter).

(** [TextBlock.type] *)
Inductive TextBlockType := tb_paragraph | tb_conversation | tb_chapter.

(** *** Numbers in the ids of the structured blocks

    The hook prints the ids of chapters and blocks, which are Numbers, into
    the string id of a structured block, and reads them back with
    [split('-')] and [parseInt].  Ids are non-negative integers here. *)

(** U+002D, which separates the parts of an id. *)
Definition HYPHEN : N := 45%N.

(** The code unit of the decimal digit [d]. *)
Definition digitChar (d : N) : N := (48 + d)%N.

Definition isDigit (c : N) : bool := (48 <=? c)%N && (c <=? 57)%N.

(** The decimal digits of [n], least significant first. *)
Fixpoint digitsFrom (fuel : nat) (n : N) : list N :=
  match fuel with
  | O => [(n `mod` 10)%N]
  | S fuel' =>
      if (n <? 10)%N then [n] else (n `mod` 10)%N :: digitsFrom fuel' (n `div` 10)%N
  end.

(** [n] in decimal, most significant digit first. *)
Definition decimal (n : N) : jsstring :=
  digitChar <$> reverse (digitsFrom (N.to_nat (N.log2 n)) n).

(** The Number value of the integer [z]: the nearest integer that a double
    holds, the one with the even significand when two are as near.
    Integers from 2^1024 on, which give [Infinity], are not covered. *)
Definition roundToDouble (z : N) : N :=
  let e := (N.log2 z - 52)%N in
  if (e =? 0)%N then z
  else
    let q := N.shiftr z e in
    let r := (z - N.shiftl q e)%N in
    let half := N.shiftl 1 (e - 1) in
    let q' := if (r <? half)%N then q
              else if (half <? r)%N then (q + 1)%N
              else if N.even q then q else (q + 1)%N in
    N.shiftl q' e.

(** The significand [s] for which [s * 10^e] is nearest to [x] among those
    whose Number value is [x], if there is one. *)
Definition significandAt (x e : N) : option N :=
  let p := (10 ^ e)%N in
  let lo := (x `div` p)%N in
  let hi := (lo + 1)%N in
  let okLo := (roundToDouble (lo * p) =? x)%N in
  let okHi := (roundToDouble (hi * p) =? x)%N in
  if okLo && okHi then
    let below := (x - lo * p)%N in
    let above := (hi * p - x)%N in
    Some (if (below <? above)%N then lo
          else if (above <? below)%N then hi
          else if N.even lo then lo else hi)
  else if okLo then Some lo
  else if okHi then Some hi
  else None.

(** The first exponent of the list, tried in order, that has a significand. *)
Fixpoint shortestAmong (x : N) (exponents : list N) : option (N * N) :=
  match exponents with
  | [] => None
  | e :: rest =>
      match significandAt x e with
      | Some s => Some (s, e)
      | None => shortestAmong x rest
      end
  end.

(** A significand that ends in 0 is written with the next exponent. *)
Fixpoint withoutTrailingZeros (fuel : nat) (s e : N) : N * N :=
  match fuel with
  | O => (s, e)
  | S fuel' =>
      if (0 <? s)%N && (s `mod` 10 =? 0)%N
      then withoutTrailingZeros fuel' (s `div` 10)%N (e + 1)%N
      else (s, e)
  end.

(** The digits that [Number.prototype.toString] prints for [x]: the
    significand [s] of fewest digits, from 1 to 17, with its exponent [e],
    such that the Number value of [s * 10^e] is [x].  An integer below 2^53
    is printed with all its digits. *)
Definition shortestDigits (x : N) : N * N :=
  if (x <? 2 ^ 53)%N then (x, 0%N)
  else
    let d := N.of_nat (length (decimal x)) in
    match shortestAmong x ((λ k, (d - N.of_nat k)%N) <$> seq 1 17) with
    | Some (s, e) => withoutTrailingZeros 17 s e
    | None => (x, 0%N)
    end.

(** [String(x)], as in the template literal [`${x}`], for a Number [x]
    that is a non-negative integer, which is an [x] with
    [roundToDouble x = x]: all the digits when there are at most 21, and
    otherwise the first digit, the others behind a point, and the exponent
    behind e+. *)
Definition numberToString (x : N) : jsstring :=
  let '(s, e) := shortestDigits x in
  let digits := decimal s in
  let n := (N.of_nat (length digits) + e)%N in
  if (n <=? 21)%N then digits ++ replicate (N.to_nat e) (digitChar 0)
  else
    match digits with
    | [] => []
    | [d] => [d; 101; 43]%N ++ decimal (n - 1)
    | d :: rest => (d :: 46%N :: rest) ++ [101; 43]%N ++ decimal (n - 1)
    end.

(** [s.split(sep)] for a separator of one code unit. *)
Fixpoint split (sep : N) (s : jsstring) : list jsstring :=
  match s with
  | [] => [[]]
  | c :: rest =>
      if (c =? sep)%N then [] :: split sep rest
      else
        match split sep rest with
        | part :: parts => (c :: part) :: parts
        | [] => [[c]]
        end
  end.

(** The value of decimal digits, most significant first. *)
Definition digitsValue (digits : jsstring) : N :=
  foldl (λ acc c, (10 * acc + (c - 48))%N) 0%N digits.

(** The longest prefix of decimal digits. *)
Fixpoint leadingDigits (s : jsstring) : jsstring :=
  match s with
  | c :: rest => if isDigit c then c :: leadingDigits rest else []
  | [] => []
  end.

(** [parseInt(s)] for a string that starts with neither white space, a sign
    nor the prefix 0x, as is every part of an id between its hyphens: the
    Number value of its leading decimal digits; [None] is [NaN]. *)
Definition parseInt (s : jsstring) : option N :=
  match leadingDigits s with
  | [] => None
  | digits => Some (roundToDouble (digitsValue digits))
  end.

(** The words chapter and block that open an id. *)
Definition chapterWord : jsstring := [99; 104; 97; 112; 116; 101; 114]%N.
Definition blockWord : jsstring := [98; 108; 111; 99; 107]%N.

(** [TextBlock]: [tb_id] is the string [chapter-<c>] or [block-<c>-<b>]. *)
Record TextBlock := {
  tb_id : jsstring;
  tb_type : TextBlockType;
  tb_content : jsstring;
  tb_chapterTitle : option jsstring;
}.

(** [parseInt(block.id.split('-')[1])]: [None] is [NaN], which is also
    what [parseInt(undefined)] gives when the id has no such part. *)
Definition parseIdPart1 (i : jsstring) : option N :=
  split HYPHEN i !! 1%nat ≫= parseInt.

(** [parseInt(block.id.split('-')[2])] *)
Definition parseIdPart2 (i : jsstring) : option N :=
  split HYPHEN i !! 2%nat ≫= parseInt.

(** [`block-${chapter.id}-${block.id}`] *)
Definition textBlockOf (ch : Chapter) (b : Block) : TextBlock :=
  {| tb_id := blockWord ++ [HYPHEN] ++ numberToString (chapter_id ch) ++
              [HYPHEN] ++ numberToString (block_id b);
     tb_type := match block_type b with
                | paragraph => tb_paragraph
                | conversation => tb_conversation
                end;
     tb_content := block_text b;
     tb_chapterTitle := Some (chapter_title ch) |}.

(** [`chapter-${chapter.id}`] *)
Definition chapterMarkerOf (ch : Chapter) : TextBlock :=
  {| tb_id := chapterWord ++ [HYPHEN] ++ numberToString (chapter_id ch);
     tb_type := tb_chapter;
     tb_content := [];
     tb_chapterTitle := Some (chapter_title ch) |}.

(** [getStructuredBlocks] *)
Definition getStructuredBlocks (bookData : Book) : list TextBlock :=
  ch ← bookData; chapterMarkerOf ch :: (textBlockOf ch <$> chapter_blocks ch).

(** ** [calculatePagination] of the hook *)

(** The local variables of [calculatePagination] that live across the
    iterations of its [for] loop. *)
Record PaginationVars := {
  calculatedPages : list PageData;
  currentPageContent : jsstring;
  currentChapterTitle : option jsstring;
  currentChapterId : N;
  currentBlockIds : list N;
  lastBlockCharacterOffset : nat;
  blockTexts : gmap N jsstring;
  currentBlockProcessedLength : nat;
}.

(** The object literal pushed on [calculatedPages]: it copies [content],
    [chapterTitle] and [metadata] of the enriched page, and [isChapterEnd]
    only where the source lists it.  [isChapterStart] is never copied. *)
Definition pushedPage (pageData : PageData) (withChapterEnd : bool) : PageData :=
  {| content := content pageData;
     chapterTitle := chapterTitle pageData;
     isChapterStart := None;
     isChapterEnd := if withChapterEnd then isChapterEnd pageData else None;
     metadata := metadata pageData |}.

(** What the splitting loops hand back: the pages, the processed length and
    the text left for the open page. *)
Record SplitVars := {
  sv_pages : list PageData;
  sv_processed : nat;
  sv_rest : jsstring;
}.

Inductive PaginationOutcome :=
| Paginated (pages : list PageData)
| PaginationError.

Section Pagination.
Variable measureTextWidth : jsstring → Z.
(** [measureActualDisplayArea()] *)
Variable actualMaxWidth : Z.

(** [while (remainingContent.length > 0)] of the branch where a part of the
    block fitted the open page.  [sv_rest] of the result is the new
    [currentPageContent]. *)
Fixpoint splitRemaining (fuel : nat) (title : option jsstring) (chapter blockId : N)
    (pages : list PageData) (processed : nat) (remainingContent : jsstring)
    : option SplitVars :=
  if bool_decide (0 < length remainingContent)%nat then
    match fuel with
    | O => None
    | S fuel' =>
        let remainingWidth := measureTextWidth remainingContent in
        if bool_decide (remainingWidth ≤ actualMaxWidth) then
          Some {| sv_pages := pages; sv_processed := processed;
                  sv_rest := remainingContent |}
        else
          nextFittingPortion ←
            findFittingText measureTextWidth remainingContent actualMaxWidth [] [];
          if bool_decide (0 < length nextFittingPortion)%nat then
            let processed' := (processed + lengthWithoutIndent nextFittingPortion)%nat in
            let pageData :=
              enrichPageWithMetadata nextFittingPortion title chapter [blockId]
                false false (Some processed') in
            splitRemaining fuel' title chapter blockId
              (pages ++ [pushedPage pageData false]) processed'
              (drop (length nextFittingPortion) remainingContent)
          else
            Some {| sv_pages := pages; sv_processed := processed; sv_rest := [] |}
    end
  else Some {| sv_pages := pages; sv_processed := processed; sv_rest := [] |}.

(** [while (remainingBlockContent.length > 0)] of the branch where nothing
    of the block fitted the open page.  [sv_rest] of the result is
    [remainingBlockContent] when the loop ends. *)
Fixpoint splitWholeBlock (fuel : nat) (title : option jsstring) (chapter blockId : N)
    (pages : list PageData) (processed : nat) (remainingBlockContent : jsstring)
    : option SplitVars :=
  if bool_decide (0 < length remainingBlockContent)%nat then
    match fuel with
    | O => None
    | S fuel' =>
        fittingText ←
          findFittingText measureTextWidth remainingBlockContent actualMaxWidth [] [];
        if bool_decide (0 < length fittingText)%nat then
          let processed' := (processed + lengthWithoutIndent fittingText)%nat in
          let pageData :=
            enrichPageWithMetadata fittingText title chapter [blockId]
              false false (Some processed') in
          splitWholeBlock fuel' title chapter blockId
            (pages ++ [pushedPage pageData false]) processed'
            (drop (length fittingText) remainingBlockContent)
        else
          Some {| sv_pages := pages; sv_processed := processed;
                  sv_rest := remainingBlockContent |}
    end
  else Some {| sv_pages := pages; sv_processed := processed;
               sv_rest := remainingBlockContent |}.

(** The body of the [for] loop for a block of type ['chapter']. *)
Definition chapterStep (v : PaginationVars) (block : TextBlock) : PaginationVars :=
  let flushed := truthy (currentPageContent v) in
  let pageData :=
    enrichPageWithMetadata (currentPageContent v) (currentChapterTitle v)
      (currentChapterId v) (currentBlockIds v) false true
      (Some (lastBlockCharacterOffset v)) in
  {| calculatedPages :=
       if flushed then calculatedPages v ++ [pushedPage pageData true]
       else calculatedPages v;
     currentPageContent := if flushed then [] else currentPageContent v;
     currentChapterTitle := tb_chapterTitle block;
     currentChapterId :=
       match parseIdPart1 (tb_id block) with
       | Some c => if truthyN c then c else (currentChapterId v + 1)%N
       | None => (currentChapterId v + 1)%N
       end;
     currentBlockIds := if flushed then [] else currentBlockIds v;
     lastBlockCharacterOffset := 0%nat;
     blockTexts := blockTexts v;
     currentBlockProcessedLength := currentBlockProcessedLength v |}.

(** The body of the [for] loop for a text block. *)
Definition textStep (v : PaginationVars) (block : TextBlock) : option PaginationVars :=
  let blockId := default 0%N (parseIdPart2 (tb_id block)) in
  let texts1 :=
    match blockTexts v !! blockId with
    | Some _ => blockTexts v
    | None => <[blockId := tb_content block]> (blockTexts v)
    end in
  let blockContent :=
    match tb_type block with
    | tb_paragraph => IDEOGRAPHIC_SPACE :: tb_content block
    | _ => tb_content block
    end in
  let separator := if truthy (currentPageContent v) then [NEWLINE] else [] in
  let testContent := (currentPageContent v ++ separator) ++ blockContent in
  let width := measureTextWidth testContent in
  let known := includes blockId (currentBlockIds v) in
  let ids := if known then currentBlockIds v else currentBlockIds v ++ [blockId] in
  let texts := if known then texts1 else <[blockId := tb_content block]> texts1 in
  let processed := if known then currentBlockProcessedLength v else 0%nat in
  if bool_decide (actualMaxWidth < width) && truthy (currentPageContent v) then
    fittingPortion ←
      findFittingText measureTextWidth blockContent actualMaxWidth
        (currentPageContent v) separator;
    if bool_decide (0 < length fittingPortion)%nat then
      let pageWithFittingPortion :=
        (currentPageContent v ++ separator) ++ fittingPortion in
      let processed1 := (processed + lengthWithoutIndent fittingPortion)%nat in
      let pageData :=
        enrichPageWithMetadata pageWithFittingPortion (currentChapterTitle v)
          (currentChapterId v) ids false false (Some processed1) in
      let remainingContent := drop (length fittingPortion) blockContent in
      sv ← splitRemaining (length remainingContent) (currentChapterTitle v)
              (currentChapterId v) blockId
              (calculatedPages v ++ [pushedPage pageData false]) processed1
              remainingContent;
      Some {| calculatedPages := sv_pages sv;
              currentPageContent := sv_rest sv;
              currentChapterTitle := currentChapterTitle v;
              currentChapterId := currentChapterId v;
              currentBlockIds := [blockId];
              lastBlockCharacterOffset := lastBlockCharacterOffset v;
              blockTexts := texts;
              currentBlockProcessedLength := sv_processed sv |}
    else
      let originalBlockText := default [] (texts !! blockId) in
      let processed1 := length originalBlockText in
      let pageData :=
        enrichPageWithMetadata (currentPageContent v) (currentChapterTitle v)
          (currentChapterId v) ids false false (Some processed1) in
      let pages1 := calculatedPages v ++ [pushedPage pageData false] in
      let blockWidth := measureTextWidth blockContent in
      if bool_decide (blockWidth ≤ actualMaxWidth) then
        Some {| calculatedPages := pages1;
                currentPageContent := blockContent;
                currentChapterTitle := currentChapterTitle v;
                currentChapterId := currentChapterId v;
                currentBlockIds := [blockId];
                lastBlockCharacterOffset := lastBlockCharacterOffset v;
                blockTexts := texts;
                currentBlockProcessedLength := processed1 |}
      else
        sv ← splitWholeBlock (length blockContent) (currentChapterTitle v)
                (currentChapterId v) blockId pages1 processed1 blockContent;
        Some {| calculatedPages := sv_pages sv;
                currentPageContent := sv_rest sv;
                currentChapterTitle := currentChapterTitle v;
                currentChapterId := currentChapterId v;
                currentBlockIds := [blockId];
                lastBlockCharacterOffset := lastBlockCharacterOffset v;
                blockTexts := texts;
                currentBlockProcessedLength := sv_processed sv |}
  else
    let originalBlockText := default [] (texts !! blockId) in
    Some {| calculatedPages := calculatedPages v;
            currentPageContent := testContent;
            currentChapterTitle := currentChapterTitle v;
            currentChapterId := currentChapterId v;
            currentBlockIds := ids;
            lastBlockCharacterOffset := length originalBlockText;
            blockTexts := texts;
            currentBlockProcessedLength := processed |}.

Definition blockStep (v : PaginationVars) (block : TextBlock) : option PaginationVars :=
  match tb_type block with
  | tb_chapter => Some (chapterStep v block)
  | _ => textStep v block
  end.

(** [for (let i = 0; i < structuredBlocks.length; i++)] *)
Fixpoint runBlocks (v : PaginationVars) (blocks : list TextBlock) : option PaginationVars :=
  match blocks with
  | [] => Some v
  | block :: rest => v' ← blockStep v block; runBlocks v' rest
  end.

Definition initialVars : PaginationVars :=
  {| calculatedPages := [];
     currentPageContent := [];
     currentChapterTitle := None;
     currentChapterId := 1%N;
     currentBlockIds := [];
     lastBlockCharacterOffset := 0%nat;
     blockTexts := ∅;
     currentBlockProcessedLength := 0%nat |}.

(** The last page: [if (currentPageContent) { calculatedPages.push(...) }] *)
Definition finalPages (v : PaginationVars) : list PageData :=
  if truthy (currentPageContent v) then
    calculatedPages v ++
      [pushedPage
         (enrichPageWithMetadata (currentPageContent v) (currentChapterTitle v)
            (currentChapterId v) (currentBlockIds v) false false
            (Some (lastBlockCharacterOffset v))) false]
  else calculatedPages v.

(** [calculatePagination]: the pages handed to [setPages], or the error
    raised when there is no structured block.  [None] only when a loop ran
    out of fuel. *)
Definition paginateBlocks (structuredBlocks : list TextBlock) : option PaginationOutcome :=
  match structuredBlocks with
  | [] => Some PaginationError
  | _ => v ← runBlocks initialVars structuredBlocks; Some (Paginated (finalPages v))
  end.

Definition calculatePagination (bookData : Book) : option PaginationOutcome :=
  paginateBlocks (getStructuredBlocks bookData).

End Pagination.

(** ** The display area of the hook ([measureActualDisplayArea])

    Pixel sizes are whole numbers here, as the widths that are measured
    ([scrollWidth]) and compared with them are. *)

(** The element that [document.querySelector('[style*="maxWidth"]')] finds,
    as far as [measureActualDisplayArea] reads it: the width of its bounding
    rectangle, and its paddings and border widths as [parseFloat] reads
    them, [None] for [NaN]. *)
Record DisplayContainer := {
  rectWidth : Z;
  paddingLeft : option Z;
  paddingRight : option Z;
  borderLeftWidth : option Z;
  borderRightWidth : option Z;
}.

(** [measureActualDisplayArea]: [x || 0] is [default 0 x]. *)
Definition measureActualDisplayArea (container : option DisplayContainer) (maxWidth : Z)
    : Z :=
  match container with
  | Some c =>
      rectWidth c - default 0 (paddingLeft c) - default 0 (paddingRight c)
      - default 0 (borderLeftWidth c) - default 0 (borderRightWidth c)
  | None => maxWidth - 32
  end.

(** [calculatePagination] as the hook runs it, with
    [actualMaxWidth = measureActualDisplayArea()]. *)
Definition useVerticalTextPagination (measureTextWidth : jsstring → Z)
    (container : option DisplayContainer) (maxWidth : Z) (bookData : Book)
    : option PaginationOutcome :=
  calculatePagination measureTextWidth
    (measureActualDisplayArea container maxWidth) bookData.

(** ** [TextMeasurer] ([text-measurement.ts])

    Pixel sizes and ratios are JavaScript numbers; they are modelled by
    exact rationals, [Math.floor] by [Qfloor].  A zero divisor (font size,
    line height or character width 0, which gives [Infinity] or [NaN] in
    JavaScript) is outside the model. *)

Module TextMeasurer.

(** The fields of the class, and [characterWidth] for the value of
    [getCharacterWidth()]: the measured average, or [fontSize * 0.6] when
    there is no measuring element. *)
Record t := {
  containerWidth : Q;
  containerHeight : Q;
  fontSize : Q;
  lineHeight : Q;
  characterWidth : Q;
}.

Record PageCapacity := {
  charactersPerLine : Z;
  linesPerPage : Z;
  totalCharacters : Z;
}.

Definition getPageCapacity (tm : t) : PageCapacity :=
  if Qle_bool (containerWidth tm) 0 || Qle_bool (containerHeight tm) 0 then
    {| charactersPerLine := 0; linesPerPage := 0; totalCharacters := 0 |}
  else
    let lineHeightPx := Qmult (fontSize tm) (lineHeight tm) in
    let linesPerPage := Z.max 0 (Qfloor (Qdiv (containerHeight tm) lineHeightPx)) in
    let charactersPerLine :=
      Z.max 0 (Qfloor (Qdiv (containerWidth tm) (characterWidth tm))) in
    {| charactersPerLine := charactersPerLine;
       linesPerPage := linesPerPage;
       totalCharacters := charactersPerLine * linesPerPage |}.

(** [/[。！？\n\s]/.test(c)] on one code unit: 。 ！ ？ and the white space
    of ECMAScript. *)
Definition punctuation (c : N) : bool :=
  (c =? 12290)%N || (c =? 65281)%N || (c =? 65311)%N ||
  (c =? 9)%N || (c =? 10)%N || (c =? 11)%N || (c =? 12)%N || (c =? 13)%N ||
  (c =? 32)%N || (c =? 160)%N || (c =? 5760)%N ||
  ((8192 <=? c)%N && (c <=? 8202)%N) ||
  (c =? 8232)%N || (c =? 8233)%N || (c =? 8239)%N || (c =? 8287)%N ||
  (c =? 12288)%N || (c =? 65279)%N.

(** [for (let i = cutPoint; i > cutPoint * 0.7 && i > 0; i--)]: the value
    of [lastGoodCut] after the loop started at [i]. *)
Fixpoint scanForCut (text : jsstring) (cutPoint : Z) (i : nat) (lastGoodCut : Z) : Z :=
  match i with
  | O => lastGoodCut
  | S i' =>
      if Qle_bool (Qmult (inject_Z cutPoint) (7 # 10)) (inject_Z (Z.of_nat i)) &&
         negb (Qeq_bool (Qmult (inject_Z cutPoint) (7 # 10)) (inject_Z (Z.of_nat i)))
      then
        match text !! i with
        | Some c =>
            if punctuation c then Z.of_nat i + 1
            else scanForCut text cutPoint i' lastGoodCut
        | None => scanForCut text cutPoint i' lastGoodCut
        end
      else lastGoodCut
  end.

(** [fitTextToPage]: the pair [(fittedText, remainingText)]. *)
Definition fitTextToPage (tm : t) (text : jsstring) : jsstring * jsstring :=
  let totalCharacters := totalCharacters (getPageCapacity tm) in
  let linesPerPage := linesPerPage (getPageCapacity tm) in
  if negb (truthy text) || (totalCharacters <=? 0) || (linesPerPage <=? 0) then
    ([], text)
  else if Z.of_nat (length text) <=? totalCharacters then
    (text, [])
  else
    let safeCharacterCount :=
      Z.max 1 (Qfloor (Qmult (inject_Z totalCharacters) (8 # 10))) in
    let cutPoint := Z.min safeCharacterCount (Z.of_nat (length text)) in
    let lastGoodCut := scanForCut text cutPoint (Z.to_nat cutPoint) cutPoint in
    let finalCutPoint :=
      if 0 <? lastGoodCut then lastGoodCut else Z.max 1 cutPoint in
    (take (Z.to_nat finalCutPoint) text, drop (Z.to_nat finalCutPoint) text).

End TextMeasurer.

(** ** [PaginationCalculator] ([pagination-calculator.ts]) *)

Module PaginationCalculator.

Record Position := {
  chapterId : N;
  blockId : N;
  characterStart : Z;
  characterEnd : Z;
}.

(** [Page] of [types/pagination], as the calculator fills it. *)
Record Page := {
  id : Z;
  position : Position;
  content : list jsstring;
  totalCharacters : Z;
}.

(** [chapter.blocks[i].id]; the index always designates a block that the
    loop has visited. *)
Definition blockIdAt (blocks : list Block) (i : nat) : N :=
  default 0%N (block_id <$> blocks !! i).

(** [while (remainingText.length > 0)] of [splitLargeBlock]: the pages
    pushed, in order.  [None] only when the fuel runs out. *)
Fixpoint splitLargeBlock_loop (fuel : nat) (tm : TextMeasurer.t)
    (chapter block : N) (remainingText : jsstring) (characterStart pageId : Z)
    : option (list Page) :=
  if bool_decide (0 < length remainingText)%nat then
    match fuel with
    | O => None
    | S fuel' =>
        let '(fittedText, nextRemaining) := TextMeasurer.fitTextToPage tm remainingText in
        if bool_decide (length fittedText = 0%nat) then
          let forcedText := take 1 remainingText in
          rest ← splitLargeBlock_loop fuel' tm chapter block (drop 1 remainingText)
                   (characterStart + 1) (pageId + 1);
          Some ({| id := pageId;
                   position := {| chapterId := chapter; blockId := block;
                                  characterStart := characterStart;
                                  characterEnd := characterStart + 1 |};
                   content := [forcedText];
                   totalCharacters := 1 |} :: rest)
        else
          rest ← splitLargeBlock_loop fuel' tm chapter block nextRemaining
                   (characterStart + Z.of_nat (length fittedText)) (pageId + 1);
          Some ({| id := pageId;
                   position := {| chapterId := chapter; blockId := block;
                                  characterStart := characterStart;
                                  characterEnd :=
                                    characterStart + Z.of_nat (length fittedText) |};
                   content := [fittedText];
                   totalCharacters := Z.of_nat (length fittedText) |} :: rest)
    end
  else Some [].

(** [splitLargeBlock]: the pages it pushes on [this.pages]. *)
Definition splitLargeBlock (tm : TextMeasurer.t) (chapter : Chapter) (block : Block)
    (startPageId : Z) : option (list Page) :=
  splitLargeBlock_loop (length (block_text block)) tm (chapter_id chapter)
    (block_id block) (block_text block) 0 startPageId.

(** The variables of the loop over the blocks of a chapter. *)
Record ChapterVars := {
  pages : list Page;
  pageId : Z;
  currentPageContent : list jsstring;
  currentPageCharacterCount : Z;
  currentBlockStartIndex : nat;
}.

Definition openPage (chapter : Chapter) (v : ChapterVars) : Page :=
  {| id := pageId v;
     position := {| chapterId := chapter_id chapter;
                    blockId := blockIdAt (chapter_blocks chapter) (currentBlockStartIndex v);
                    characterStart := 0;
                    characterEnd := currentPageCharacterCount v |};
     content := currentPageContent v;
     totalCharacters := currentPageCharacterCount v |}.

(** The body of [for (let blockIndex = 0; ...)]. *)
Definition blockStep (tm : TextMeasurer.t) (effectiveCapacity : Z) (chapter : Chapter)
    (v : ChapterVars) (blockIndex : nat) (block : Block) : option ChapterVars :=
  let tentativeContent := currentPageContent v ++ [block_text block] in
  let tentativeText := concat tentativeContent in
  if Z.of_nat (length tentativeText) <=? effectiveCapacity then
    Some {| pages := pages v;
            pageId := pageId v;
            currentPageContent := currentPageContent v ++ [block_text block];
            currentPageCharacterCount :=
              currentPageCharacterCount v + Z.of_nat (length (block_text block));
            currentBlockStartIndex := currentBlockStartIndex v |}
  else
    let flushed := bool_decide (0 < length (currentPageContent v))%nat in
    let pages1 := if flushed then pages v ++ [openPage chapter v] else pages v in
    let pageId1 := if flushed then pageId v + 1 else pageId v in
    if effectiveCapacity <? Z.of_nat (length (block_text block)) then
      split ← splitLargeBlock tm chapter block pageId1;
      Some {| pages := pages1 ++ split;
              pageId := Z.of_nat (length (pages1 ++ split)) + 1;
              currentPageContent := [];
              currentPageCharacterCount := 0;
              currentBlockStartIndex := blockIndex |}
    else
      Some {| pages := pages1;
              pageId := pageId1;
              currentPageContent := [block_text block];
              currentPageCharacterCount := Z.of_nat (length (block_text block));
              currentBlockStartIndex := blockIndex |}.

Fixpoint blocksLoop (tm : TextMeasurer.t) (effectiveCapacity : Z) (chapter : Chapter)
    (v : ChapterVars) (blockIndex : nat) (blocks : list Block) : option ChapterVars :=
  match blocks with
  | [] => Some v
  | block :: rest =>
      v' ← blockStep tm effectiveCapacity chapter v blockIndex block;
      blocksLoop tm effectiveCapacity chapter v' (S blockIndex) rest
  end.

(** The body of [for (const chapter of this.bookContent.chapters)]: the
    pages and the next page id. *)
Definition chapterStep (tm : TextMeasurer.t) (effectiveCapacity : Z)
    (acc : list Page * Z) (chapter : Chapter) : option (list Page * Z) :=
  v ← blocksLoop tm effectiveCapacity chapter
        {| pages := acc.1; pageId := acc.2; currentPageContent := [];
           currentPageCharacterCount := 0; currentBlockStartIndex := 0 |}
        0 (chapter_blocks chapter);
  if bool_decide (0 < length (currentPageContent v))%nat then
    Some (pages v ++ [openPage chapter v], pageId v + 1)
  else Some (pages v, pageId v).

Fixpoint chaptersLoop (tm : TextMeasurer.t) (effectiveCapacity : Z)
    (acc : list Page * Z) (chapters : list Chapter) : option (list Page * Z) :=
  match chapters with
  | [] => Some acc
  | chapter :: rest =>
      acc' ← chapterStep tm effectiveCapacity acc chapter;
      chaptersLoop tm effectiveCapacity acc' rest
  end.

(** [capacity.totalCharacters > 0 ? capacity.totalCharacters : 1000] *)
Definition effectiveCapacity (tm : TextMeasurer.t) : Z :=
  let capacity := TextMeasurer.getPageCapacity tm in
  if 0 <? TextMeasurer.totalCharacters capacity
  then TextMeasurer.totalCharacters capacity else 1000.

(** [calculatePages]: the value of [this.pages] when it returns.  The
    method has no [throw] and no error result; [None] only when a loop ran
    out of fuel. *)
Definition calculatePages (tm : TextMeasurer.t) (bookContent : Book) : option (list Page) :=
  fst <$> chaptersLoop tm (effectiveCapacity tm) ([], 1) bookContent.

(** The test of [findPageByPosition] on one page. *)
Definition positionMatches (chapter block : N) (characterPosition : Z)
    (page : Page) : bool :=
  let pos := position page in
  (chapterId pos =? chapter)%N && (blockId pos =? block)%N &&
  (characterStart pos <=? characterPosition) &&
  (characterPosition <? characterEnd pos).

(** The [for] loop of [findPageByPosition], started at index [i]. *)
Fixpoint findPageByPosition_from (i : Z) (pages : list Page)
    (chapter block : N) (characterPosition : Z) : Z :=
  match pages with
  | [] => 0
  | page :: rest =>
      if positionMatches chapter block characterPosition page then i
      else findPageByPosition_from (i + 1) rest chapter block characterPosition
  end.

Definition findPageByPosition (pages : list Page) (chapter block : N)
    (characterPosition : Z) : Z :=
  findPageByPosition_from 0 pages chapter block characterPosition.

(** [PaginationState] of [types/pagination]. *)
Record PaginationState := {
  currentPageIndex : Z;
  totalPages : Z;
  statePages : list Page;
  stateContainerWidth : Q;
  stateContainerHeight : Q;
  stateFontSize : Q;
  stateLineHeight : Q;
  stateCharactersPerLine : Z;
  stateLinesPerPage : Z;
}.

(** [getPaginationState] *)
Definition getPaginationState (tm : TextMeasurer.t) (pages : list Page)
    (currentPageIndex : Z) : PaginationState :=
  let capacity := TextMeasurer.getPageCapacity tm in
  {| currentPageIndex := Z.max 0 (Z.min currentPageIndex (Z.of_nat (length pages) - 1));
     totalPages := Z.of_nat (length pages);
     statePages := pages;
     stateContainerWidth := TextMeasurer.containerWidth tm;
     stateContainerHeight := TextMeasurer.containerHeight tm;
     stateFontSize := TextMeasurer.fontSize tm;
     stateLineHeight := TextMeasurer.lineHeight tm;
     stateCharactersPerLine := TextMeasurer.charactersPerLine capacity;
     stateLinesPerPage := TextMeasurer.linesPerPage capacity |}.

(** [getPageContent]: [None] is [null]. *)
Definition getPageContent (pages : list Page) (pageIndex : Z) : option Page :=
  if (pageIndex <? 0) || (Z.of_nat (length pages) <=? pageIndex) then None
  else pages !! Z.to_nat pageIndex.

(** The [for] loop of [getChapterStartPage], started at index [i]. *)
Fixpoint getChapterStartPage_from (i : Z) (pages : list Page) (chapter : N) : Z :=
  match pages with
  | [] => 0
  | page :: rest =>
      if (chapterId (position page) =? chapter)%N then i
      else getChapterStartPage_from (i + 1) rest chapter
  end.

Definition getChapterStartPage (pages : list Page) (chapter : N) : Z :=
  getChapterStartPage_from 0 pages chapter.

Definition hasNextPage (pages : list Page) (currentPageIndex : Z) : bool :=
  currentPageIndex <? Z.of_nat (length pages) - 1.

Definition hasPreviousPage (currentPageIndex : Z) : bool :=
  0 <? currentPageIndex.

Record ChapterInfo := {
  info_chapterId : N;
  info_title : jsstring;
  startPage : Z;
  pageCount : Z;
}.

(** The result of [getSummary].  [averageCharactersPerPage] is [None] when
    there is no page: the division then gives [NaN] or [Infinity]. *)
Record Summary := {
  summaryTotalPages : Z;
  summaryTotalCharacters : Z;
  averageCharactersPerPage : option Q;
  chaptersInfo : list ChapterInfo;
}.

Definition getSummary (bookContent : Book) (pages : list Page) : Summary :=
  let totalCharacters :=
    foldl (λ sum block, sum + Z.of_nat (length (block_text block))) 0
      (chapter ← bookContent; chapter_blocks chapter) in
  let chaptersInfo :=
    (λ chapter,
       let chapterPages :=
         filter (λ page, chapterId (position page) = chapter_id chapter) pages in
       {| info_chapterId := chapter_id chapter;
          info_title := chapter_title chapter;
          startPage := getChapterStartPage pages (chapter_id chapter);
          pageCount := Z.of_nat (length chapterPages) |}) <$> bookContent in
  {| summaryTotalPages := Z.of_nat (length pages);
     summaryTotalCharacters := totalCharacters;
     averageCharactersPerPage :=
       if bool_decide (length pages = 0%nat) then None
       else Some (Qdiv (inject_Z totalCharacters) (inject_Z (Z.of_nat (length pages))));
     chaptersInfo := chaptersInfo |}.

End PaginationCalculator.

(** ** The break point of [DOMPaginationCalculator]
    ([findOptimalBreakPoint], [applyKinsoku]) *)

Module DOMPaginationCalculator.

(** [this.kinsokuStart.includes(c)] for one code unit:
    、。，．・：；？！゛゜ヽヾゝゞ々ー）］｝」』】〕〉》 *)
Definition kinsokuStart : jsstring :=
  [12289; 12290; 65292; 65294; 12539; 65306; 65307; 65311; 65281; 12443; 12444;
   12541; 12542; 12445; 12446; 12293; 12540; 65289; 65341; 65373; 12301; 12303;
   12305; 12309; 12297; 12299]%N.

(** （［｛「『【〔〈《 *)
Definition kinsokuEnd : jsstring :=
  [65288; 65339; 65371; 12300; 12302; 12304; 12308; 12296; 12298]%N.

(** [set.includes(text[i])]; an index out of range tests the string
    "undefined", which is in neither set. *)
Definition includesAt (set text : jsstring) (i : nat) : bool :=
  match text !! i with
  | Some c => bool_decide (c ∈ set)
  | None => false
  end.

Section Measured.
(** [this.measureText(text).overflow] *)
Variable overflow : jsstring → bool.

(** [for (let i = position - 1; i > 0; i--)] of the leading rule, started
    at [i]: the position returned from inside the loop, if any. *)
Fixpoint leadingScan (text : jsstring) (i : nat) : option nat :=
  match i with
  | O => None
  | S i' =>
      if negb (includesAt kinsokuStart text i) && negb (overflow (take i text))
      then Some i
      else leadingScan text i'
  end.

(** [for (let i = position + 1; i < text.length && i < position + 10; i++)]
    of the trailing rule, over the indices still to visit. *)
Fixpoint trailingScan (text : jsstring) (position : nat) (indices : list nat)
    : option nat :=
  match indices with
  | [] => None
  | i :: rest =>
      if bool_decide (i < length text)%nat && bool_decide (i < position + 10)%nat then
        if negb (includesAt kinsokuEnd text (i - 1)) && negb (overflow (take i text))
        then Some i
        else trailingScan text position rest
      else None
  end.

(** [applyKinsoku] *)
Definition applyKinsoku (text : jsstring) (position : nat) : nat :=
  if bool_decide (position ≤ 0)%nat || bool_decide (length text ≤ position)%nat then
    position
  else
    let leading :=
      if includesAt kinsokuStart text position
      then leadingScan text (position - 1)
      else None in
    match leading with
    | Some i => i
    | None =>
        if includesAt kinsokuEnd text (position - 1) then
          match trailingScan text position (seq (position + 1) 9) with
          | Some i => i
          | None => Nat.max 0 (position - 1)
          end
        else position
    end.

(** The [while (left <= right)] loop of [findOptimalBreakPoint]; [None]
    only when the fuel runs out. *)
Fixpoint findOptimalBreakPoint_loop (fuel : nat) (text : jsstring)
    (left right : Z) (bestFit : Z) : option Z :=
  if bool_decide (left ≤ right) then
    match fuel with
    | O => None
    | S fuel' =>
        let mid := (left + right) `div` 2 in
        let testText := take (Z.to_nat mid) text in
        if negb (overflow testText) then
          findOptimalBreakPoint_loop fuel' text (mid + 1) right mid
        else
          findOptimalBreakPoint_loop fuel' text left (mid - 1) bestFit
    end
  else Some bestFit.

(** [findOptimalBreakPoint] *)
Definition findOptimalBreakPoint (text : jsstring) : option nat :=
  if bool_decide (length text = 0%nat) then Some 0%nat
  else
    bestFit ← findOptimalBreakPoint_loop (S (length text)) text
                 0 (Z.of_nat (length text)) 0;
    Some (applyKinsoku text (Z.to_nat bestFit)).

End Measured.

(** ** [processChapter] and [calculatePages] of [DOMPaginationCalculator] *)

Record PageBreakPoint := {
  bp_chapterId : N;
  bp_blockId : N;
  bp_characterStart : Z;
  bp_characterEnd : Z;
}.

(** The variables of the inner [while] loop of [processChapter].
    [currentCharOffset] is an integer: the code can make it negative. *)
Record FillVars := {
  pageContent : list jsstring;
  pageBreakPoints : list PageBreakPoint;
  remainingSpace : bool;
  currentBlockIndex : nat;
  currentCharOffset : Z;
}.

Section Chapters.
Variable overflow : jsstring → bool.

(** The body of the inner loop for the block at [currentBlockIndex].
    [text.substring(n)] takes a negative [n] for 0, as [Z.to_nat] does. *)
Definition fillStep (chapter : Chapter) (v : FillVars) (block : Block) : option FillVars :=
  let remainingText := drop (Z.to_nat (currentCharOffset v)) (block_text block) in
  if bool_decide (length remainingText = 0%nat) then
    Some {| pageContent := pageContent v;
            pageBreakPoints := pageBreakPoints v;
            remainingSpace := remainingSpace v;
            currentBlockIndex := S (currentBlockIndex v);
            currentCharOffset := 0 |}
  else
    let currentPageText := concat (pageContent v) in
    let isBlockStart := currentCharOffset v =? 0 in
    let indented :=
      isBlockStart && match block_type block with paragraph => true | _ => false end in
    let textToAdd :=
      if indented then IDEOGRAPHIC_SPACE :: remainingText else remainingText in
    let needsNewline := isBlockStart && bool_decide (0 < length (pageContent v))%nat in
    let connector := if needsNewline then [NEWLINE] else [] in
    let testText := currentPageText ++ connector ++ textToAdd in
    breakPoint ← findOptimalBreakPoint overflow testText;
    let addedChars := Z.of_nat breakPoint - Z.of_nat (length currentPageText) in
    if (addedChars <=? 0) && bool_decide (length (pageContent v) = 0%nat) then
      let contentToAdd := take 1 remainingText in
      let contentToAdd :=
        if indented then IDEOGRAPHIC_SPACE :: contentToAdd else contentToAdd in
      Some {| pageContent := pageContent v ++ [contentToAdd];
              pageBreakPoints :=
                pageBreakPoints v ++
                [ {| bp_chapterId := chapter_id chapter;
                     bp_blockId := block_id block;
                     bp_characterStart := currentCharOffset v;
                     bp_characterEnd := currentCharOffset v + 1 |} ];
              remainingSpace := false;
              currentBlockIndex := currentBlockIndex v;
              currentCharOffset := currentCharOffset v + 1 |}
    else if 0 <? addedChars then
      let connectorLength := if needsNewline then 1 else 0 in
      let effectiveAddedChars := addedChars - connectorLength in
      let originalAddedChars :=
        if indented then effectiveAddedChars - 1 else effectiveAddedChars in
      let contentToAdd := take (Z.to_nat (Z.max 1 originalAddedChars)) remainingText in
      let contentToAdd :=
        if indented then IDEOGRAPHIC_SPACE :: contentToAdd else contentToAdd in
      let contentToAdd := if needsNewline then NEWLINE :: contentToAdd else contentToAdd in
      let offset := currentCharOffset v + originalAddedChars in
      let finished := Z.of_nat (length (block_text block)) <=? offset in
      Some {| pageContent := pageContent v ++ [contentToAdd];
              pageBreakPoints :=
                pageBreakPoints v ++
                [ {| bp_chapterId := chapter_id chapter;
                     bp_blockId := block_id block;
                     bp_characterStart := currentCharOffset v;
                     bp_characterEnd := currentCharOffset v + originalAddedChars |} ];
              remainingSpace :=
                if bool_decide (breakPoint < length testText)%nat then false
                else remainingSpace v;
              currentBlockIndex :=
                if finished then S (currentBlockIndex v) else currentBlockIndex v;
              currentCharOffset := if finished then 0 else offset |}
    else
      Some {| pageContent := pageContent v;
              pageBreakPoints := pageBreakPoints v;
              remainingSpace := false;
              currentBlockIndex := currentBlockIndex v;
              currentCharOffset := currentCharOffset v |}.

(** [while (currentBlockIndex < chapter.blocks.length && remainingSpace)];
    [None] only when the fuel runs out. *)
Fixpoint fillPage (fuel : nat) (chapter : Chapter) (v : FillVars) : option FillVars :=
  match chapter_blocks chapter !! currentBlockIndex v with
  | Some block =>
      if remainingSpace v then
        match fuel with
        | O => None
        | S fuel' => v' ← fillStep chapter v block; fillPage fuel' chapter v'
        end
      else Some v
  | None => Some v
  end.

(** The page made of what the inner loop collected.
    [pageBreakPoints[0]?.blockId || 0] and the like: 0 without break point. *)
Definition pageOf (chapter : Chapter) (pageId : Z) (v : FillVars)
    : PaginationCalculator.Page :=
  {| PaginationCalculator.id := pageId;
     PaginationCalculator.content := pageContent v;
     PaginationCalculator.position :=
       {| PaginationCalculator.chapterId := chapter_id chapter;
          PaginationCalculator.blockId :=
            default 0%N (bp_blockId <$> head (pageBreakPoints v));
          PaginationCalculator.characterStart :=
            default 0 (bp_characterStart <$> head (pageBreakPoints v));
          PaginationCalculator.characterEnd :=
            default 0 (bp_characterEnd <$> list.last (pageBreakPoints v)) |};
     PaginationCalculator.totalCharacters :=
       Z.of_nat (length (concat (pageContent v))) |}.

(** One turn of the outer [while (currentBlockIndex < chapter.blocks.length)]
    loop from the block index and the offset given: the pages, the next
    page id, the block index and the offset after it.  The inner loop is
    given the fuel [innerFuel]. *)
Definition pageStep (innerFuel : nat) (chapter : Chapter)
    (chapterPages : list PaginationCalculator.Page) (pageId : Z)
    (blockIndex : nat) (charOffset : Z)
    : option (list PaginationCalculator.Page * Z * nat * Z) :=
  v ← fillPage innerFuel chapter
         {| pageContent := []; pageBreakPoints := []; remainingSpace := true;
            currentBlockIndex := blockIndex; currentCharOffset := charOffset |};
  if bool_decide (0 < length (pageContent v))%nat then
    Some (chapterPages ++ [pageOf chapter pageId v], pageId + 1,
          currentBlockIndex v, currentCharOffset v)
  else
    Some (chapterPages, pageId, currentBlockIndex v, currentCharOffset v).

(** The fuel that the inner loop never exhausts: it visits a block at most
    twice before the page is closed. *)
Definition innerFuel (chapter : Chapter) : nat :=
  (2 * length (chapter_blocks chapter) + 2)%nat.

(** The outer loop of [processChapter]; [None] when the fuel runs out. *)
Fixpoint processChapter_loop (fuel : nat) (chapter : Chapter)
    (chapterPages : list PaginationCalculator.Page) (pageId : Z)
    (blockIndex : nat) (charOffset : Z) : option (list PaginationCalculator.Page) :=
  if bool_decide (blockIndex < length (chapter_blocks chapter))%nat then
    match fuel with
    | O => None
    | S fuel' =>
        '(chapterPages', pageId', blockIndex', charOffset') ←
          pageStep (innerFuel chapter) chapter chapterPages pageId blockIndex charOffset;
        processChapter_loop fuel' chapter chapterPages' pageId' blockIndex' charOffset'
    end
  else Some chapterPages.

(** [processChapter], where [pages] is [this.pages] at the call. *)
Definition processChapter (fuel : nat) (pages : list PaginationCalculator.Page)
    (chapter : Chapter) : option (list PaginationCalculator.Page) :=
  processChapter_loop fuel chapter [] (Z.of_nat (length pages) + 1) 0 0.

(** [calculatePages]: [this.pages] and [this.totalCharacters] when it
    returns. *)
Fixpoint calculatePages_loop (fuel : nat) (pages : list PaginationCalculator.Page)
    (totalCharacters : Z) (chapters : list Chapter)
    : option (list PaginationCalculator.Page * Z) :=
  match chapters with
  | [] => Some (pages, totalCharacters)
  | chapter :: rest =>
      let chapterCharCount :=
        foldl (λ sum block, sum + Z.of_nat (length (block_text block))) 0
          (chapter_blocks chapter) in
      chapterPages ← processChapter fuel pages chapter;
      calculatePages_loop fuel (pages ++ chapterPages)
        (totalCharacters + chapterCharCount) rest
  end.

Definition calculatePages (fuel : nat) (bookContent : Book)
    : option (list PaginationCalculator.Page * Z) :=
  calculatePages_loop fuel [] 0 bookContent.

End Chapters.

End DOMPaginationCalculator.

(** ** The other finders of [content-position-finder.ts] *)

(** The [for] loop of [findPageByChapterId], started at index [i]:
    [page.metadata?.chapterId === targetChapterId && page.isChapterStart]. *)
Fixpoint findPageByChapterId_from (i : nat) (pages : list PageData)
    (targetChapterId : N) : option FindResult :=
  match pages with
  | [] => None
  | p :: rest =>
      let sameChapter :=
        match metadata p with
        | Some m => (chapterId m =? targetChapterId)%N
        | None => false
        end in
      if sameChapter && default false (isChapterStart p) then
        Some {| pageIndex := i; page := p; exactMatch := true |}
      else findPageByChapterId_from (S i) rest targetChapterId
  end.

Definition findPageByChapterId (pages : list PageData) (targetChapterId : N)
    : option FindResult :=
  findPageByChapterId_from 0 pages targetChapterId.

(** The [for] loop of [findPageRangeByBlockRange], started at index [i];
    [None] stands for the index [-1]. *)
Fixpoint findPageRange_from (i : nat) (pages : list PageData)
    (startBlock endBlock : N) (startPageIndex endPageIndex : option nat)
    : option nat * option nat :=
  match pages with
  | [] => (startPageIndex, endPageIndex)
  | p :: rest =>
      match metadata p with
      | None => findPageRange_from (S i) rest startBlock endBlock
                  startPageIndex endPageIndex
      | Some m =>
          let startPageIndex' :=
            match startPageIndex with
            | None => if includes startBlock (blockIds m) then Some i else None
            | Some _ => startPageIndex
            end in
          let endPageIndex' :=
            if includes endBlock (blockIds m) then Some i else endPageIndex in
          match startPageIndex', endPageIndex' with
          | Some _, Some _ => (startPageIndex', endPageIndex')
          | _, _ => findPageRange_from (S i) rest startBlock endBlock
                      startPageIndex' endPageIndex'
          end
      end
  end.

(** [findPageRangeByBlockRange]: [None] is [null], the pair is
    [{ startPageIndex, endPageIndex }]. *)
Definition findPageRangeByBlockRange (pages : list PageData)
    (startBlock endBlock : N) : option (nat * nat) :=
  match findPageRange_from 0 pages startBlock endBlock None None with
  | (Some s, Some e) => Some (s, e)
  | _ => None
  end.

(** [findPageByProgress]; the progress is a rational number. *)
Definition findPageByProgress (pages : list PageData) (progress : Q)
    : option FindResult :=
  let clampedProgress := Qmax 0 (Qmin 1 progress) in
  let targetPageIndex :=
    Qfloor (Qmult (inject_Z (Z.of_nat (length pages) - 1)) clampedProgress) in
  if (targetPageIndex <? 0) || (Z.of_nat (length pages) <=? targetPageIndex) then None
  else
    match pages !! Z.to_nat targetPageIndex with
    | Some p => Some {| pageIndex := Z.to_nat targetPageIndex; page := p;
                        exactMatch := false |}
    | None => None
    end.

(** ** [VerticalPaginationCalculator] ([text-measurement.ts]) *)

Module VerticalPaginationCalculator.

(** [Page] without its [id]. *)
Record Page := {
  content : jsstring;
  chapterTitle : option jsstring;
}.

(** The variables of the [for] loop of [calculatePages]. *)
Record Vars := {
  pages : list Page;
  currentPageContent : jsstring;
  currentChapterTitle : option jsstring;
}.

Section Measured.
(** [this.measurementContainer.scrollWidth] once [textContent] is set. *)
Variable scrollWidth : jsstring → Z.
Variable measuredMaxWidth : Z.

(** [findFittingText]: the loop of the hook's search, with nothing before
    the text that is measured. *)
Definition findFittingText (text : jsstring) : option jsstring :=
  findFittingText_search scrollWidth text measuredMaxWidth [] [].

(** The body of the [for] loop. *)
Definition blockStep (v : Vars) (block : TextBlock) : option Vars :=
  match tb_type block with
  | tb_chapter =>
      let flushed := truthy (currentPageContent v) in
      Some {| pages :=
                if flushed then
                  pages v ++ [ {| content := currentPageContent v;
                                  chapterTitle := currentChapterTitle v |} ]
                else pages v;
              currentPageContent := if flushed then [] else currentPageContent v;
              currentChapterTitle := tb_chapterTitle block |}
  | _ =>
      let blockContent :=
        match tb_type block with
        | tb_paragraph => IDEOGRAPHIC_SPACE :: IDEOGRAPHIC_SPACE :: tb_content block
        | _ => tb_content block
        end in
      let testContent := currentPageContent v ++ blockContent in
      if bool_decide (measuredMaxWidth < scrollWidth testContent) &&
         truthy (currentPageContent v) then
        let pages1 :=
          pages v ++ [ {| content := currentPageContent v;
                          chapterTitle := currentChapterTitle v |} ] in
        fittingText ← findFittingText blockContent;
        if bool_decide (length fittingText < length blockContent)%nat then
          Some {| pages := pages1 ++ [ {| content := fittingText; chapterTitle := None |} ];
                  currentPageContent := drop (length fittingText) blockContent;
                  currentChapterTitle := None |}
        else
          Some {| pages := pages1;
                  currentPageContent := blockContent;
                  currentChapterTitle := None |}
      else
        Some {| pages := pages v;
                currentPageContent := testContent;
                currentChapterTitle := currentChapterTitle v |}
  end.

Fixpoint runBlocks (v : Vars) (blocks : list TextBlock) : option Vars :=
  match blocks with
  | [] => Some v
  | block :: rest => v' ← blockStep v block; runBlocks v' rest
  end.

(** [calculatePages], once the display area is measured; [None] only when
    the search ran out of fuel. *)
Definition calculatePages (blocks : list TextBlock) : option (list Page) :=
  v ← runBlocks {| pages := []; currentPageContent := [];
                   currentChapterTitle := None |} blocks;
  if truthy (currentPageContent v) then
    Some (pages v ++ [ {| content := currentPageContent v;
                          chapterTitle := currentChapterTitle v |} ])
  else Some (pages v).

End Measured.

End VerticalPaginationCalculator.

(** ** The paginator component ([vertical-text-paginator.tsx]) *)

Module VerticalTextPaginator.

(** [Page] without its [id]. *)
Record Page := {
  content : jsstring;
  chapterTitle : option jsstring;
}.

Record Vars := {
  calculatedPages : list Page;
  currentPageContent : jsstring;
  currentChapterTitle : option jsstring;
}.

Inductive Outcome :=
| Paginated (pages : list Page)
| PaginationError.

Section Measured.
Variable measureTextWidth : jsstring → Z.
Variable maxWidth : Z.

(** [findFittingText]: the binary search, without kinsoku step. *)
Definition findFittingText (text : jsstring) (maxWidth : Z)
    (baseContent separator : jsstring) : option jsstring :=
  findFittingText_search measureTextWidth text maxWidth baseContent separator.

(** [while (remainingContent.length > 0)] after a part of the block fitted
    the open page: the pages and the new [currentPageContent]. *)
Fixpoint splitRemaining (fuel : nat) (title : option jsstring) (pages : list Page)
    (remainingContent : jsstring) : option (list Page * jsstring) :=
  if bool_decide (0 < length remainingContent)%nat then
    match fuel with
    | O => None
    | S fuel' =>
        let remainingWidth := measureTextWidth remainingContent in
        if bool_decide (remainingWidth ≤ maxWidth) then Some (pages, remainingContent)
        else
          nextFittingPortion ← findFittingText remainingContent maxWidth [] [];
          if bool_decide (0 < length nextFittingPortion)%nat then
            splitRemaining fuel' title
              (pages ++ [ {| content := nextFittingPortion; chapterTitle := title |} ])
              (drop (length nextFittingPortion) remainingContent)
          else Some (pages, [])
    end
  else Some (pages, []).

(** [while (remainingBlockContent.length > 0)] when nothing of the block
    fitted the open page: the pages and [remainingBlockContent]. *)
Fixpoint splitWholeBlock (fuel : nat) (title : option jsstring) (pages : list Page)
    (remainingBlockContent : jsstring) : option (list Page * jsstring) :=
  if bool_decide (0 < length remainingBlockContent)%nat then
    match fuel with
    | O => None
    | S fuel' =>
        fittingText ← findFittingText remainingBlockContent maxWidth [] [];
        if bool_decide (0 < length fittingText)%nat then
          splitWholeBlock fuel' title
            (pages ++ [ {| content := fittingText; chapterTitle := title |} ])
            (drop (length fittingText) remainingBlockContent)
        else Some (pages, remainingBlockContent)
    end
  else Some (pages, remainingBlockContent).

Definition chapterStep (v : Vars) (block : TextBlock) : Vars :=
  let flushed := truthy (currentPageContent v) in
  {| calculatedPages :=
       if flushed then
         calculatedPages v ++ [ {| content := currentPageContent v;
                                   chapterTitle := currentChapterTitle v |} ]
       else calculatedPages v;
     currentPageContent := if flushed then [] else currentPageContent v;
     currentChapterTitle := tb_chapterTitle block |}.

Definition textStep (v : Vars) (block : TextBlock) : option Vars :=
  let blockContent :=
    match tb_type block with
    | tb_paragraph => IDEOGRAPHIC_SPACE :: tb_content block
    | _ => tb_content block
    end in
  let separator := if truthy (currentPageContent v) then [NEWLINE] else [] in
  let testContent := (currentPageContent v ++ separator) ++ blockContent in
  let width := measureTextWidth testContent in
  if bool_decide (maxWidth < width) && truthy (currentPageContent v) then
    fittingPortion ←
      findFittingText blockContent maxWidth (currentPageContent v) separator;
    if bool_decide (0 < length fittingPortion)%nat then
      let pageWithFittingPortion := (currentPageContent v ++ separator) ++ fittingPortion in
      let remainingContent := drop (length fittingPortion) blockContent in
      '(pages, rest) ←
        splitRemaining (length remainingContent) (currentChapterTitle v)
          (calculatedPages v ++ [ {| content := pageWithFittingPortion;
                                     chapterTitle := currentChapterTitle v |} ])
          remainingContent;
      Some {| calculatedPages := pages;
              currentPageContent := rest;
              currentChapterTitle := currentChapterTitle v |}
    else
      let pages1 :=
        calculatedPages v ++ [ {| content := currentPageContent v;
                                  chapterTitle := currentChapterTitle v |} ] in
      let blockWidth := measureTextWidth blockContent in
      if bool_decide (blockWidth ≤ maxWidth) then
        Some {| calculatedPages := pages1;
                currentPageContent := blockContent;
                currentChapterTitle := currentChapterTitle v |}
      else
        '(pages, rest) ←
          splitWholeBlock (length blockContent) (currentChapterTitle v) pages1 blockContent;
        Some {| calculatedPages := pages;
                currentPageContent := rest;
                currentChapterTitle := currentChapterTitle v |}
  else
    Some {| calculatedPages := calculatedPages v;
            currentPageContent := testContent;
            currentChapterTitle := currentChapterTitle v |}.

Definition blockStep (v : Vars) (block : TextBlock) : option Vars :=
  match tb_type block with
  | tb_chapter => Some (chapterStep v block)
  | _ => textStep v block
  end.

Fixpoint runBlocks (v : Vars) (blocks : list TextBlock) : option Vars :=
  match blocks with
  | [] => Some v
  | block :: rest => v' ← blockStep v block; runBlocks v' rest
  end.

Definition finalPages (v : Vars) : list Page :=
  if truthy (currentPageContent v) then
    calculatedPages v ++ [ {| content := currentPageContent v;
                              chapterTitle := currentChapterTitle v |} ]
  else calculatedPages v.

(** [calculatePagination]: the pages handed to [setPages], or the error
    caught when there is no structured block.  [None] only when a loop ran
    out of fuel. *)
Definition calculatePagination (bookData : Book) : option Outcome :=
  match getStructuredBlocks bookData with
  | [] => Some PaginationError
  | structuredBlocks =>
      v ← runBlocks {| calculatedPages := []; currentPageContent := [];
                       currentChapterTitle := None |} structuredBlocks;
      Some (Paginated (finalPages v))
  end.

End Measured.

End VerticalTextPaginator.

(** * Vocabulary of the statements *)

(** ** Measurements and texts *)

(** Width measured for the prefix of length [k] of [text] appended to
    [baseContent + separator]. *)
Definition prefixWidth (measureTextWidth : jsstring → Z)
    (text baseContent separator : jsstring) (k : nat) : Z :=
  measureTextWidth ((baseContent ++ separator) ++ take k text).

(** The precondition on the measurement surface: a longer prefix is
    never narrower. *)
Definition widthMonotone (measureTextWidth : jsstring → Z)
    (text baseContent separator : jsstring) : Prop :=
  ∀ i j : nat, (i ≤ j)%nat → (j ≤ length text)%nat →
    prefixWidth measureTextWidth text baseContent separator i
      ≤ prefixWidth measureTextWidth text baseContent separator j.

(** A measurement that counts code units, used for concrete runs. *)
Definition lengthWidth (s : jsstring) : Z := Z.of_nat (length s).

(** A measurement surface on which the glyph W (code unit 87) is 10 pixels
    wide, a newline takes no width and every other glyph is 1 pixel wide. *)
Definition glyph (c : N) : Z :=
  if (c =? 87)%N then 10 else if (c =? NEWLINE)%N then 0 else 1.

Definition glyphWidth (s : jsstring) : Z :=
  foldr (λ c acc, glyph c + acc) 0 s.

(** Length of the prefix kept by the kinsoku step when the search stopped
    after [n] characters. *)
Definition kinsokuLength (text : jsstring) (n : nat) : nat :=
  match text !! n with
  | Some nextChar =>
      if isLeadingProhibited nextChar && bool_decide (1 < n)%nat then (n - 1)%nat else n
  | None => n
  end.

(** The text that the hook lays out for a structured block: the indent and
    the content for a paragraph, the content otherwise. *)
Definition blockContentOf (block : TextBlock) : jsstring :=
  match tb_type block with
  | tb_paragraph => IDEOGRAPHIC_SPACE :: tb_content block
  | tb_conversation => tb_content block
  | tb_chapter => []
  end.

(** The linearized text of a book, with the indentation markers. *)
Definition indentedText (book : Book) : jsstring :=
  block ← getStructuredBlocks book; blockContentOf block.

Definition withoutNewlines (s : jsstring) : jsstring :=
  filter (λ c, c ≠ NEWLINE) s.

(** All the text of a book, in reading order. *)
Definition bookText (book : Book) : jsstring :=
  ch ← book; b ← chapter_blocks ch; block_text b.

(** ** Pages *)

(** What every page pushed by the hook looks like: it does not carry
    [isChapterStart], and its metadata come from [enrichPageWithMetadata], so
    [startBlockId] is the first of [blockIds]. *)
Definition hookPage (p : PageData) : Prop :=
  isChapterStart p = None ∧
  ∃ m, metadata p = Some m ∧ startBlockId m = blockIds m !! 0%nat.

(** The page contents of an outcome; nothing for an error. *)
Definition pageContents (o : option PaginationOutcome) : list jsstring :=
  match o with
  | Some (Paginated ps) => content <$> ps
  | _ => []
  end.

(** Everything laid out so far: the pages and the open page. *)
Definition laidOut (v : PaginationVars) : jsstring :=
  concat (content <$> calculatedPages v) ++ currentPageContent v.

(** The text of a page: its content array joined. *)
Definition pageText (p : PaginationCalculator.Page) : jsstring :=
  concat (PaginationCalculator.content p).

Definition pagesText (pages : list PaginationCalculator.Page) : jsstring :=
  concat (pageText <$> pages).

(** A page pushed by [splitLargeBlock]: one non-empty string, counted in
    [totalCharacters]. *)
Definition splitPage (p : PaginationCalculator.Page) : Prop :=
  ∃ s, PaginationCalculator.content p = [s] ∧ s ≠ [] ∧
       PaginationCalculator.totalCharacters p = Z.of_nat (length s).

(** ** Sample data for the concrete runs *)

Definition sampleMeasurer : TextMeasurer.t :=
  {| TextMeasurer.containerWidth := 100; TextMeasurer.containerHeight := 50;
     TextMeasurer.fontSize := 10; TextMeasurer.lineHeight := 25 # 10;
     TextMeasurer.characterWidth := 10 |}.

Definition zeroWidthMeasurer : TextMeasurer.t :=
  {| TextMeasurer.containerWidth := 0; TextMeasurer.containerHeight := 50;
     TextMeasurer.fontSize := 10; TextMeasurer.lineHeight := 25 # 10;
     TextMeasurer.characterWidth := 10 |}.

Definition sampleChapter : Chapter :=
  {| chapter_id := 1; chapter_title := [49]%N;
     chapter_blocks := [ {| block_id := 1; block_type := paragraph;
                            block_text := [97; 98; 99]%N |} ] |}.

Definition samplePage : PageData :=
  pushedPage (enrichPageWithMetadata [97; 98; 99]%N None 1 [4; 5]%N false false None) false.

(** A book of two chapters whose blocks are both numbered 1, paginated on
    a page that holds 100 code units. *)
Definition twoChapterBook : Book :=
  [ {| chapter_id := 1; chapter_title := [49]%N;
       chapter_blocks := [ {| block_id := 1; block_type := conversation;
                              block_text := [97; 98]%N |} ] |};
    {| chapter_id := 2; chapter_title := [50]%N;
       chapter_blocks := [ {| block_id := 1; block_type := conversation;
                              block_text := [99; 100]%N |} ] |} ].

Definition twoChapterPages : list PageData :=
  Eval vm_compute in
    match calculatePagination lengthWidth 100 twoChapterBook with
    | Some (Paginated ps) => ps
    | _ => []
    end.

Definition samplePositions : list PaginationCalculator.Page :=
  [ {| PaginationCalculator.id := 1;
       PaginationCalculator.position :=
         {| PaginationCalculator.chapterId := 1; PaginationCalculator.blockId := 1;
            PaginationCalculator.characterStart := 0;
            PaginationCalculator.characterEnd := 5 |};
       PaginationCalculator.content := [[97; 98; 99; 100; 101]%N];
       PaginationCalculator.totalCharacters := 5 |};
    {| PaginationCalculator.id := 2;
       PaginationCalculator.position :=
         {| PaginationCalculator.chapterId := 1; PaginationCalculator.blockId := 1;
            PaginationCalculator.characterStart := 5;
            PaginationCalculator.characterEnd := 8 |};
       PaginationCalculator.content := [[102; 103; 104]%N];
       PaginationCalculator.totalCharacters := 3 |} ].

(** One chapter with the conversation blocks "a" and "aW". *)
Definition wideGlyphBook : Book :=
  [ {| chapter_id := 1; chapter_title := [49]%N;
       chapter_blocks :=
         [ {| block_id := 1; block_type := conversation; block_text := [97]%N |};
           {| block_id := 2; block_type := conversation; block_text := [97; 87]%N |} ] |} ].

(** ** The finders *)

(** A page that opens the chapter [c] for [findPageByChapterId]. *)
Definition startsChapter (c : N) (p : PageData) : Prop :=
  isChapterStart p = Some true ∧ ∃ m, metadata p = Some m ∧ chapterId m = c.

(** The page belongs to the chapter [c]. *)
Definition pageInChapter (c : N) (p : PageData) : Prop :=
  ∃ m, metadata p = Some m ∧ chapterId m = c.

(** Distance between two block identifiers. *)
Definition blockDistance (a b : N) : Z := Z.abs (Z.of_N a - Z.of_N b).

(** The matches are visited in the order of their page index. *)
Definition indexOrdered (l : list (PageData * nat)) : Prop :=
  ∀ (i j : nat) a b, l !! i = Some a → l !! j = Some b → (i < j)%nat → (a.2 < b.2)%nat.

(** ** Pages of [PaginationCalculator] *)

(** The pages are numbered from [n] on, one by one. *)
Definition idsFrom (n : Z) (pages : list PaginationCalculator.Page) : Prop :=
  ∀ (i : nat) p, pages !! i = Some p → PaginationCalculator.id p = n + Z.of_nat i.

(** The most characters that a page of [calculatePages] can hold. *)
Definition pageBound (tm : TextMeasurer.t) : Z :=
  Z.max 2 (PaginationCalculator.effectiveCapacity tm).

(** A page of the chapter [ch], holding at most [bound] characters. *)
Definition pageOfChapter (bound : Z) (ch : Chapter) (p : PaginationCalculator.Page) : Prop :=
  PaginationCalculator.chapterId (PaginationCalculator.position p) = chapter_id ch ∧
  (∃ b, b ∈ chapter_blocks ch ∧
        PaginationCalculator.blockId (PaginationCalculator.position p) = block_id b) ∧
  PaginationCalculator.content p ≠ [] ∧
  PaginationCalculator.totalCharacters p = Z.of_nat (length (pageText p)) ∧
  0 ≤ PaginationCalculator.characterStart (PaginationCalculator.position p) ∧
  PaginationCalculator.characterEnd (PaginationCalculator.position p) =
    PaginationCalculator.characterStart (PaginationCalculator.position p) +
    PaginationCalculator.totalCharacters p ∧
  PaginationCalculator.totalCharacters p ≤ bound.

Definition pageOfBook (tm : TextMeasurer.t) (book : Book)
    (p : PaginationCalculator.Page) : Prop :=
  ∃ ch, ch ∈ book ∧ pageOfChapter (pageBound tm) ch p.

(** What the loop over the blocks of a chapter keeps true of its variables
    once [n] blocks are visited. *)
Definition chapterInv (tm : TextMeasurer.t) (n : nat)
    (v : PaginationCalculator.ChapterVars) : Prop :=
  PaginationCalculator.pageId v =
    Z.of_nat (length (PaginationCalculator.pages v)) + 1 ∧
  PaginationCalculator.currentPageCharacterCount v =
    Z.of_nat (length (concat (PaginationCalculator.currentPageContent v))) ∧
  (PaginationCalculator.currentBlockStartIndex v ≤ n)%nat ∧
  (PaginationCalculator.currentPageContent v ≠ [] →
     (PaginationCalculator.currentBlockStartIndex v < n)%nat) ∧
  Z.of_nat (length (concat (PaginationCalculator.currentPageContent v)))
    ≤ PaginationCalculator.effectiveCapacity tm.

Definition sumZ (l : list Z) : Z := foldr Z.add 0 l.

(** The character ranges of the pages follow one another from [from] to
    [to], and none is empty. *)
Fixpoint tiles (from to : Z) (pages : list PaginationCalculator.Page) : Prop :=
  match pages with
  | [] => from = to
  | p :: rest =>
      PaginationCalculator.characterStart (PaginationCalculator.position p) = from ∧
      from < PaginationCalculator.characterEnd (PaginationCalculator.position p) ∧
      tiles (PaginationCalculator.characterEnd (PaginationCalculator.position p)) to rest
  end.

(** [text.substring(from, to)] for [0 ≤ from ≤ to]. *)
Definition substring (text : jsstring) (from to : Z) : jsstring :=
  take (Z.to_nat (to - from)) (drop (Z.to_nat from) text).

(** A page cut out of the block [block] of the chapter [chapter]: it
    carries their ids and holds the characters of its range. *)
Definition sliceOfBlock (chapter block : N) (text : jsstring)
    (p : PaginationCalculator.Page) : Prop :=
  PaginationCalculator.chapterId (PaginationCalculator.position p) = chapter ∧
  PaginationCalculator.blockId (PaginationCalculator.position p) = block ∧
  PaginationCalculator.content p =
    [substring text (PaginationCalculator.characterStart (PaginationCalculator.position p))
       (PaginationCalculator.characterEnd (PaginationCalculator.position p))].


(** ** Pages of the hook *)

(** [Number.isSafeInteger(n)] for a non-negative integer [n]: every such
    [n] is a Number and is printed with all its digits. *)
Definition isSafeInteger (n : N) : Prop := (n < 2 ^ 53)%N.

(** [b] is the id of a block of the book. *)
Definition bookBlockId (book : Book) (b : N) : Prop :=
  ∃ ch blk, ch ∈ book ∧ blk ∈ chapter_blocks ch ∧ block_id blk = b.

(** [b] is the number that the hook reads in the id of a structured block
    of the book. *)
Definition readBlockId (book : Book) (b : N) : Prop :=
  ∃ ch blk, ch ∈ book ∧ blk ∈ chapter_blocks ch ∧
    default 0%N (parseIdPart2 (tb_id (textBlockOf ch blk))) = b.

(** A structured block of the book: a chapter marker, or a text block made
    from a block of the book. *)
Definition bookTextBlock (book : Book) (tb : TextBlock) : Prop :=
  tb_type tb = tb_chapter ∨ readBlockId book (default 0%N (parseIdPart2 (tb_id tb))).

(** What every page of the hook looks like. *)
Definition hookPageOf (book : Book) (p : PageData) : Prop :=
  content p ≠ [] ∧
  ∃ m, metadata p = Some m ∧
       chapterId m ≠ 0%N ∧
       blockIds m ≠ [] ∧
       Forall (readBlockId book) (blockIds m) ∧
       startBlockId m = head (blockIds m) ∧
       endBlockId m = list.last (blockIds m) ∧
       characterRange m =
         Some {| range_start := 0; range_end := Z.of_nat (length (content p)) - 1 |}.

(** What the loop of the hook keeps true of its variables. *)
Definition hookInv (book : Book) (v : PaginationVars) : Prop :=
  Forall (hookPageOf book) (calculatedPages v) ∧
  currentChapterId v ≠ 0%N ∧
  Forall (readBlockId book) (currentBlockIds v) ∧
  (currentPageContent v ≠ [] → currentBlockIds v ≠ []).

(** The text [s] opens the page list: it starts the first page, or the open
    page while no page is made. *)
Definition opensWith (s : jsstring) (pages : list PageData) (current : jsstring) : Prop :=
  match pages with
  | [] => s `prefix_of` current
  | p :: _ => s `prefix_of` content p
  end.


(** ** The measurement of [DOMPaginationCalculator] *)

(** The precondition on the DOM measurement: once a prefix of [text]
    overflows, every longer prefix overflows. *)
Definition overflowMonotone (overflow : jsstring → bool) (text : jsstring) : Prop :=
  ∀ i j : nat, (i ≤ j)%nat → (j ≤ length text)%nat →
    overflow (take i text) = true → overflow (take j text) = true.

(** No character of [text] is subject to a kinsoku rule. *)
Definition kinsokuFree (text : jsstring) : Prop :=
  ∀ c, c ∈ text →
    (c ∉ DOMPaginationCalculator.kinsokuStart) ∧ (c ∉ DOMPaginationCalculator.kinsokuEnd).

(** A position before [position] to which the leading rule of
    [applyKinsoku] may move the break: it is not before 1, the character
    behind it may start a line, and the text up to it does not overflow. *)
Definition leadingBreak (overflow : jsstring → bool) (text : jsstring)
    (position r : nat) : Prop :=
  (1 ≤ r < position)%nat ∧
  DOMPaginationCalculator.includesAt DOMPaginationCalculator.kinsokuStart text r = false ∧
  overflow (take r text) = false.

(** The overflow test of a page that holds one character. *)
Definition singleCharacterPage (s : jsstring) : bool :=
  bool_decide (1 < length s)%nat.

(** The pieces that [processChapter] lays on a page for the blocks given,
    when they all fit: the blocks with text, each paragraph behind its
    indent, each block but the first behind a newline. *)
Fixpoint domPieces (first : bool) (blocks : list Block) : list jsstring :=
  match blocks with
  | [] => []
  | block :: rest =>
      if bool_decide (block_text block = []) then domPieces first rest
      else
        ((if first then [] else [NEWLINE]) ++
         (match block_type block with paragraph => [IDEOGRAPHIC_SPACE] | _ => [] end) ++
         block_text block)
        :: domPieces false rest
  end.


(** ** Texts of [VerticalPaginationCalculator] *)

(** The text that [VerticalPaginationCalculator] lays out for a list of
    blocks: every paragraph behind two full-width spaces, nothing for a
    chapter marker, no separator. *)
Definition verticalText (blocks : list TextBlock) : jsstring :=
  block ← blocks;
  match tb_type block with
  | tb_paragraph => IDEOGRAPHIC_SPACE :: IDEOGRAPHIC_SPACE :: tb_content block
  | tb_conversation => tb_content block
  | tb_chapter => []
  end.

(** ** The hook and the paginator component *)

(** No character of [s] is one that the kinsoku step of the hook keeps
    from the head of a page. *)
Definition leadingFree (s : jsstring) : Prop :=
  ∀ c, c ∈ s → isLeadingProhibited c = false.

(** The pages of the hook and of the component show the same contents under
    the same chapter titles. *)
Definition pagesAgree (ps : list PageData) (qs : list VerticalTextPaginator.Page) : Prop :=
  (λ p, (content p, chapterTitle p)) <$> ps =
  (λ q, (VerticalTextPaginator.content q, VerticalTextPaginator.chapterTitle q)) <$> qs.

Definition varsAgree (v : PaginationVars) (w : VerticalTextPaginator.Vars) : Prop :=
  pagesAgree (calculatedPages v) (VerticalTextPaginator.calculatedPages w) ∧
  currentPageContent v = VerticalTextPaginator.currentPageContent w ∧
  currentChapterTitle v = VerticalTextPaginator.currentChapterTitle w.


(** A structured block of the book, with the chapter it comes from. *)
Definition chapterTextBlock (book : Book) (tb : TextBlock) : Prop :=
  (∃ ch, ch ∈ book ∧ tb = chapterMarkerOf ch) ∨ tb_type tb ≠ tb_chapter.

(** The title is that of a chapter of the book, and so is the chapter id
    when the chapter's id is read back as it was printed; a chapter id of 0
    is replaced by the hook. *)
Definition ofChapter (book : Book) (title : option jsstring) (chapter : N) : Prop :=
  ∃ ch, ch ∈ book ∧ title = Some (chapter_title ch) ∧
        (chapter_id ch ≠ 0%N → isSafeInteger (chapter_id ch) → chapter = chapter_id ch).

Definition pageOfSomeChapter (book : Book) (p : PageData) : Prop :=
  ∃ m, metadata p = Some m ∧ ofChapter book (chapterTitle p) (chapterId m).

(** * Properties *)

(** ** The binary search *)

Section FittingSearchFacts.
Variable measureTextWidth : jsstring → Z.

(** The loop ends within its fuel and leaves a prefix of [text] in
    [result], whatever the measurement says. *)
Lemma findFittingText_loop_prefix fuel text maxWidth baseContent separator :
  ∀ left right result,
    0 ≤ left → left ≤ right + 1 → right ≤ Z.of_nat (length text) →
    (Z.to_nat (right + 1 - left) ≤ fuel)%nat →
    (∃ m, (m ≤ length text)%nat ∧ result = take m text) →
    ∃ n, (n ≤ length text)%nat ∧
      findFittingText_loop measureTextWidth fuel text maxWidth baseContent
        separator left right result = Some (take n text).
Proof.
  induction fuel as [|fuel IH]; intros left right result Hl Hlr Hr Hfuel Hres.
  - cbn. rewrite bool_decide_eq_false_2 by lia.
    destruct Hres as (m & Hm & ->). eauto.
  - cbn. case_bool_decide as Hle.
    + assert (Hmid : left ≤ (left + right) `div` 2 ≤ right)
        by (split; [apply Z.div_le_lower_bound | apply Z.div_le_upper_bound]; lia).
      case_bool_decide.
      * apply IH; try lia. exists (Z.to_nat ((left + right) `div` 2)).
        split; [lia | done].
      * apply IH; try lia. done.
    + destruct Hres as (m & Hm & ->). eauto.
Qed.

Lemma findFittingText_search_prefix text maxWidth baseContent separator :
  ∃ n, (n ≤ length text)%nat ∧
    findFittingText_search measureTextWidth text maxWidth baseContent separator
      = Some (take n text).
Proof.
  apply findFittingText_loop_prefix; try lia.
  exists 0%nat. split; [lia | done].
Qed.

(** The invariant of the loop under the monotonicity precondition:
    everything beyond [right] overflows, and the prefix in [result]
    (of length [left - 1], when there is one) fits. *)
Lemma findFittingText_loop_max fuel text maxWidth baseContent separator :
  widthMonotone measureTextWidth text baseContent separator →
  ∀ left right result,
    0 ≤ left → left ≤ right + 1 → right ≤ Z.of_nat (length text) →
    (Z.to_nat (right + 1 - left) ≤ fuel)%nat →
    result = take (Z.to_nat (left - 1)) text →
    (0 < left →
       prefixWidth measureTextWidth text baseContent separator (Z.to_nat (left - 1))
         ≤ maxWidth) →
    (∀ k : nat, right < Z.of_nat k → (k ≤ length text)%nat →
       maxWidth < prefixWidth measureTextWidth text baseContent separator k) →
    ∃ n : Z, -1 ≤ n ≤ Z.of_nat (length text) ∧
      findFittingText_loop measureTextWidth fuel text maxWidth baseContent
        separator left right result = Some (take (Z.to_nat n) text) ∧
      (0 ≤ n →
         prefixWidth measureTextWidth text baseContent separator (Z.to_nat n) ≤ maxWidth) ∧
      (∀ k : nat, n < Z.of_nat k → (k ≤ length text)%nat →
         maxWidth < prefixWidth measureTextWidth text baseContent separator k).
Proof.
  intros Hmono.
  induction fuel as [|fuel IH];
    intros left right result Hl Hlr Hr Hfuel Hres Hfit Hover.
  - cbn. rewrite bool_decide_eq_false_2 by lia.
    exists (left - 1). subst result.
    split_and!; [lia | lia | done | intros ?; apply Hfit; lia
                | intros k ? ?; apply Hover; lia].
  - cbn. case_bool_decide as Hle.
    + assert (Hmid : left ≤ (left + right) `div` 2 ≤ right)
        by (split; [apply Z.div_le_lower_bound | apply Z.div_le_upper_bound]; lia).
      set (mid := (left + right) `div` 2) in *.
      case_bool_decide as Hw.
      * apply IH; try lia.
        -- f_equal. lia.
        -- intros _. replace (mid + 1 - 1) with mid by lia. exact Hw.
        -- exact Hover.
      * apply IH; try lia; try done.
        intros k Hk Hklen.
        destruct (decide (right < Z.of_nat k)) as [?|Hnk]; [by apply Hover|].
        eapply Z.lt_le_trans; [|apply (Hmono (Z.to_nat mid) k); lia].
        fold (prefixWidth measureTextWidth text baseContent separator (Z.to_nat mid)) in Hw. lia.
    + exists (left - 1). subst result.
      split_and!; [lia | lia | done | intros ?; apply Hfit; lia
                  | intros k ? ?; apply Hover; lia].
Qed.

End FittingSearchFacts.

Lemma lengthWidth_monotone text baseContent separator :
  widthMonotone lengthWidth text baseContent separator.
Proof.
  intros i j Hij Hj. unfold prefixWidth, lengthWidth.
  rewrite !length_app, !length_take. lia.
Qed.

(** C3 (as the code has it).  Under the monotonicity precondition the binary
    search of [findFittingText] ends and returns, before the kinsoku step, a
    prefix of the candidate text such that every strictly longer prefix
    overflows; this prefix is the longest one that fits whenever
    [baseContent + separator] alone (the empty prefix) fits, and it is the
    empty prefix when even that overflows. *)
Theorem findFittingText_search_maximal
    (measureTextWidth : jsstring → Z) (text : jsstring) (maxWidth : Z)
    (baseContent separator : jsstring) :
  widthMonotone measureTextWidth text baseContent separator →
  ∃ result,
    findFittingText_search measureTextWidth text maxWidth baseContent separator
      = Some result ∧
    result = take (length result) text ∧
    (length result ≤ length text)%nat ∧
    (∀ k : nat, (length result < k)%nat → (k ≤ length text)%nat →
       maxWidth < prefixWidth measureTextWidth text baseContent separator k) ∧
    (prefixWidth measureTextWidth text baseContent separator 0 ≤ maxWidth →
       prefixWidth measureTextWidth text baseContent separator (length result) ≤ maxWidth) ∧
    (maxWidth < prefixWidth measureTextWidth text baseContent separator 0 →
       result = []).
Proof.
  intros Hmono.
  destruct (findFittingText_loop_max measureTextWidth (S (length text)) text maxWidth
              baseContent separator Hmono 0 (Z.of_nat (length text)) [])
    as (n & Hn & Hloop & Hfit & Hover); try lia; try done.
  exists (take (Z.to_nat n) text).
  assert (Hlen : length (take (Z.to_nat n) text) = Z.to_nat n)
    by (rewrite length_take; lia).
  rewrite Hlen. split_and!.
  - exact Hloop.
  - done.
  - lia.
  - intros k Hk Hklen. apply Hover; lia.
  - intros H0. apply Hfit.
    destruct (decide (0 ≤ n)) as [|Hneg]; [done|].
    specialize (Hover 0%nat). lia.
  - intros H0.
    destruct (decide (0 ≤ n)) as [Hpos|Hneg].
    + specialize (Hfit Hpos).
      pose proof (Hmono 0%nat (Z.to_nat n)). lia.
    + replace (Z.to_nat n) with 0%nat by lia. done.
Qed.

Lemma findFittingText_search_maximal_witness :
  ∃ result,
    findFittingText_search lengthWidth [97; 98; 99; 100]%N 3 [120]%N [NEWLINE]
      = Some result ∧
    result = take (length result) [97; 98; 99; 100]%N ∧
    (length result ≤ 4)%nat ∧
    (∀ k : nat, (length result < k)%nat → (k ≤ 4)%nat →
       3 < prefixWidth lengthWidth [97; 98; 99; 100]%N [120]%N [NEWLINE] k) ∧
    (prefixWidth lengthWidth [97; 98; 99; 100]%N [120]%N [NEWLINE] 0 ≤ 3 →
       prefixWidth lengthWidth [97; 98; 99; 100]%N [120]%N [NEWLINE] (length result) ≤ 3) ∧
    (3 < prefixWidth lengthWidth [97; 98; 99; 100]%N [120]%N [NEWLINE] 0 →
       result = []).
Proof.
  apply (findFittingText_search_maximal lengthWidth [97; 98; 99; 100]%N 3
           [120]%N [NEWLINE]).
  apply lengthWidth_monotone.
Defined.

(** C3 as stated fails when the open page alone already overflows (the
    first block of a page is accepted whatever its width): the measurement is
    monotone, yet the prefix returned, the empty one, overflows. *)
Lemma findFittingText_search_counterexample :
  ¬ (widthMonotone lengthWidth [99]%N [97; 98]%N [] →
     ∃ result,
       findFittingText_search lengthWidth [99]%N 1 [97; 98]%N [] = Some result ∧
       prefixWidth lengthWidth [99]%N [97; 98]%N [] (length result) ≤ 1 ∧
       (∀ k : nat, (length result < k)%nat → (k ≤ 1)%nat →
          1 < prefixWidth lengthWidth [99]%N [97; 98]%N [] k)).
Proof.
  intros H. destruct (H (lengthWidth_monotone _ _ _)) as (result & Hres & Hfit & _).
  vm_compute in Hres. injection Hres as <-. vm_compute in Hfit. done.
Qed.

(** ** The kinsoku step *)

Lemma kinsokuAdjust_take text n :
  (n ≤ length text)%nat →
  kinsokuAdjust text (take n text) = take (kinsokuLength text n) text.
Proof.
  intros Hn. unfold kinsokuAdjust, kinsokuLength, slice_0_m1.
  rewrite length_take, Nat.min_l by done.
  destruct (text !! n) as [c|] eqn:Hc.
  - apply lookup_lt_Some in Hc.
    destruct (isLeadingProhibited c); cbn;
      repeat case_bool_decide; cbn; try done; try lia.
    rewrite take_take. f_equal. lia.
  - by destruct (_ && _).
Qed.

Lemma kinsokuLength_le text n : (kinsokuLength text n ≤ n)%nat.
Proof.
  unfold kinsokuLength. destruct (text !! n); [|done].
  destruct (_ && _); lia.
Qed.




(** ** The leading rule of [DOMPaginationCalculator.applyKinsoku] *)

Section DOMKinsokuFacts.
Variable overflow : jsstring → bool.

Lemma leadingScan_found text i r :
  DOMPaginationCalculator.leadingScan overflow text i = Some r →
  (1 ≤ r ≤ i)%nat ∧
  DOMPaginationCalculator.includesAt DOMPaginationCalculator.kinsokuStart text r = false ∧
  overflow (take r text) = false ∧
  ∀ j, (r < j ≤ i)%nat →
    DOMPaginationCalculator.includesAt DOMPaginationCalculator.kinsokuStart text j = true ∨
    overflow (take j text) = true.
Proof.
  induction i as [|i IH]; [done|]. cbn [DOMPaginationCalculator.leadingScan].
  destruct (negb _ && negb _) eqn:Hok.
  - intros [= <-]. apply andb_true_iff in Hok as [H1 H2].
    apply negb_true_iff in H1, H2. split_and!; try done; lia.
  - intros Hr. destruct (IH Hr) as (Hri & Hk & Ho & Hbetween).
    split_and!; try done; try lia.
    intros j Hj. destruct (decide (j = S i)) as [->|]; [|apply Hbetween; lia].
    apply andb_false_iff in Hok as [H|H]; apply negb_false_iff in H; auto.
Qed.

Lemma leadingScan_none text i :
  DOMPaginationCalculator.leadingScan overflow text i = None →
  ∀ j, (1 ≤ j ≤ i)%nat →
    DOMPaginationCalculator.includesAt DOMPaginationCalculator.kinsokuStart text j = true ∨
    overflow (take j text) = true.
Proof.
  induction i as [|i IH]; [intros _ j Hj; lia|].
  cbn [DOMPaginationCalculator.leadingScan].
  destruct (negb _ && negb _) eqn:Hok; [done|].
  intros Hnone j Hj. destruct (decide (j = S i)) as [->|]; [|apply IH; [done | lia]].
  apply andb_false_iff in Hok as [H|H]; apply negb_false_iff in H; auto.
Qed.

(** X23.  When the character behind the break point may not start a line,
    [applyKinsoku] moves the break point back to the nearest earlier
    position, not before 1, where the character behind may start a line and
    the text before fits: the position it returns is such a position, and
    no such position lies nearer to the break point.  When there is no such
    position and the trailing rule does not apply, the break point stays. *)
Lemma applyKinsoku_leading text position :
  (0 < position < length text)%nat →
  DOMPaginationCalculator.includesAt DOMPaginationCalculator.kinsokuStart text position
    = true →
  (∀ r, leadingBreak overflow text position r →
     leadingBreak overflow text position
       (DOMPaginationCalculator.applyKinsoku overflow text position) ∧
     ∀ j, leadingBreak overflow text position j →
       (j ≤ DOMPaginationCalculator.applyKinsoku overflow text position)%nat) ∧
  ((∀ r, ¬ leadingBreak overflow text position r) →
   DOMPaginationCalculator.includesAt DOMPaginationCalculator.kinsokuEnd text (position - 1)
     = false →
   DOMPaginationCalculator.applyKinsoku overflow text position = position).
Proof.
  intros Hpos Hnext. unfold DOMPaginationCalculator.applyKinsoku.
  rewrite (bool_decide_eq_false_2 (position ≤ 0)%nat) by lia.
  rewrite (bool_decide_eq_false_2 (length text ≤ position)%nat) by lia.
  cbn [orb]. rewrite Hnext.
  destruct (DOMPaginationCalculator.leadingScan overflow text (position - 1))
    as [a|] eqn:Hscan.
  - destruct (leadingScan_found _ _ _ Hscan) as (Ha & Hstart & Hfit & Hnearer).
    split.
    + intros _ _. split; [split_and!; [lia | lia | done | done]|].
      intros j ((Hj1 & Hj2) & Hjstart & Hjfit).
      destruct (decide (j ≤ a)%nat) as [|Hgt]; [done|].
      destruct (Hnearer j ltac:(lia)) as [H|H]; congruence.
    + intros Hnone. destruct (Hnone a). split_and!; [lia | lia | done | done].
  - split.
    + intros r ((Hr1 & Hr2) & Hrstart & Hrfit).
      destruct (leadingScan_none _ _ Hscan r ltac:(lia)) as [H|H]; congruence.
    + intros _ ->. done.
Qed.

(** The search of [findOptimalBreakPoint] ends within its fuel, on a
    position inside the text. *)
Lemma findOptimalBreakPoint_loop_total fuel text :
  ∀ left right bestFit,
    0 ≤ left → left ≤ right + 1 → right ≤ Z.of_nat (length text) →
    (Z.to_nat (right + 1 - left) ≤ fuel)%nat →
    0 ≤ bestFit ≤ Z.of_nat (length text) →
    ∃ n, 0 ≤ n ≤ Z.of_nat (length text) ∧
      DOMPaginationCalculator.findOptimalBreakPoint_loop overflow fuel text
        left right bestFit = Some n.
Proof.
  induction fuel as [|fuel IH]; intros left right bestFit Hl Hlr Hr Hfuel Hbest.
  - cbn. rewrite bool_decide_eq_false_2 by lia. eauto.
  - cbn. case_bool_decide as Hle; [|eauto].
    assert (Hmid : left ≤ (left + right) `div` 2 ≤ right)
      by (split; [apply Z.div_le_lower_bound | apply Z.div_le_upper_bound]; lia).
    destruct (negb _); apply IH; lia.
Qed.

(** Under the monotonicity precondition the search of
    [findOptimalBreakPoint] leaves in [bestFit] a length beyond which every
    prefix overflows, and whose prefix fits whenever the empty prefix does. *)
Lemma findOptimalBreakPoint_loop_max fuel text :
  (∀ i j : nat, (i ≤ j)%nat → (j ≤ length text)%nat →
     overflow (take i text) = true → overflow (take j text) = true) →
  ∀ left right bestFit,
    0 ≤ left → left ≤ right + 1 → right ≤ Z.of_nat (length text) →
    (Z.to_nat (right + 1 - left) ≤ fuel)%nat →
    bestFit = Z.max 0 (left - 1) →
    (0 < left → overflow (take (Z.to_nat (left - 1)) text) = false) →
    (∀ k : nat, right < Z.of_nat k → (k ≤ length text)%nat →
       overflow (take k text) = true) →
    ∃ n : Z, 0 ≤ n ≤ Z.of_nat (length text) ∧
      DOMPaginationCalculator.findOptimalBreakPoint_loop overflow fuel text
        left right bestFit = Some n ∧
      (overflow (take 0 text) = false → overflow (take (Z.to_nat n) text) = false) ∧
      (∀ k : nat, n < Z.of_nat k → (k ≤ length text)%nat →
         overflow (take k text) = true).
Proof.
  intros Hmono.
  induction fuel as [|fuel IH];
    intros left right bestFit Hl Hlr Hr Hfuel Hbest Hfit Hover.
  - cbn. rewrite bool_decide_eq_false_2 by lia.
    exists bestFit. subst bestFit. split_and!; [lia | lia | done | |].
    + intros H0. destruct (decide (0 < left)) as [Hpos|Hzero].
      * replace (Z.max 0 (left - 1)) with (left - 1) by lia. by apply Hfit.
      * by replace (Z.max 0 (left - 1)) with 0 by lia.
    + intros k Hk Hklen. destruct (decide (right < Z.of_nat k)); [by apply Hover|].
      assert (left = 0 ∧ k = 0%nat) as [-> ->] by lia. apply Hover; lia.
  - cbn. case_bool_decide as Hle.
    + assert (Hmid : left ≤ (left + right) `div` 2 ≤ right)
        by (split; [apply Z.div_le_lower_bound | apply Z.div_le_upper_bound]; lia).
      set (mid := (left + right) `div` 2) in *.
      destruct (overflow (take (Z.to_nat mid) text)) eqn:Hw; cbn [negb].
      * apply IH; try lia; try done.
        intros k Hk Hklen.
        destruct (decide (right < Z.of_nat k)); [by apply Hover|].
        apply (Hmono (Z.to_nat mid) k); [lia | done | done].
      * apply IH; try lia; try done.
        intros _. by replace (mid + 1 - 1) with mid by lia.
    + exists bestFit. subst bestFit. split_and!; [lia | lia | done | |].
      * intros H0. destruct (decide (0 < left)) as [Hpos|Hzero].
        -- replace (Z.max 0 (left - 1)) with (left - 1) by lia. by apply Hfit.
        -- by replace (Z.max 0 (left - 1)) with 0 by lia.
      * intros k Hk Hklen. destruct (decide (right < Z.of_nat k)); [by apply Hover|].
        assert (left = 0 ∧ k = 0%nat) as [-> ->] by lia. apply Hover; lia.
Qed.

Lemma findOptimalBreakPoint_total text :
  ∃ n, DOMPaginationCalculator.findOptimalBreakPoint overflow text = Some n.
Proof.
  unfold DOMPaginationCalculator.findOptimalBreakPoint.
  case_bool_decide; [eauto|].
  destruct (findOptimalBreakPoint_loop_total (S (length text)) text
              0 (Z.of_nat (length text)) 0) as (n & _ & ->); try lia.
  cbn. eauto.
Qed.

End DOMKinsokuFacts.

(** ** The pagination loop of the hook *)

Ltac solve_hookPage := split; [reflexivity | eexists; split; reflexivity].

Section PaginationFacts.
Variable measureTextWidth : jsstring → Z.
Variable actualMaxWidth : Z.

(** [findFittingText] always ends, with a prefix of its text. *)
Lemma findFittingText_prefix text maxWidth baseContent separator :
  ∃ n, (n ≤ length text)%nat ∧
    findFittingText measureTextWidth text maxWidth baseContent separator
      = Some (take n text).
Proof.
  destruct (findFittingText_search_prefix measureTextWidth text maxWidth
              baseContent separator) as (n & Hn & Hs).
  exists (kinsokuLength text n). unfold findFittingText. rewrite Hs. cbn.
  rewrite kinsokuAdjust_take by done.
  pose proof (kinsokuLength_le text n). split; [lia | done].
Qed.

(** Two runs of a splitting loop on the same text take the same decisions,
    whatever metadata they attach: they end, append pages with the same
    contents and leave the same text for the open page. *)
Lemma splitRemaining_sim fuel :
  ∀ t1 c1 b1 pages1 pr1 t2 c2 b2 pages2 pr2 rem,
    (length rem ≤ fuel)%nat →
    ∃ new1 new2 pr1' pr2' rest,
      splitRemaining measureTextWidth actualMaxWidth fuel t1 c1 b1 pages1 pr1 rem
        = Some {| sv_pages := pages1 ++ new1; sv_processed := pr1'; sv_rest := rest |} ∧
      splitRemaining measureTextWidth actualMaxWidth fuel t2 c2 b2 pages2 pr2 rem
        = Some {| sv_pages := pages2 ++ new2; sv_processed := pr2'; sv_rest := rest |} ∧
      content <$> new1 = content <$> new2 ∧
      Forall hookPage new1.
Proof.
  induction fuel as [|fuel IH];
    intros t1 c1 b1 pages1 pr1 t2 c2 b2 pages2 pr2 rem Hfuel.
  - cbn. rewrite bool_decide_eq_false_2 by lia.
    exists [], [], pr1, pr2, []. by rewrite !app_nil_r.
  - cbn -[findFittingText]. case_bool_decide as Hlen.
    2: { exists [], [], pr1, pr2, []. by rewrite !app_nil_r. }
    case_bool_decide.
    { exists [], [], pr1, pr2, rem. by rewrite !app_nil_r. }
    destruct (findFittingText_prefix rem actualMaxWidth [] []) as (n & Hn & ->).
    cbn. rewrite length_take, Nat.min_l by done.
    case_bool_decide.
    2: { exists [], [], pr1, pr2, []. by rewrite !app_nil_r. }
    match goal with
    | |- context [splitRemaining _ _ fuel t1 c1 b1 (pages1 ++ [?p1]) ?q1 ?r] =>
        match goal with
        | |- context [splitRemaining _ _ fuel t2 c2 b2 (pages2 ++ [?p2]) ?q2 r] =>
            destruct (IH t1 c1 b1 (pages1 ++ [p1]) q1 t2 c2 b2 (pages2 ++ [p2]) q2 r)
              as (new1 & new2 & pr1' & pr2' & rest & -> & -> & Hc & Hu);
              [rewrite length_drop; lia|];
            exists (p1 :: new1), (p2 :: new2), pr1', pr2', rest
        end
    end.
    rewrite <- !app_assoc. cbn. split_and!; try done.
    + by rewrite Hc.
    + constructor; [solve_hookPage | done].
Qed.

Lemma splitWholeBlock_sim fuel :
  ∀ t1 c1 b1 pages1 pr1 t2 c2 b2 pages2 pr2 rem,
    (length rem ≤ fuel)%nat →
    ∃ new1 new2 pr1' pr2' rest,
      splitWholeBlock measureTextWidth actualMaxWidth fuel t1 c1 b1 pages1 pr1 rem
        = Some {| sv_pages := pages1 ++ new1; sv_processed := pr1'; sv_rest := rest |} ∧
      splitWholeBlock measureTextWidth actualMaxWidth fuel t2 c2 b2 pages2 pr2 rem
        = Some {| sv_pages := pages2 ++ new2; sv_processed := pr2'; sv_rest := rest |} ∧
      content <$> new1 = content <$> new2 ∧
      Forall hookPage new1.
Proof.
  induction fuel as [|fuel IH];
    intros t1 c1 b1 pages1 pr1 t2 c2 b2 pages2 pr2 rem Hfuel.
  - cbn. rewrite bool_decide_eq_false_2 by lia.
    exists [], [], pr1, pr2, rem. by rewrite !app_nil_r.
  - cbn -[findFittingText]. case_bool_decide as Hlen.
    2: { exists [], [], pr1, pr2, rem. by rewrite !app_nil_r. }
    destruct (findFittingText_prefix rem actualMaxWidth [] []) as (n & Hn & ->).
    cbn. rewrite length_take, Nat.min_l by done.
    case_bool_decide.
    2: { exists [], [], pr1, pr2, rem. by rewrite !app_nil_r. }
    match goal with
    | |- context [splitWholeBlock _ _ fuel t1 c1 b1 (pages1 ++ [?p1]) ?q1 ?r] =>
        match goal with
        | |- context [splitWholeBlock _ _ fuel t2 c2 b2 (pages2 ++ [?p2]) ?q2 r] =>
            destruct (IH t1 c1 b1 (pages1 ++ [p1]) q1 t2 c2 b2 (pages2 ++ [p2]) q2 r)
              as (new1 & new2 & pr1' & pr2' & rest & -> & -> & Hc & Hu);
              [rewrite length_drop; lia|];
            exists (p1 :: new1), (p2 :: new2), pr1', pr2', rest
        end
    end.
    rewrite <- !app_assoc. cbn. split_and!; try done.
    + by rewrite Hc.
    + constructor; [solve_hookPage | done].
Qed.

Lemma textStep_sim v1 v2 block :
  currentPageContent v1 = currentPageContent v2 →
  ∃ v1' v2' new1 new2,
    textStep measureTextWidth actualMaxWidth v1 block = Some v1' ∧
    textStep measureTextWidth actualMaxWidth v2 block = Some v2' ∧
    calculatedPages v1' = calculatedPages v1 ++ new1 ∧
    calculatedPages v2' = calculatedPages v2 ++ new2 ∧
    content <$> new1 = content <$> new2 ∧
    currentPageContent v1' = currentPageContent v2' ∧
    Forall hookPage new1.
Proof.
  intros Hcur. unfold textStep. rewrite <- Hcur.
  set (blockContent := match tb_type block with
                       | tb_paragraph => IDEOGRAPHIC_SPACE :: tb_content block
                       | _ => tb_content block
                       end).
  set (separator := if truthy (currentPageContent v1) then [NEWLINE] else []).
  destruct (bool_decide (actualMaxWidth < _) && truthy (currentPageContent v1)).
  2: { eexists _, _, [], []. cbn. rewrite !app_nil_r. by split_and!. }
  destruct (findFittingText_prefix blockContent actualMaxWidth
              (currentPageContent v1) separator) as (n & Hn & ->).
  cbn -[splitRemaining splitWholeBlock]. case_bool_decide.
  - match goal with
    | |- context [splitRemaining _ _ ?f ?t1 ?c1 ?b1 (calculatedPages v1 ++ [?p1]) ?q1 ?r] =>
        match goal with
        | |- context [splitRemaining _ _ f ?t2 ?c2 ?b2 (calculatedPages v2 ++ [?p2]) ?q2 r] =>
            destruct (splitRemaining_sim f t1 c1 b1 (calculatedPages v1 ++ [p1]) q1
                        t2 c2 b2 (calculatedPages v2 ++ [p2]) q2 r)
              as (new1 & new2 & pr1' & pr2' & rest & -> & -> & Hc & Hu); [done|];
            eexists _, _, (p1 :: new1), (p2 :: new2)
        end
    end.
    cbn. rewrite <- !app_assoc. cbn. split_and!; try done.
    + by rewrite Hc.
    + constructor; [solve_hookPage | done].
  - case_bool_decide.
    + eexists _, _, [_], [_]. cbn. split_and!; try done.
      apply Forall_singleton; solve_hookPage.
    + match goal with
      | |- context [splitWholeBlock _ _ ?f ?t1 ?c1 ?b1 (calculatedPages v1 ++ [?p1]) ?q1 ?r] =>
          match goal with
          | |- context [splitWholeBlock _ _ f ?t2 ?c2 ?b2 (calculatedPages v2 ++ [?p2]) ?q2 r] =>
              destruct (splitWholeBlock_sim f t1 c1 b1 (calculatedPages v1 ++ [p1]) q1
                          t2 c2 b2 (calculatedPages v2 ++ [p2]) q2 r)
                as (new1 & new2 & pr1' & pr2' & rest & -> & -> & Hc & Hu); [done|];
              eexists _, _, (p1 :: new1), (p2 :: new2)
          end
      end.
      cbn. rewrite <- !app_assoc. cbn. split_and!; try done.
      * by rewrite Hc.
      * constructor; [solve_hookPage | done].
Qed.

(** A chapter marker closes the open page: nothing is left on it, and the
    pages so far hold what the final flush would have produced. *)
Lemma chapterStep_fresh v block :
  currentPageContent (chapterStep v block) = [] ∧
  ∃ new,
    calculatedPages (chapterStep v block) = calculatedPages v ++ new ∧
    content <$> new = (if truthy (currentPageContent v) then [currentPageContent v] else []) ∧
    Forall hookPage new.
Proof.
  unfold chapterStep. cbn. destruct (currentPageContent v) as [|c s] eqn:Hs; cbn.
  - split; [done|]. exists []. by rewrite app_nil_r.
  - split; [done|]. eexists [_]. split_and!; try done.
    apply Forall_singleton; solve_hookPage.
Qed.

Lemma blockStep_sim v1 v2 block :
  currentPageContent v1 = currentPageContent v2 →
  ∃ v1' v2' new1 new2,
    blockStep measureTextWidth actualMaxWidth v1 block = Some v1' ∧
    blockStep measureTextWidth actualMaxWidth v2 block = Some v2' ∧
    calculatedPages v1' = calculatedPages v1 ++ new1 ∧
    calculatedPages v2' = calculatedPages v2 ++ new2 ∧
    content <$> new1 = content <$> new2 ∧
    currentPageContent v1' = currentPageContent v2' ∧
    Forall hookPage new1.
Proof.
  intros Hcur. unfold blockStep.
  destruct (tb_type block); try by apply textStep_sim.
  destruct (chapterStep_fresh v1 block) as (Hc1 & new1 & Hp1 & Hn1 & Hu1).
  destruct (chapterStep_fresh v2 block) as (Hc2 & new2 & Hp2 & Hn2 & Hu2).
  eexists _, _, new1, new2. split_and!; try done.
  - by rewrite Hn1, Hn2, Hcur.
  - by rewrite Hc1, Hc2.
Qed.

Lemma runBlocks_sim blocks :
  ∀ v1 v2,
    currentPageContent v1 = currentPageContent v2 →
    ∃ v1' v2' new1 new2,
      runBlocks measureTextWidth actualMaxWidth v1 blocks = Some v1' ∧
      runBlocks measureTextWidth actualMaxWidth v2 blocks = Some v2' ∧
      calculatedPages v1' = calculatedPages v1 ++ new1 ∧
      calculatedPages v2' = calculatedPages v2 ++ new2 ∧
      content <$> new1 = content <$> new2 ∧
      currentPageContent v1' = currentPageContent v2' ∧
      Forall hookPage new1.
Proof.
  induction blocks as [|block blocks IH]; intros v1 v2 Hcur.
  - exists v1, v2, [], []. cbn. rewrite !app_nil_r. by split_and!.
  - destruct (blockStep_sim v1 v2 block Hcur)
      as (w1 & w2 & n1 & n2 & Hs1 & Hs2 & Hp1 & Hp2 & Hc & Hcur' & Hu).
    destruct (IH w1 w2 Hcur')
      as (v1' & v2' & m1 & m2 & Hr1 & Hr2 & Hq1 & Hq2 & Hc' & Hcur'' & Hu').
    exists v1', v2', (n1 ++ m1), (n2 ++ m2).
    cbn. rewrite Hs1, Hs2. cbn. rewrite Hr1, Hr2, Hq1, Hq2, Hp1, Hp2.
    rewrite <- !app_assoc, !fmap_app, Hc, Hc'. split_and!; try done.
    by apply Forall_app.
Qed.

Lemma runBlocks_app bs1 bs2 :
  ∀ v,
    runBlocks measureTextWidth actualMaxWidth v (bs1 ++ bs2) =
    v' ← runBlocks measureTextWidth actualMaxWidth v bs1;
    runBlocks measureTextWidth actualMaxWidth v' bs2.
Proof.
  induction bs1 as [|b bs1 IH]; intros v; [done|].
  cbn. destruct (blockStep _ _ v b) as [w|]; [|done]. cbn. apply IH.
Qed.

Lemma finalPages_contents v :
  content <$> finalPages v =
  (content <$> calculatedPages v) ++
    (if truthy (currentPageContent v) then [currentPageContent v] else []).
Proof.
  unfold finalPages. destruct (truthy (currentPageContent v)).
  - by rewrite fmap_app.
  - by rewrite app_nil_r.
Qed.

Lemma finalPages_hookPage v :
  Forall hookPage (calculatedPages v) → Forall hookPage (finalPages v).
Proof.
  intros H. unfold finalPages. destruct (truthy (currentPageContent v)); [|done].
  apply Forall_app. split; [done|]. apply Forall_singleton; solve_hookPage.
Qed.

(** Pagination of a single chapter, from the initial variables. *)
Lemma calculatePagination_single ch :
  ∃ w,
    runBlocks measureTextWidth actualMaxWidth (chapterStep initialVars (chapterMarkerOf ch))
      (textBlockOf ch <$> chapter_blocks ch) = Some w ∧
    calculatePagination measureTextWidth actualMaxWidth [ch]
      = Some (Paginated (finalPages w)).
Proof.
  destruct (runBlocks_sim (textBlockOf ch <$> chapter_blocks ch)
              (chapterStep initialVars (chapterMarkerOf ch))
              (chapterStep initialVars (chapterMarkerOf ch)) eq_refl)
    as (w & _ & _ & _ & Hw & _).
  exists w. split; [done|].
  unfold calculatePagination, paginateBlocks. cbn -[chapterStep].
  rewrite app_nil_r. by rewrite Hw.
Qed.

Lemma getStructuredBlocks_cons ch book :
  getStructuredBlocks (ch :: book) =
  (chapterMarkerOf ch :: (textBlockOf ch <$> chapter_blocks ch))
    ++ getStructuredBlocks book.
Proof. done. Qed.

Lemma runBlocks_chapterMarker v ch blocks :
  runBlocks measureTextWidth actualMaxWidth v (chapterMarkerOf ch :: blocks) =
  runBlocks measureTextWidth actualMaxWidth (chapterStep v (chapterMarkerOf ch)) blocks.
Proof. done. Qed.

(** Running the blocks of a whole book from any state: the page contents
    are those already there, followed chapter by chapter by the page
    contents of each chapter paginated alone. *)
Lemma runBlocks_book book :
  ∀ v,
    Forall hookPage (calculatedPages v) →
    ∃ v',
      runBlocks measureTextWidth actualMaxWidth v (getStructuredBlocks book) = Some v' ∧
      Forall hookPage (calculatedPages v') ∧
      content <$> finalPages v' =
        (content <$> finalPages v) ++
        (ch ← book; pageContents (calculatePagination measureTextWidth actualMaxWidth [ch])).
Proof.
  induction book as [|ch book IH]; intros v Hv.
  - exists v. cbn. by rewrite app_nil_r.
  - destruct (chapterStep_fresh v (chapterMarkerOf ch)) as (Hc1 & n1 & Hp1 & Hn1 & Hu1).
    destruct (chapterStep_fresh initialVars (chapterMarkerOf ch)) as (Hc0 & n0 & Hp0 & Hn0 & _).
    destruct (calculatePagination_single ch) as (w & Hw & Hsingle).
    destruct (runBlocks_sim (textBlockOf ch <$> chapter_blocks ch)
                (chapterStep v (chapterMarkerOf ch))
                (chapterStep initialVars (chapterMarkerOf ch)))
      as (v2 & w' & m1 & m2 & Hv2 & Hw' & Hq1 & Hq2 & Hm & Hcur & Hum);
      [by rewrite Hc1, Hc0|].
    rewrite Hw in Hw'. injection Hw' as <-.
    destruct (IH v2) as (v' & Hv' & Hu' & Hcont).
    { rewrite Hq1, Hp1. by rewrite !Forall_app. }
    exists v'. split_and!; [|done|].
    + rewrite getStructuredBlocks_cons, <- app_comm_cons, runBlocks_chapterMarker,
        runBlocks_app, Hv2. exact Hv'.
    + rewrite Hcont, bind_cons, Hsingle. unfold pageContents at 2.
      rewrite !finalPages_contents, Hq1, Hq2, Hp1, Hp0, !fmap_app, Hn1, Hn0, Hm, Hcur.
      unfold initialVars at 1 2. unfold truthy at 2. unfold calculatedPages at 2.
      unfold currentPageContent at 1.
      by rewrite <- !app_assoc.
Qed.

End PaginationFacts.

(** A book without chapters has no structured block: the hook raises its
    error and sets no page. *)
Lemma calculatePagination_empty measureTextWidth actualMaxWidth :
  calculatePagination measureTextWidth actualMaxWidth [] = Some PaginationError.
Proof. done. Qed.

(** C2 (as the code has it).  Pagination of a non-empty book ends with a
    page list; every chapter starts on a fresh page and no page mixes two
    chapters, since the page contents of the book are, chapter after chapter,
    the page contents of each chapter paginated alone; and no page carries
    [isChapterStart]: the hook passes [false] at every call of
    [enrichPageWithMetadata] and does not copy the flag to the page. *)
Theorem calculatePagination_chapters
    (measureTextWidth : jsstring → Z) (actualMaxWidth : Z)
    (ch : Chapter) (book : Book) :
  ∃ pages,
    calculatePagination measureTextWidth actualMaxWidth (ch :: book)
      = Some (Paginated pages) ∧
    Forall (λ p, isChapterStart p = None) pages ∧
    content <$> pages =
      c ← (ch :: book);
      pageContents (calculatePagination measureTextWidth actualMaxWidth [c]).
Proof.
  destruct (runBlocks_book measureTextWidth actualMaxWidth (ch :: book) initialVars)
    as (v' & Hrun & Hu & Hcont); [by constructor|].
  exists (finalPages v'). split_and!.
  - unfold calculatePagination, paginateBlocks.
    change (getStructuredBlocks (ch :: book))
      with (chapterMarkerOf ch ::
              ((textBlockOf ch <$> chapter_blocks ch) ++ getStructuredBlocks book)) in *.
    by rewrite Hrun.
  - pose proof (finalPages_hookPage v' Hu) as Hfinal.
    eapply Forall_impl; [|exact Hfinal]. by intros p [? _].
  - by rewrite Hcont.
Qed.

(** ** [TextMeasurer.fitTextToPage] *)

Lemma getPageCapacity_lines tm :
  0 < TextMeasurer.totalCharacters (TextMeasurer.getPageCapacity tm) →
  0 < TextMeasurer.linesPerPage (TextMeasurer.getPageCapacity tm).
Proof.
  unfold TextMeasurer.getPageCapacity.
  destruct (_ || _); cbn; [lia|]. intros H. nia.
Qed.

(** [fitTextToPage] cuts its text at some point: a zero point when there
    is no capacity or no text, and a point after the first character when
    there are both. *)
Lemma fitTextToPage_cut (tm : TextMeasurer.t) (text : jsstring) :
  ∃ k : nat,
    TextMeasurer.fitTextToPage tm text = (take k text, drop k text) ∧
    (TextMeasurer.totalCharacters (TextMeasurer.getPageCapacity tm) ≤ 0 ∨ text = [] →
       k = 0%nat) ∧
    (0 < TextMeasurer.totalCharacters (TextMeasurer.getPageCapacity tm) → text ≠ [] →
       (1 ≤ k)%nat).
Proof.
  unfold TextMeasurer.fitTextToPage.
  pose proof (getPageCapacity_lines tm) as Hlines.
  destruct (Z.leb_spec (TextMeasurer.totalCharacters (TextMeasurer.getPageCapacity tm)) 0)
    as [Htot|Htot].
  { rewrite orb_true_r. cbn. exists 0%nat. split_and!; [done | done | lia]. }
  destruct (Z.leb_spec (TextMeasurer.linesPerPage (TextMeasurer.getPageCapacity tm)) 0);
    [lia|].
  destruct text as [|c text].
  { cbn. exists 0%nat. by split_and!. }
  cbn [truthy negb orb].
  destruct (Z.leb_spec (Z.of_nat (length (c :: text)))
              (TextMeasurer.totalCharacters (TextMeasurer.getPageCapacity tm))).
  { exists (length (c :: text)). rewrite take_ge, drop_ge by done.
    split_and!; [done | intros [?|?]; [lia|done] | cbn; lia]. }
  cbv zeta.
  set (cutPoint := Z.min _ _).
  set (finalCutPoint := if 0 <? _ then _ else _).
  assert (Hfinal : 1 ≤ finalCutPoint).
  { unfold finalCutPoint. destruct (Z.ltb_spec 0 (TextMeasurer.scanForCut (c :: text)
      cutPoint (Z.to_nat cutPoint) cutPoint)); lia. }
  exists (Z.to_nat finalCutPoint). split_and!; [done | intros [?|?]; [lia|done] | lia].
Qed.

(** C9.  [fitTextToPage] splits its text in two: the fitted text followed by
    the remaining text is the text; nothing is fitted when the capacity is
    not positive or the text is empty; and when the capacity is positive and
    the text is not empty, the fitted text is not empty. *)
Theorem fitTextToPage_split (tm : TextMeasurer.t) (text : jsstring) :
  (TextMeasurer.fitTextToPage tm text).1 ++ (TextMeasurer.fitTextToPage tm text).2 = text ∧
  (TextMeasurer.totalCharacters (TextMeasurer.getPageCapacity tm) ≤ 0 ∨ text = [] →
     TextMeasurer.fitTextToPage tm text = ([], text)) ∧
  (0 < TextMeasurer.totalCharacters (TextMeasurer.getPageCapacity tm) → text ≠ [] →
     (TextMeasurer.fitTextToPage tm text).1 ≠ []).
Proof.
  destruct (fitTextToPage_cut tm text) as (k & -> & Hzero & Hpos).
  cbn [fst snd]. split_and!.
  - apply take_drop.
  - intros Hcase. by rewrite (Hzero Hcase).
  - intros Hcap Hne Hnil. specialize (Hpos Hcap Hne).
    destruct text as [|c text]; [done|].
    destruct k as [|k]; [lia | done].
Qed.

Lemma fitTextToPage_split_witness :
  TextMeasurer.totalCharacters (TextMeasurer.getPageCapacity sampleMeasurer) = 20 ∧
  (TextMeasurer.fitTextToPage sampleMeasurer (replicate 30 97%N)).1 ≠ [].
Proof.
  split; [by vm_compute|].
  apply (fitTextToPage_split sampleMeasurer (replicate 30 97%N)).
  - by vm_compute.
  - done.
Defined.

(** ** [PaginationCalculator.splitLargeBlock] *)

Lemma splitLargeBlock_loop_spec tm chapter block fuel :
  ∀ remainingText characterStart pageId,
    (length remainingText ≤ fuel)%nat →
    ∃ pages,
      PaginationCalculator.splitLargeBlock_loop fuel tm chapter block remainingText
        characterStart pageId = Some pages ∧
      concat (pageText <$> pages) = remainingText ∧
      (length pages ≤ length remainingText)%nat ∧
      Forall splitPage pages ∧
      (TextMeasurer.totalCharacters (TextMeasurer.getPageCapacity tm) ≤ 0 →
         Forall (λ p, PaginationCalculator.totalCharacters p = 1) pages).
Proof.
  induction fuel as [|fuel IH]; intros rem start pid Hfuel.
  - cbn. rewrite bool_decide_eq_false_2 by lia.
    destruct rem; [|cbn in Hfuel; lia]. exists []. by split_and!.
  - cbn -[TextMeasurer.fitTextToPage]. case_bool_decide as Hlen.
    2: { destruct rem; [|cbn in Hlen; lia]. exists []. by split_and!. }
    destruct (fitTextToPage_cut tm rem) as (k & -> & Hzero & Hpos).
    case_bool_decide as Hf.
    + destruct (IH (drop 1 rem) (start + 1) (pid + 1))
        as (pages & -> & Hc & Hl & Hs & Hone); [rewrite length_drop; lia|].
      assert (Hone' : length (take 1 rem) = 1%nat) by (rewrite length_take; lia).
      rewrite length_drop in Hl.
      cbn [mbind option_bind]. eexists. split; [done|].
      rewrite fmap_cons. cbn [concat length]. rewrite Hc. unfold pageText.
      cbn [PaginationCalculator.content concat].
      rewrite app_nil_r, take_drop. split_and!; [done | lia | | ].
      * constructor; [|done]. exists (take 1 rem). split_and!; [done | | by rewrite Hone'].
        intros Hnil. by rewrite Hnil in Hone'.
      * intros ?. constructor; [done|]. by apply Hone.
    + rewrite length_take in Hf.
      assert (Hk : (1 ≤ k `min` length rem)%nat) by lia.
      assert (Hfit : length (take k rem) = (k `min` length rem)%nat)
        by apply length_take.
      destruct (IH (drop k rem) (start + Z.of_nat (length (take k rem))) (pid + 1))
        as (pages & -> & Hc & Hl & Hs & Hone); [rewrite length_drop; lia|].
      rewrite length_drop in Hl.
      cbn [mbind option_bind]. eexists. split; [done|].
      rewrite fmap_cons. cbn [concat length]. rewrite Hc. unfold pageText.
      cbn [PaginationCalculator.content concat].
      rewrite app_nil_r, take_drop. split_and!; [done | lia | | ].
      * constructor; [|done]. exists (take k rem). split_and!; [done | | done].
        intros Hnil. rewrite Hnil in Hfit. cbn in Hfit. lia.
      * intros Hz. specialize (Hzero (or_introl Hz)). lia.
Qed.

(** The splitting loop of [PaginationCalculator]: [splitLargeBlock] ends
    for every block and every measurer.  It returns a finite list of pages,
    at most one per character, each holding
    a non-empty piece of the text (a single character on every page when
    [fitTextToPage] fits nothing), and the pieces, in order, make up the
    whole block text. *)
Theorem splitLargeBlock_terminates
    (tm : TextMeasurer.t) (chapter : Chapter) (block : Block) (startPageId : Z) :
  ∃ pages,
    PaginationCalculator.splitLargeBlock tm chapter block startPageId = Some pages ∧
    concat (pageText <$> pages) = block_text block ∧
    (length pages ≤ length (block_text block))%nat ∧
    Forall splitPage pages ∧
    (TextMeasurer.totalCharacters (TextMeasurer.getPageCapacity tm) ≤ 0 →
       Forall (λ p, PaginationCalculator.totalCharacters p = 1) pages).
Proof.
  unfold PaginationCalculator.splitLargeBlock.
  by apply splitLargeBlock_loop_spec.
Qed.

Lemma splitLargeBlock_terminates_witness :
  ∃ pages,
    PaginationCalculator.splitLargeBlock zeroWidthMeasurer sampleChapter
      {| block_id := 1; block_type := paragraph; block_text := [97; 98; 99]%N |} 1
      = Some pages ∧
    Forall (λ p, PaginationCalculator.totalCharacters p = 1) pages.
Proof.
  destruct (splitLargeBlock_terminates zeroWidthMeasurer sampleChapter
              {| block_id := 1; block_type := paragraph; block_text := [97; 98; 99]%N |} 1)
    as (pages & Hp & _ & _ & _ & Hone).
  exists pages. split; [exact Hp|]. apply Hone. by vm_compute.
Defined.

(** ** [PaginationCalculator.calculatePages] *)

Lemma pagesText_app ps qs : pagesText (ps ++ qs) = pagesText ps ++ pagesText qs.
Proof. unfold pagesText. by rewrite fmap_app, concat_app. Qed.

Lemma calc_blockStep_text tm capacity chapter v blockIndex block :
  ∃ v',
    PaginationCalculator.blockStep tm capacity chapter v blockIndex block = Some v' ∧
    pagesText (PaginationCalculator.pages v') ++
      concat (PaginationCalculator.currentPageContent v') =
    (pagesText (PaginationCalculator.pages v) ++
       concat (PaginationCalculator.currentPageContent v)) ++ block_text block.
Proof.
  unfold PaginationCalculator.blockStep.
  destruct (_ <=? capacity).
  { eexists. split; [done|]. cbn. rewrite concat_app. cbn.
    by rewrite app_nil_r, app_assoc. }
  assert (Hflush :
    pagesText (if bool_decide (0 < length (PaginationCalculator.currentPageContent v))%nat
               then PaginationCalculator.pages v ++ [PaginationCalculator.openPage chapter v]
               else PaginationCalculator.pages v) =
    pagesText (PaginationCalculator.pages v) ++
      concat (PaginationCalculator.currentPageContent v)).
  { case_bool_decide as Hc.
    - rewrite pagesText_app. unfold pagesText at 2. cbn. by rewrite app_nil_r.
    - destruct (PaginationCalculator.currentPageContent v); [|cbn in Hc; lia].
      cbn. by rewrite app_nil_r. }
  destruct (capacity <? _).
  - unfold PaginationCalculator.splitLargeBlock.
    destruct (splitLargeBlock_loop_spec tm (chapter_id chapter) (block_id block)
                (length (block_text block)) (block_text block) 0
                (if bool_decide (0 < length (PaginationCalculator.currentPageContent v))%nat
                 then PaginationCalculator.pageId v + 1 else PaginationCalculator.pageId v))
      as (split & -> & Hsplit & _); [done|].
    eexists. split; [done|]. cbn -[pagesText].
    rewrite pagesText_app, Hflush, app_nil_r. unfold pagesText at 2. by rewrite Hsplit.
  - eexists. split; [done|]. cbn -[pagesText]. by rewrite Hflush, app_nil_r.
Qed.

Lemma calc_blocksLoop_text tm capacity chapter blocks :
  ∀ v blockIndex,
    ∃ v',
      PaginationCalculator.blocksLoop tm capacity chapter v blockIndex blocks = Some v' ∧
      pagesText (PaginationCalculator.pages v') ++
        concat (PaginationCalculator.currentPageContent v') =
      (pagesText (PaginationCalculator.pages v) ++
         concat (PaginationCalculator.currentPageContent v)) ++
        (b ← blocks; block_text b).
Proof.
  induction blocks as [|block blocks IH]; intros v blockIndex.
  - exists v. cbn. by rewrite app_nil_r.
  - destruct (calc_blockStep_text tm capacity chapter v blockIndex block) as (w & Hw & Hwt).
    destruct (IH w (S blockIndex)) as (v' & Hv' & Hvt).
    exists v'. cbn. rewrite Hw. cbn. split; [done|].
    by rewrite Hvt, Hwt, <- !app_assoc.
Qed.

Lemma calc_chaptersLoop_text tm capacity chapters :
  ∀ acc,
    ∃ acc',
      PaginationCalculator.chaptersLoop tm capacity acc chapters = Some acc' ∧
      pagesText acc'.1 = pagesText acc.1 ++ bookText chapters.
Proof.
  induction chapters as [|chapter chapters IH]; intros acc.
  - exists acc. cbn. by rewrite app_nil_r.
  - cbn -[pagesText]. unfold PaginationCalculator.chapterStep.
    match goal with
    | |- context [PaginationCalculator.blocksLoop tm capacity chapter ?v0 0 _] =>
        destruct (calc_blocksLoop_text tm capacity chapter (chapter_blocks chapter) v0 0%nat)
          as (v & -> & Hv)
    end.
    cbn -[pagesText] in *. rewrite app_nil_r in Hv.
    match goal with
    | |- context [(if ?c then Some ?x else Some ?y) ≫= _] =>
        assert (Hacc : ∃ acc1, (if c then Some x else Some y) = Some acc1 ∧
                   pagesText acc1.1 =
                   pagesText acc.1 ++ (blk ← chapter_blocks chapter; block_text blk))
    end.
    { case_bool_decide as Hc; eexists; (split; [done|]); cbn -[pagesText].
      - rewrite pagesText_app, <- Hv. unfold pagesText at 2. cbn.
        by rewrite app_nil_r.
      - destruct (PaginationCalculator.currentPageContent v); [|cbn in Hc; lia].
        cbn in Hv. by rewrite app_nil_r in Hv. }
    destruct Hacc as (acc1 & -> & Hacc1).
    destruct (IH acc1) as (acc' & Hacc' & Ht).
    exists acc'. cbn -[pagesText]. split; [done|].
    rewrite Ht, Hacc1. unfold bookText. cbn. by rewrite <- app_assoc.
Qed.

(** [calculatePages] ends for every measurer and every book, and its pages
    hold the whole text of the book in order. *)
Lemma calculatePages_coverage tm book :
  ∃ pages,
    PaginationCalculator.calculatePages tm book = Some pages ∧
    pagesText pages = bookText book.
Proof.
  unfold PaginationCalculator.calculatePages.
  destruct (calc_chaptersLoop_text tm (PaginationCalculator.effectiveCapacity tm) book ([], 1))
    as (acc & -> & Hacc).
  exists acc.1. by split.
Qed.

(** C5 (as the code has it).  With an invalid geometry (width or height zero
    or negative) [getPageCapacity] reports a capacity of zero;
    [calculatePages] then takes 1000 characters as page capacity, raises no
    error and returns a page list that holds the whole text of the book. *)
Theorem calculatePages_invalid_geometry (tm : TextMeasurer.t) (book : Book) :
  (TextMeasurer.containerWidth tm <= 0)%Q ∨ (TextMeasurer.containerHeight tm <= 0)%Q →
  TextMeasurer.getPageCapacity tm =
    {| TextMeasurer.charactersPerLine := 0; TextMeasurer.linesPerPage := 0;
       TextMeasurer.totalCharacters := 0 |} ∧
  PaginationCalculator.effectiveCapacity tm = 1000 ∧
  ∃ pages,
    PaginationCalculator.calculatePages tm book = Some pages ∧
    pagesText pages = bookText book.
Proof.
  intros Hbad.
  assert (Hcap : TextMeasurer.getPageCapacity tm =
    {| TextMeasurer.charactersPerLine := 0; TextMeasurer.linesPerPage := 0;
       TextMeasurer.totalCharacters := 0 |}).
  { unfold TextMeasurer.getPageCapacity.
    destruct Hbad as [H|H]; apply Qle_bool_iff in H; rewrite H; [done|].
    by rewrite orb_true_r. }
  split_and!; [done | | apply calculatePages_coverage].
  unfold PaginationCalculator.effectiveCapacity. by rewrite Hcap.
Qed.

Lemma calculatePages_invalid_geometry_witness :
  TextMeasurer.getPageCapacity zeroWidthMeasurer =
    {| TextMeasurer.charactersPerLine := 0; TextMeasurer.linesPerPage := 0;
       TextMeasurer.totalCharacters := 0 |} ∧
  PaginationCalculator.effectiveCapacity zeroWidthMeasurer = 1000 ∧
  ∃ pages,
    PaginationCalculator.calculatePages zeroWidthMeasurer [sampleChapter] = Some pages ∧
    pagesText pages = bookText [sampleChapter].
Proof.
  apply (calculatePages_invalid_geometry zeroWidthMeasurer [sampleChapter]).
  left. by vm_compute.
Defined.

(** C5 as stated fails: with a container of width 0 the calculator does not
    fail; it takes the capacity 1000 and returns one page with the block. *)
Lemma calculatePages_invalid_geometry_counterexample :
  (TextMeasurer.containerWidth zeroWidthMeasurer <= 0)%Q ∧
  PaginationCalculator.effectiveCapacity zeroWidthMeasurer = 1000 ∧
  PaginationCalculator.calculatePages zeroWidthMeasurer [sampleChapter] =
    Some [ {| PaginationCalculator.id := 1;
              PaginationCalculator.position :=
                {| PaginationCalculator.chapterId := 1;
                   PaginationCalculator.blockId := 1;
                   PaginationCalculator.characterStart := 0;
                   PaginationCalculator.characterEnd := 3 |};
              PaginationCalculator.content := [[97; 98; 99]%N];
              PaginationCalculator.totalCharacters := 3 |} ].
Proof. split_and!; by vm_compute. Qed.

(** ** The position resolver *)

Lemma calculatePagination_hookPages measureTextWidth actualMaxWidth book pages :
  calculatePagination measureTextWidth actualMaxWidth book = Some (Paginated pages) →
  Forall hookPage pages.
Proof.
  destruct book as [|ch book]; [done|].
  destruct (runBlocks_book measureTextWidth actualMaxWidth (ch :: book) initialVars)
    as (v' & Hrun & Hu & _); [by constructor|].
  unfold calculatePagination, paginateBlocks.
  rewrite getStructuredBlocks_cons in *. rewrite <- app_comm_cons in *.
  rewrite Hrun. cbn. intros [= <-]. by apply finalPages_hookPage.
Qed.

(** [findPageByBlockId] returns the first page that lists the block. *)
Lemma findPageByBlockId_from_first pages target :
  ∀ k (i : nat) p,
    pages !! i = Some p → pageHasBlock target p = true →
    ∃ r,
      findPageByBlockId_from k pages target = Some r ∧
      exactMatch r = true ∧
      (k ≤ pageIndex r ≤ k + i)%nat ∧
      pages !! (pageIndex r - k)%nat = Some (page r) ∧
      pageHasBlock target (page r) = true ∧
      (∀ j q, (j < pageIndex r - k)%nat → pages !! j = Some q →
         pageHasBlock target q = false).
Proof.
  induction pages as [|a pages IH]; intros k i p Hi Hp; [done|].
  cbn. destruct (pageHasBlock target a) eqn:Ha.
  - eexists. split; [done|]. cbn. rewrite Nat.sub_diag. cbn.
    split_and!; try done; try lia.
  - destruct i as [|i]; cbn in Hi; [simplify_eq; congruence|].
    destruct (IH (S k) i p Hi Hp) as (r & Hr & He & Hidx & Hl & Hh & Hfirst).
    exists r. split_and!; try done; try lia.
    + replace (pageIndex r - k)%nat with (S (pageIndex r - S k)) by lia. done.
    + intros j q Hj Hq. destruct j as [|j]; cbn in Hq; [by simplify_eq|].
      apply (Hfirst j q); [lia | done].
Qed.

(** C8 (as the code has it).  For a page carrying metadata whose chapter id
    is not zero and whose first block id exists and is not zero,
    [getContentPositionFromPage] returns the position made of the page's
    chapter id, its [startBlockId] (the first block id when [startBlockId] is
    missing or zero) and the requested offset clamped by 0 and
    [content.length - 1]; for any other page it returns [null]. *)
Theorem getContentPositionFromPage_spec (p : PageData) (characterOffset : Z)
    (m : PageMetadata) :
  metadata p = Some m →
  (∀ b0, chapterId m ≠ 0%N → blockIds m !! 0%nat = Some b0 → b0 ≠ 0%N →
     ∃ pos,
       getContentPositionFromPage p characterOffset = Some pos ∧
       pos_chapterId pos = chapterId m ∧
       (∀ s, startBlockId m = Some s → s ≠ 0%N → pos_blockId pos = s) ∧
       (startBlockId m = None ∨ startBlockId m = Some 0%N → pos_blockId pos = b0) ∧
       pos_characterOffset pos =
         Z.max 0 (Z.min characterOffset (Z.of_nat (length (content p)) - 1))) ∧
  (chapterId m = 0%N ∨ blockIds m !! 0%nat = None ∨ blockIds m !! 0%nat = Some 0%N →
     getContentPositionFromPage p characterOffset = None).
Proof.
  intros Hm. unfold getContentPositionFromPage. rewrite Hm. split.
  - intros b0 Hc Hb Hb0. unfold truthyN.
    rewrite (proj2 (N.eqb_neq _ _) Hc), Hb, (proj2 (N.eqb_neq _ _) Hb0). cbn.
    eexists. split; [done|]. cbn. unfold orElseN, truthyN. split_and!; try done.
    + intros s -> Hs. by rewrite (proj2 (N.eqb_neq _ _) Hs).
    + by intros [-> | ->].
  - unfold truthyN. intros [-> | [-> | ->]]; [done | |].
    + by destruct (negb _).
    + by destruct (negb (negb _)).
Qed.

Lemma getContentPositionFromPage_spec_witness :
  ∃ pos,
    getContentPositionFromPage samplePage 7 = Some pos ∧
    pos_chapterId pos = 1%N ∧ pos_blockId pos = 4%N ∧ pos_characterOffset pos = 2.
Proof.
  destruct (getContentPositionFromPage_spec samplePage 7
              {| chapterId := 1; blockIds := [4; 5]%N; startBlockId := Some 4%N;
                 endBlockId := Some 5%N; endBlockCharacterOffset := None;
                 characterRange := Some {| range_start := 0; range_end := 2 |} |}
              eq_refl) as [H _].
  destruct (H 4%N) as (pos & Hpos & Hc & Hs & _ & Ho); [done | done | done |].
  exists pos. split_and!; [done | done | by apply Hs | done].
Defined.

(** C8 as stated fails: a page with metadata whose only block has id 0 gets
    no position at all. *)
Lemma getContentPositionFromPage_counterexample :
  metadata (pushedPage (enrichPageWithMetadata [97]%N None 1 [0%N] false false None) false)
    ≠ None ∧
  getContentPositionFromPage
    (pushedPage (enrichPageWithMetadata [97]%N None 1 [0%N] false false None) false) 0
    = None.
Proof. by split. Qed.

(** C7 (as the code has it).  For a page list produced by the hook and a
    page [p] of it that has a position, looking that position up again
    succeeds through the exact-match path and returns the first page that
    lists the start block of [p]; its index is at most the index of [p], and
    it is the index of [p] exactly when no earlier page lists that block. *)
Theorem position_round_trip
    (measureTextWidth : jsstring → Z) (actualMaxWidth : Z) (book : Book)
    (pages : list PageData) (i : nat) (p : PageData) (characterOffset : Z)
    (pos : ContentPosition) :
  calculatePagination measureTextWidth actualMaxWidth book = Some (Paginated pages) →
  pages !! i = Some p →
  getContentPositionFromPage p characterOffset = Some pos →
  ∃ r,
    findNearestPageToPosition pages pos = Some r ∧
    exactMatch r = true ∧
    (pageIndex r ≤ i)%nat ∧
    pages !! pageIndex r = Some (page r) ∧
    pageHasBlock (pos_blockId pos) (page r) = true ∧
    (∀ j q, (j < pageIndex r)%nat → pages !! j = Some q →
       pageHasBlock (pos_blockId pos) q = false) ∧
    (pageIndex r = i ↔
       ∀ j q, (j < i)%nat → pages !! j = Some q →
         pageHasBlock (pos_blockId pos) q = false).
Proof.
  intros Hpag Hi Hpos.
  assert (Hhook : hookPage p).
  { apply calculatePagination_hookPages in Hpag.
    rewrite Forall_lookup in Hpag. by apply (Hpag i). }
  destruct Hhook as (_ & m & Hm & Hstart).
  assert (Hhas : pageHasBlock (pos_blockId pos) p = true).
  { unfold getContentPositionFromPage in Hpos. rewrite Hm in Hpos.
    destruct (negb (truthyN (chapterId m))); [done|].
    destruct (blockIds m !! 0%nat) as [b0|] eqn:Hb0; [|done].
    destruct (negb (truthyN b0)) eqn:Ht; [done|].
    injection Hpos as <-. cbn. rewrite Hstart. unfold orElseN.
    apply negb_false_iff in Ht. rewrite Ht.
    unfold pageHasBlock, includes. rewrite Hm.
    apply bool_decide_eq_true_2. by eapply list_elem_of_lookup_2. }
  destruct (findPageByBlockId_from_first pages (pos_blockId pos) 0%nat i p Hi Hhas)
    as (r & Hr & He & Hidx & Hl & Hh & Hfirst).
  rewrite Nat.sub_0_r in Hl.
  exists r. unfold findNearestPageToPosition, findPageByBlockId. rewrite Hr.
  split_and!; try done; try lia.
  - intros j q Hj. apply Hfirst. lia.
  - split.
    + intros <- j q Hj. apply Hfirst. lia.
    + intros Hnone. destruct (decide (pageIndex r = i)) as [|Hne]; [done|].
      assert (Hlt : (pageIndex r < i)%nat) by lia.
      specialize (Hnone _ _ Hlt Hl). congruence.
Qed.

Lemma position_round_trip_witness :
  ∃ r,
    findNearestPageToPosition twoChapterPages
      {| pos_chapterId := 1; pos_blockId := 1; pos_characterOffset := 0 |} = Some r ∧
    exactMatch r = true ∧ pageIndex r = 0%nat.
Proof.
  destruct (position_round_trip lengthWidth 100 twoChapterBook twoChapterPages 0%nat
              (pushedPage (enrichPageWithMetadata [97; 98]%N (Some [49]%N) 1 [1%N]
                             false true (Some 2%nat)) true)
              0 {| pos_chapterId := 1; pos_blockId := 1; pos_characterOffset := 0 |})
    as (r & Hr & He & Hle & _); [by vm_compute | by vm_compute | by vm_compute |].
  exists r. split_and!; [done | done | lia].
Defined.

(** C7 as stated fails: the page of the second chapter resolves to the page
    of the first one, which lists a block with the same id. *)
Lemma position_round_trip_counterexample :
  calculatePagination lengthWidth 100 twoChapterBook = Some (Paginated twoChapterPages) ∧
  ¬ (∀ (i : nat) p pos r,
       twoChapterPages !! i = Some p →
       getContentPositionFromPage p 0 = Some pos →
       findNearestPageToPosition twoChapterPages pos = Some r →
       pageIndex r = i).
Proof.
  split; [by vm_compute|]. intros H.
  specialize (H 1%nat
    (pushedPage (enrichPageWithMetadata [99; 100]%N (Some [50]%N) 2 [1%N]
                   false false (Some 2%nat)) false)
    {| pos_chapterId := 2; pos_blockId := 1; pos_characterOffset := 0 |}
    {| pageIndex := 0;
       page := pushedPage (enrichPageWithMetadata [97; 98]%N (Some [49]%N) 1 [1%N]
                             false true (Some 2%nat)) true;
       exactMatch := true |}).
  by specialize (H eq_refl eq_refl eq_refl).
Qed.

(** C2 as stated fails: the first page of the first chapter does not have
    [isChapterStart = true]. *)
Lemma calculatePagination_chapters_counterexample :
  calculatePagination lengthWidth 100 twoChapterBook = Some (Paginated twoChapterPages) ∧
  ¬ (∃ p, twoChapterPages !! 0%nat = Some p ∧ isChapterStart p = Some true).
Proof.
  split; [by vm_compute|]. intros (p & Hp & Hs).
  vm_compute in Hp. injection Hp as <-. done.
Qed.

(** ** [PaginationCalculator.findPageByPosition] *)

Lemma positionMatches_spec chapter block characterPosition page :
  PaginationCalculator.positionMatches chapter block characterPosition page = true ↔
  PaginationCalculator.chapterId (PaginationCalculator.position page) = chapter ∧
  PaginationCalculator.blockId (PaginationCalculator.position page) = block ∧
  PaginationCalculator.characterStart (PaginationCalculator.position page)
    ≤ characterPosition
    < PaginationCalculator.characterEnd (PaginationCalculator.position page).
Proof.
  unfold PaginationCalculator.positionMatches.
  rewrite !andb_true_iff, !N.eqb_eq, Z.leb_le, Z.ltb_lt. tauto.
Qed.





(** ** Coverage of the hook's pagination *)

(** C1 at a failing input.  On a page 5 pixels wide the second block does
    not fit after the first; its first character does, and is put on the
    page.  The rest, W, overflows an empty page, [findFittingText] fits
    nothing of it, and the loop on the remaining content is left with its
    [break]: W is on no page, whereas the loop of the other branch keeps what
    is left as the content of the open page. *)
Theorem calculatePagination_drops_remainder :
  pageContents (calculatePagination glyphWidth 5 wideGlyphBook) = [[97; NEWLINE; 97]%N] ∧
  bookText wideGlyphBook = [97; 97; 87]%N ∧
  (87%N ∉ concat (pageContents (calculatePagination glyphWidth 5 wideGlyphBook))) ∧
  splitRemaining glyphWidth 5 1 None 1 2 [] 0 [87]%N
    = Some {| sv_pages := []; sv_processed := 0; sv_rest := [] |} ∧
  splitWholeBlock glyphWidth 5 1 None 1 2 [] 0 [87]%N
    = Some {| sv_pages := []; sv_processed := 0; sv_rest := [87]%N |}.
Proof.
  split_and!; try by vm_compute.
  vm_compute. intros H.
  repeat (apply elem_of_cons in H; destruct H as [H|H]; [done|]).
  by apply elem_of_nil in H.
Qed.

Section HookCoverage.
Variable measureTextWidth : jsstring → Z.
Variable actualMaxWidth : Z.

(** The search stops at a boundary: the prefix one character longer than
    the one returned overflows (or there is none). *)
Lemma findFittingText_loop_boundary fuel text maxWidth baseContent separator :
  ∀ left right result,
    0 ≤ left → left ≤ right + 1 → right ≤ Z.of_nat (length text) →
    (Z.to_nat (right + 1 - left) ≤ fuel)%nat →
    result = take (Z.to_nat (left - 1)) text →
    (right < Z.of_nat (length text) →
       maxWidth
         < prefixWidth measureTextWidth text baseContent separator (Z.to_nat (right + 1))) →
    ∃ n : Z, -1 ≤ n ≤ Z.of_nat (length text) ∧
      findFittingText_loop measureTextWidth fuel text maxWidth baseContent
        separator left right result = Some (take (Z.to_nat n) text) ∧
      (n < Z.of_nat (length text) →
         maxWidth < prefixWidth measureTextWidth text baseContent separator (Z.to_nat (n + 1))).
Proof.
  induction fuel as [|fuel IH]; intros left right result Hl Hlr Hr Hfuel Hres Hover.
  - cbn. rewrite bool_decide_eq_false_2 by lia.
    exists (left - 1). subst result. split_and!; [lia | lia | done |].
    intros ?. replace (left - 1 + 1) with (right + 1) by lia. apply Hover. lia.
  - cbn. case_bool_decide as Hle.
    + assert (Hmid : left ≤ (left + right) `div` 2 ≤ right)
        by (split; [apply Z.div_le_lower_bound | apply Z.div_le_upper_bound]; lia).
      set (mid := (left + right) `div` 2) in *.
      case_bool_decide as Hw.
      * apply IH; try lia; try done. f_equal. lia.
      * apply IH; try lia; try done. intros _.
        replace (mid - 1 + 1) with mid by lia.
        unfold prefixWidth. lia.
    + exists (left - 1). subst result. split_and!; [lia | lia | done |].
      intros ?. replace (left - 1 + 1) with (right + 1) by lia. apply Hover. lia.
Qed.

Hypothesis emptyFits : measureTextWidth [] ≤ actualMaxWidth.
Hypothesis glyphsFit : ∀ c, measureTextWidth [c] ≤ actualMaxWidth.

(** On an empty page something of a non-empty text always fits. *)
Lemma findFittingText_progress text :
  text ≠ [] →
  ∃ n, (1 ≤ n ≤ length text)%nat ∧
    findFittingText measureTextWidth text actualMaxWidth [] [] = Some (take n text).
Proof.
  intros Hne.
  destruct (findFittingText_loop_boundary (S (length text)) text actualMaxWidth [] []
              0 (Z.of_nat (length text)) [])
    as (n & Hn & Hloop & Hover); try lia; try done.
  assert (Hlen : (0 < length text)%nat) by (destruct text; [done | cbn; lia]).
  assert (1 ≤ n).
  { destruct (decide (1 ≤ n)) as [|Hsmall]; [done|].
    assert (Hcases : n = -1 ∨ n = 0) by lia.
    specialize (Hover ltac:(lia)). unfold prefixWidth in Hover. cbn in Hover.
    destruct Hcases as [-> | ->].
    - change (Z.to_nat (-1 + 1)) with 0%nat in Hover. rewrite take_0 in Hover. lia.
    - destruct text as [|c text]; [done|].
      change (Z.to_nat (0 + 1)) with 1%nat in Hover. cbn in Hover.
      rewrite take_0 in Hover. specialize (glyphsFit c). lia. }
  exists (kinsokuLength text (Z.to_nat n)).
  unfold findFittingText, findFittingText_search. rewrite Hloop. cbn.
  rewrite kinsokuAdjust_take by lia.
  pose proof (kinsokuLength_le text (Z.to_nat n)).
  split; [|done]. split; [|lia].
  unfold kinsokuLength. destruct (text !! Z.to_nat n); [|lia].
  destruct (isLeadingProhibited _); cbn; [|lia].
  case_bool_decide; lia.
Qed.

Lemma splitRemaining_laidOut fuel :
  ∀ title chapter blockId pages processed rem sv,
    splitRemaining measureTextWidth actualMaxWidth fuel title chapter blockId
      pages processed rem = Some sv →
    concat (content <$> sv_pages sv) ++ sv_rest sv = concat (content <$> pages) ++ rem.
Proof.
  induction fuel as [|fuel IH]; intros title chapter blockId pages processed rem sv.
  - cbn. case_bool_decide as Hlen; [done|]. intros [= <-]. cbn.
    destruct rem; [done | cbn in Hlen; lia].
  - cbn -[findFittingText]. case_bool_decide as Hlen.
    2: { intros [= <-]. cbn. destruct rem; [done | cbn in Hlen; lia]. }
    case_bool_decide; [by intros [= <-]|].
    destruct (findFittingText_progress rem) as (n & Hn & ->);
      [by destruct rem; [cbn in Hlen; lia|]|].
    cbn. rewrite length_take, Nat.min_l by lia.
    rewrite bool_decide_eq_true_2 by lia.
    intros Hsv. apply IH in Hsv. rewrite Hsv, fmap_app, concat_app. cbn.
    by rewrite app_nil_r, <- app_assoc, take_drop.
Qed.

Lemma splitWholeBlock_laidOut fuel :
  ∀ title chapter blockId pages processed rem sv,
    splitWholeBlock measureTextWidth actualMaxWidth fuel title chapter blockId
      pages processed rem = Some sv →
    concat (content <$> sv_pages sv) ++ sv_rest sv = concat (content <$> pages) ++ rem.
Proof.
  induction fuel as [|fuel IH]; intros title chapter blockId pages processed rem sv.
  - cbn. case_bool_decide as Hlen; [done|]. by intros [= <-].
  - cbn -[findFittingText]. case_bool_decide as Hlen; [|by intros [= <-]].
    destruct (findFittingText_progress rem) as (n & Hn & ->);
      [by destruct rem; [cbn in Hlen; lia|]|].
    cbn. rewrite length_take, Nat.min_l by lia.
    rewrite bool_decide_eq_true_2 by lia.
    intros Hsv. apply IH in Hsv. rewrite Hsv, fmap_app, concat_app. cbn.
    by rewrite app_nil_r, <- app_assoc, take_drop.
Qed.

Lemma withoutNewlines_app s t :
  withoutNewlines (s ++ t) = withoutNewlines s ++ withoutNewlines t.
Proof. apply list.filter_app. Qed.

Lemma textStep_laidOut v block v' :
  tb_type block ≠ tb_chapter →
  textStep measureTextWidth actualMaxWidth v block = Some v' →
  withoutNewlines (laidOut v') =
  withoutNewlines (laidOut v) ++ withoutNewlines (blockContentOf block).
Proof.
  intros Htype. unfold textStep.
  assert (Hbc : match tb_type block with
                | tb_paragraph => IDEOGRAPHIC_SPACE :: tb_content block
                | _ => tb_content block
                end = blockContentOf block)
    by (unfold blockContentOf; by destruct (tb_type block)).
  rewrite Hbc.
  set (separator := if truthy (currentPageContent v) then [NEWLINE] else []).
  assert (Hsep : withoutNewlines separator = [])
    by (unfold separator; by destruct (truthy _)).
  destruct (bool_decide (actualMaxWidth < _) && truthy (currentPageContent v)).
  2: { intros [= <-]. unfold laidOut. cbn.
       rewrite !withoutNewlines_app, Hsep. by rewrite app_nil_r, <- !app_assoc. }
  destruct (findFittingText_prefix measureTextWidth (blockContentOf block) actualMaxWidth
              (currentPageContent v) separator) as (n & Hn & ->).
  cbn -[splitRemaining splitWholeBlock]. rewrite length_take, Nat.min_l by done.
  case_bool_decide.
  - destruct (splitRemaining _ _ _ _ _ _ _ _ _) as [sv|] eqn:Hsv; [|done].
    intros [= <-]. apply splitRemaining_laidOut in Hsv.
    unfold laidOut. cbn. rewrite Hsv, fmap_app, concat_app. cbn.
    rewrite app_nil_r, <- !app_assoc, take_drop.
    rewrite !withoutNewlines_app, Hsep. by rewrite app_nil_l, <- !app_assoc.
  - case_bool_decide.
    + intros [= <-]. unfold laidOut. cbn. rewrite fmap_app, concat_app. cbn.
      rewrite app_nil_r, <- !app_assoc, !withoutNewlines_app.
      by rewrite <- ?app_assoc.
    + destruct (splitWholeBlock _ _ _ _ _ _ _ _ _) as [sv|] eqn:Hsv; [|done].
      intros [= <-]. apply splitWholeBlock_laidOut in Hsv.
      unfold laidOut. cbn. rewrite Hsv, fmap_app, concat_app. cbn.
      rewrite app_nil_r, <- !app_assoc, !withoutNewlines_app.
      by rewrite <- ?app_assoc.
Qed.

Lemma chapterStep_laidOut v block :
  laidOut (chapterStep v block) = laidOut v.
Proof.
  unfold laidOut, chapterStep. cbn.
  destruct (currentPageContent v) as [|c s]; cbn; [done|].
  rewrite fmap_app, concat_app. cbn. by rewrite !app_nil_r.
Qed.

Lemma runBlocks_laidOut blocks :
  ∀ v v',
    runBlocks measureTextWidth actualMaxWidth v blocks = Some v' →
    withoutNewlines (laidOut v') =
    withoutNewlines (laidOut v) ++ withoutNewlines (block ← blocks; blockContentOf block).
Proof.
  induction blocks as [|block blocks IH]; intros v v'.
  - intros [= <-]. cbn. by rewrite app_nil_r.
  - cbn -[blockContentOf]. unfold blockStep at 1.
    destruct (tb_type block) eqn:Htype.
    + destruct (textStep _ _ v block) as [w|] eqn:Hw; [|done]. cbn.
      intros Hrun. apply IH in Hrun. apply textStep_laidOut in Hw; [|by rewrite Htype].
      by rewrite Hrun, Hw, withoutNewlines_app, <- app_assoc.
    + destruct (textStep _ _ v block) as [w|] eqn:Hw; [|done]. cbn.
      intros Hrun. apply IH in Hrun. apply textStep_laidOut in Hw; [|by rewrite Htype].
      by rewrite Hrun, Hw, withoutNewlines_app, <- app_assoc.
    + cbn. intros Hrun. apply IH in Hrun.
      rewrite Hrun, chapterStep_laidOut, withoutNewlines_app.
      unfold blockContentOf at 2. by rewrite Htype.
Qed.

Lemma finalPages_laidOut v :
  concat (content <$> finalPages v) = laidOut v.
Proof.
  unfold laidOut, finalPages. destruct (currentPageContent v) as [|c s]; cbn.
  - by rewrite app_nil_r.
  - rewrite fmap_app, concat_app. cbn. by rewrite app_nil_r.
Qed.

(** X22.  Coverage, where it holds: when the empty string and every single
    character fit an empty page, the page contents of a non-empty book, put
    end to end, are the linearized text of the book with its indentation
    markers, up to the newline separators. *)
Lemma calculatePagination_coverage ch book :
  ∃ pages,
    calculatePagination measureTextWidth actualMaxWidth (ch :: book)
      = Some (Paginated pages) ∧
    withoutNewlines (concat (content <$> pages)) =
    withoutNewlines (indentedText (ch :: book)).
Proof.
  destruct (runBlocks_book measureTextWidth actualMaxWidth (ch :: book) initialVars)
    as (v & Hrun & _); [by constructor|].
  exists (finalPages v). split.
  - unfold calculatePagination, paginateBlocks.
    rewrite getStructuredBlocks_cons, <- app_comm_cons in *. by rewrite Hrun.
  - apply runBlocks_laidOut in Hrun. by rewrite finalPages_laidOut, Hrun.
Qed.

End HookCoverage.

(** ** The other finders *)

Lemma findPageByChapterId_from_spec pages target :
  ∀ k,
    match findPageByChapterId_from k pages target with
    | Some r =>
        exactMatch r = true ∧ (k ≤ pageIndex r)%nat ∧
        pages !! (pageIndex r - k)%nat = Some (page r) ∧
        startsChapter target (page r) ∧
        (∀ j q, (j < pageIndex r - k)%nat → pages !! j = Some q →
           ¬ startsChapter target q)
    | None => ∀ j q, pages !! j = Some q → ¬ startsChapter target q
    end.
Proof.
  induction pages as [|a pages IH]; intros k; [done|]. cbn.
  destruct (_ && _) eqn:Hc.
  - cbn. rewrite Nat.sub_diag. cbn. split_and!; try done; try lia.
    apply andb_true_iff in Hc as [Hm Hs]. split.
    + by destruct (isChapterStart a) as [[]|].
    + destruct (metadata a) as [m|]; [|done]. exists m. split; [done|].
      by apply N.eqb_eq.
  - assert (Ha : ¬ startsChapter target a).
    { intros (Hs & m & Hm & Hid). rewrite Hs, Hm in Hc. cbn in Hc.
      apply N.eqb_eq in Hid. by rewrite Hid in Hc. }
    specialize (IH (S k)).
    destruct (findPageByChapterId_from (S k) pages target) as [r|].
    + destruct IH as (He & Hk & Hl & Hs & Hfirst).
      split_and!; try done; try lia.
      * replace (pageIndex r - k)%nat with (S (pageIndex r - S k)) by lia. done.
      * intros j q Hj Hq. destruct j as [|j]; cbn in Hq; [by simplify_eq|].
        apply (Hfirst j q); [lia | done].
    + intros [|j] q Hq; cbn in Hq; [by simplify_eq|]. by apply (IH j).
Qed.

(** X1.  [findPageByChapterId] returns, as an exact match, the first page whose
    metadata carries the chapter id and whose [isChapterStart] is [true];
    it returns [null] exactly when no page is of that kind. *)
Theorem findPageByChapterId_first (pages : list PageData) (target : N) :
  match findPageByChapterId pages target with
  | Some r =>
      exactMatch r = true ∧
      pages !! pageIndex r = Some (page r) ∧
      startsChapter target (page r) ∧
      (∀ j q, (j < pageIndex r)%nat → pages !! j = Some q → ¬ startsChapter target q)
  | None => ∀ j q, pages !! j = Some q → ¬ startsChapter target q
  end.
Proof.
  unfold findPageByChapterId.
  pose proof (findPageByChapterId_from_spec pages target 0) as H.
  destruct (findPageByChapterId_from 0 pages target) as [r|]; [|done].
  rewrite Nat.sub_0_r in H. destruct H as (He & _ & Hl & Hs & Hfirst). done.
Qed.

(** X2.  No page that the hook produces carries [isChapterStart], so
    [findPageByChapterId] finds no chapter on the hook's page list. *)
Theorem findPageByChapterId_hook_null
    (measureTextWidth : jsstring → Z) (actualMaxWidth : Z) (book : Book)
    (pages : list PageData) (target : N) :
  calculatePagination measureTextWidth actualMaxWidth book = Some (Paginated pages) →
  findPageByChapterId pages target = None.
Proof.
  intros Hpag. apply calculatePagination_hookPages in Hpag.
  unfold findPageByChapterId. generalize 0%nat.
  induction Hpag as [|p pages [Hs _] _ IH]; intros k; [done|].
  cbn. rewrite Hs. cbn. rewrite andb_false_r. apply IH.
Qed.

Lemma findPageByChapterId_hook_null_witness :
  findPageByChapterId twoChapterPages 2 = None.
Proof.
  apply (findPageByChapterId_hook_null lengthWidth 100 twoChapterBook). by vm_compute.
Defined.

(** *** The fallback of [findNearestPageToPosition] *)

Lemma nearestInPage_spec target pi ids :
  ∀ best,
    let res := nearestInPage target pi ids best in
    (res = best ∧ ∀ b, b ∈ ids → ∃ d, best.2 = Some d ∧ d ≤ blockDistance b target) ∨
    (∃ b', res = (pi, Some (blockDistance b' target)) ∧ b' ∈ ids ∧
           (∀ d, best.2 = Some d → blockDistance b' target < d) ∧
           ∀ b, b ∈ ids → blockDistance b' target ≤ blockDistance b target).
Proof.
  induction ids as [|b ids IH]; intros best; cbn.
  { left. split; [done|]. intros b Hb. by apply elem_of_nil in Hb. }
  fold (blockDistance b target).
  destruct (best.2) as [d|] eqn:Hbest.
  - case_bool_decide as Hlt.
    + right. destruct (IH (pi, Some (blockDistance b target))) as [[-> Hall] | (b' & -> & Hin & Hd & Hall)].
      * exists b. split_and!; [done | by apply elem_of_cons; left | intros d' [= <-]; lia |].
        intros b0 [->|Hb0]%elem_of_cons; [lia|].
        destruct (Hall b0 Hb0) as (d' & [= <-] & Hle). done.
      * exists b'. specialize (Hd _ eq_refl).
        split_and!; [done | by apply elem_of_cons; right | intros d' [= <-]; lia |].
        intros b0 [->|Hb0]%elem_of_cons; [lia | by apply Hall].
    + destruct (IH best) as [[-> Hall] | (b' & -> & Hin & Hd & Hall)].
      * left. split; [done|]. intros b0 [->|Hb0]%elem_of_cons.
        -- exists d. split; [done | lia].
        -- apply Hall in Hb0. by rewrite Hbest in Hb0.
      * right. exists b'. rewrite Hbest in Hd. specialize (Hd _ eq_refl).
        split_and!; [done | by apply elem_of_cons; right | intros d' [= <-]; lia |].
        intros b0 [->|Hb0]%elem_of_cons; [lia | by apply Hall].
  - right. destruct (IH (pi, Some (blockDistance b target))) as [[-> Hall] | (b' & -> & Hin & Hd & Hall)].
    + exists b. split_and!; [done | by apply elem_of_cons; left | done |].
      intros b0 [->|Hb0]%elem_of_cons; [lia|].
      destruct (Hall b0 Hb0) as (d' & [= <-] & Hle). done.
    + exists b'. specialize (Hd _ eq_refl).
      split_and!; [done | by apply elem_of_cons; right | done |].
      intros b0 [->|Hb0]%elem_of_cons; [lia | by apply Hall].
Qed.

Lemma indexOrdered_cons x l :
  indexOrdered (x :: l) →
  indexOrdered l ∧ ∀ y, y ∈ l → (x.2 < y.2)%nat.
Proof.
  intros H. split.
  - intros i j a b Ha Hb Hij. apply (H (S i) (S j)); [done | done | lia].
  - intros y [k Hk]%list_elem_of_lookup_1. apply (H 0%nat (S k)); [done | done | lia].
Qed.

Lemma nearestInChapter_spec target l :
  ∀ best, indexOrdered l →
    let res := nearestInChapter target l best in
    (res = best ∧
     ∀ q b, q ∈ l → pageHasBlock b q.1 = true →
       ∃ d, best.2 = Some d ∧ d ≤ blockDistance b target) ∨
    (∃ pi b', res = (pi, Some (blockDistance b' target)) ∧ pi ∈ l ∧
       pageHasBlock b' pi.1 = true ∧
       (∀ d, best.2 = Some d → blockDistance b' target < d) ∧
       ∀ q b, q ∈ l → pageHasBlock b q.1 = true →
         blockDistance b' target ≤ blockDistance b target ∧
         ((q.2 < pi.2)%nat → blockDistance b' target < blockDistance b target)).
Proof.
  induction l as [|x l IH]; intros best Hord; cbn.
  { left. split; [done|]. intros q b Hq. by apply elem_of_nil in Hq. }
  apply indexOrdered_cons in Hord as [Hord Hx].
  assert (Hblocks : ∀ b, pageHasBlock b x.1 = true →
            ∃ m, metadata x.1 = Some m ∧ b ∈ blockIds m).
  { intros b Hb. unfold pageHasBlock in Hb. destruct (metadata x.1) as [m|]; [|done].
    exists m. split; [done|]. by apply bool_decide_eq_true_1 in Hb. }
  destruct (metadata x.1) as [m|] eqn:Hm.
  - destruct (nearestInPage_spec target x (blockIds m) best)
      as [[-> Hall] | (b1 & -> & Hin1 & Hd1 & Hall1)].
    + destruct (IH best Hord) as [[-> Hrest] | (pi & b' & -> & Hpi & Hb' & Hd & Hrest)].
      * left. split; [done|]. intros q b [->|Hq]%elem_of_cons Hb.
        -- apply Hblocks in Hb as (m' & [= <-] & Hb). by apply Hall.
        -- by apply (Hrest q).
      * right. exists pi, b'. split_and!; [done | by apply elem_of_cons; right | done | done |].
        intros q b [->|Hq]%elem_of_cons Hb; [|by apply Hrest].
        apply Hblocks in Hb as (m' & [= <-] & Hb).
        destruct (Hall b Hb) as (d & Hbest & Hle). specialize (Hd d Hbest). lia.
    + destruct (IH (x, Some (blockDistance b1 target)) Hord)
        as [[-> Hrest] | (pi & b' & -> & Hpi & Hb' & Hd & Hrest)].
      * right. exists x, b1. split_and!; [done | by apply elem_of_cons; left | | done |].
        { unfold pageHasBlock, includes. rewrite Hm. by apply bool_decide_eq_true_2. }
        intros q b [->|Hq]%elem_of_cons Hb.
        -- apply Hblocks in Hb as (m' & [= <-] & Hb). split; [by apply Hall1 | lia].
        -- destruct (Hrest q b Hq Hb) as (d & [= <-] & Hle). split; [done|].
           specialize (Hx q Hq). lia.
      * right. specialize (Hd _ eq_refl). exists pi, b'.
        split_and!; [done | by apply elem_of_cons; right | done | |].
        { intros d Hbest. specialize (Hd1 d Hbest). lia. }
        intros q b [->|Hq]%elem_of_cons Hb; [|by apply Hrest].
        apply Hblocks in Hb as (m' & [= <-] & Hb). specialize (Hall1 b Hb). lia.
  - destruct (IH best Hord) as [[-> Hrest] | (pi & b' & -> & Hpi & Hb' & Hd & Hrest)].
    + left. split; [done|]. intros q b [->|Hq]%elem_of_cons Hb.
      * by apply Hblocks in Hb as (m' & [=] & _).
      * by apply (Hrest q).
    + right. exists pi, b'. split_and!; [done | by apply elem_of_cons; right | done | done |].
      intros q b [->|Hq]%elem_of_cons Hb; [|by apply Hrest].
      by apply Hblocks in Hb as (m' & [=] & _).
Qed.

Lemma indexed_lookup pages (i : nat) pi :
  indexed pages !! i = Some pi ↔ pages !! i = Some pi.1 ∧ pi.2 = i.
Proof.
  unfold indexed. destruct pi as [p j]. cbn. split.
  - intros H. apply lookup_zip_with_Some in H as (x & y & [= <- <-] & Hx & Hy).
    apply lookup_seq in Hy as [-> _]. done.
  - intros [Hp ->]. apply lookup_zip_with_Some. exists p, i. split_and!; [done | done |].
    apply lookup_seq. split; [done|]. by apply lookup_lt_Some in Hp.
Qed.

Lemma elem_of_indexed pages pi :
  pi ∈ indexed pages ↔ pages !! pi.2 = Some pi.1.
Proof.
  split.
  - intros [i Hi]%list_elem_of_lookup_1. apply indexed_lookup in Hi as [Hp <-]. done.
  - intros H. apply (list_elem_of_lookup_2 _ pi.2). by apply indexed_lookup.
Qed.

Lemma indexOrdered_sublist l1 l2 :
  sublist l1 l2 → indexOrdered l2 → indexOrdered l1.
Proof.
  induction 1 as [|x l1 l2 Hsub IH|x l1 l2 Hsub IH]; intros Hord; [done| |].
  - apply indexOrdered_cons in Hord as [Hord Hx]. specialize (IH Hord).
    intros i j a b Ha Hb Hij. destruct j as [|j]; [lia|]. cbn in Hb.
    destruct i as [|i]; cbn in Ha.
    + simplify_eq. apply Hx. eapply elem_of_sublist; [|done].
      by eapply list_elem_of_lookup_2.
    + apply (IH i j); [done | done | lia].
  - apply indexOrdered_cons in Hord as [Hord _]. by apply IH.
Qed.

Lemma indexOrdered_indexed pages : indexOrdered (indexed pages).
Proof.
  intros i j a b Ha Hb Hij.
  apply indexed_lookup in Ha as [_ ->]. apply indexed_lookup in Hb as [_ ->]. done.
Qed.

Lemma inChapter_spec c pi : inChapter c pi = true ↔ pageInChapter c pi.1.
Proof.
  unfold inChapter, pageInChapter. destruct (metadata pi.1) as [m|].
  - rewrite N.eqb_eq. split; [intros <-; by exists m | by intros (m' & [= <-] & ?)].
  - split; [done | by intros (m' & [=] & _)].
Qed.

(** X3.  When no page lists the position's block, [findNearestPageToPosition]
    falls back to the chapter: it returns [null] exactly when no page carries
    the position's chapter id; otherwise it returns, as an inexact match, a
    page of that chapter holding a block id nearest to the position's block
    id (the first such page on a tie), or the first page of the chapter when
    no page of the chapter lists any block. *)
Theorem findNearestPageToPosition_fallback (pages : list PageData)
    (pos : ContentPosition) :
  (∀ (j : nat) q, pages !! j = Some q → pageHasBlock (pos_blockId pos) q = false) →
  match findNearestPageToPosition pages pos with
  | None => ∀ (j : nat) q, pages !! j = Some q → ¬ pageInChapter (pos_chapterId pos) q
  | Some r =>
      exactMatch r = false ∧
      pages !! pageIndex r = Some (page r) ∧
      pageInChapter (pos_chapterId pos) (page r) ∧
      ((∃ b', pageHasBlock b' (page r) = true ∧
          ∀ (j : nat) q b, pages !! j = Some q → pageInChapter (pos_chapterId pos) q →
            pageHasBlock b q = true →
            blockDistance b' (pos_blockId pos) ≤ blockDistance b (pos_blockId pos) ∧
            ((j < pageIndex r)%nat →
               blockDistance b' (pos_blockId pos) < blockDistance b (pos_blockId pos))) ∨
       ((∀ (j : nat) q b, pages !! j = Some q → pageInChapter (pos_chapterId pos) q →
           pageHasBlock b q = false) ∧
        (∀ (j : nat) q, (j < pageIndex r)%nat → pages !! j = Some q →
           ¬ pageInChapter (pos_chapterId pos) q)))
  end.
Proof.
  intros Hnone. unfold findNearestPageToPosition.
  assert (Hexact : findPageByBlockId pages (pos_blockId pos) = None).
  { unfold findPageByBlockId. revert Hnone. generalize 0%nat.
    induction pages as [|p pages IH]; intros k Hnone; [done|]. cbn.
    rewrite (Hnone 0%nat p eq_refl). apply IH. intros j q Hq. by apply (Hnone (S j)). }
  rewrite Hexact.
  set (c := pos_chapterId pos). set (target := pos_blockId pos).
  set (chapterMatches := filter (λ pi, inChapter c pi = true) (indexed pages)).
  assert (Hmem : ∀ pi, pi ∈ chapterMatches ↔
            pages !! pi.2 = Some pi.1 ∧ pageInChapter c pi.1).
  { intros pi. unfold chapterMatches. rewrite list_elem_of_filter, elem_of_indexed.
    rewrite inChapter_spec. tauto. }
  assert (Hord : indexOrdered chapterMatches).
  { eapply indexOrdered_sublist; [apply sublist_filter | apply indexOrdered_indexed]. }
  destruct chapterMatches as [|first rest] eqn:Hcm.
  { intros j q Hq Hc. specialize (proj2 (Hmem (q, j)) (conj Hq Hc)).
    intros H. by apply elem_of_nil in H. }
  rewrite <- Hcm in *.
  destruct (nearestInChapter_spec target chapterMatches (first, None) Hord)
    as [[Hres Hall] | (pi & b' & Hres & Hpi & Hb' & _ & Hall)]; rewrite Hres; cbn.
  - assert (Hfirst : first ∈ chapterMatches) by (rewrite Hcm; apply elem_of_cons; by left).
    apply Hmem in Hfirst as [Hl Hc]. split_and!; [done | done | done |].
    right. split.
    + intros j q b Hq Hqc. destruct (pageHasBlock b q) eqn:Hb; [|done].
      destruct (Hall (q, j) b) as (d & [=] & _); [by apply Hmem | done].
    + intros j q Hj Hq Hqc.
      assert (Hin : (q, j) ∈ chapterMatches) by by apply Hmem.
      rewrite Hcm in Hin. apply elem_of_cons in Hin as [<-|Hin]; [cbn in Hj; lia|].
      rewrite Hcm in Hord. apply indexOrdered_cons in Hord as [_ Hlt].
      specialize (Hlt _ Hin). cbn in Hlt. lia.
  - apply Hmem in Hpi as [Hl Hc]. split_and!; [done | done | done |].
    left. exists b'. split; [done|]. intros j q b Hq Hqc Hb.
    apply (Hall (q, j) b); [by apply Hmem | done].
Qed.

Lemma findNearestPageToPosition_fallback_witness :
  ∃ r,
    findNearestPageToPosition twoChapterPages
      {| pos_chapterId := 2; pos_blockId := 7; pos_characterOffset := 0 |} = Some r ∧
    exactMatch r = false ∧ pageIndex r = 1%nat.
Proof.
  pose proof (findNearestPageToPosition_fallback twoChapterPages
                {| pos_chapterId := 2; pos_blockId := 7; pos_characterOffset := 0 |}) as H.
  destruct (findNearestPageToPosition twoChapterPages _) as [r|] eqn:Hr; [|done].
  exists r. split; [done|]. split; [|by injection Hr as <-].
  apply H. intros [|[|j]] q Hq; vm_compute in Hq; by simplify_eq.
Defined.

(** *** [findPageRangeByBlockRange] *)

Lemma findPageRange_from_step i p rest sb eb s0 e0 :
  findPageRange_from i (p :: rest) sb eb s0 e0 =
    let s1 := match s0 with
              | None => if pageHasBlock sb p then Some i else None
              | Some _ => s0
              end in
    let e1 := if pageHasBlock eb p then Some i else e0 in
    match metadata p with
    | None => findPageRange_from (S i) rest sb eb s0 e0
    | Some _ =>
        match s1, e1 with
        | Some _, Some _ => (s1, e1)
        | _, _ => findPageRange_from (S i) rest sb eb s1 e1
        end
    end.
Proof. cbn. unfold pageHasBlock. by destruct (metadata p). Qed.

Lemma pageHasBlock_no_metadata b p : metadata p = None → pageHasBlock b p = false.
Proof. unfold pageHasBlock. by intros ->. Qed.

(** The start page is known, the end page is not. *)
Lemma findPageRange_from_start sb eb pages :
  ∀ i s0,
    let r := findPageRange_from i pages sb eb (Some s0) None in
    r.1 = Some s0 ∧
    match r.2 with
    | None => ∀ (k : nat) q, pages !! k = Some q → pageHasBlock eb q = false
    | Some e =>
        ∃ (k : nat) q, e = (i + k)%nat ∧ pages !! k = Some q ∧ pageHasBlock eb q = true ∧
          ∀ (k' : nat) q', (k' < k)%nat → pages !! k' = Some q' → pageHasBlock eb q' = false
    end.
Proof.
  induction pages as [|p pages IH]; intros i s0; [by split|].
  cbv zeta. rewrite findPageRange_from_step. cbv zeta.
  specialize (IH (S i) s0). cbv zeta in IH. destruct IH as [IH1 IH2].
  assert (Hrec :
    (findPageRange_from (S i) pages sb eb (Some s0) None).1 = Some s0 ∧
    (pageHasBlock eb p = false →
     match (findPageRange_from (S i) pages sb eb (Some s0) None).2 with
     | None => ∀ (k : nat) q, (p :: pages) !! k = Some q → pageHasBlock eb q = false
     | Some e =>
        ∃ (k : nat) q, e = (i + k)%nat ∧ (p :: pages) !! k = Some q ∧
          pageHasBlock eb q = true ∧
          ∀ (k' : nat) q', (k' < k)%nat → (p :: pages) !! k' = Some q' →
            pageHasBlock eb q' = false
     end)).
  { split; [done|]. intros Hp.
    destruct ((findPageRange_from (S i) pages sb eb (Some s0) None).2) as [e|].
    - destruct IH2 as (k & q & -> & Hq & Hb & Hfirst).
      exists (S k), q. split_and!; [lia | done | done |].
      intros [|k'] q' Hk' Hq'; cbn in Hq'; [by simplify_eq|].
      apply (Hfirst k'); [lia | done].
    - intros [|k] q Hq; cbn in Hq; [by simplify_eq | by apply (IH2 k)]. }
  destruct Hrec as [Hrec1 Hrec2].
  destruct (metadata p) as [m|] eqn:Hm.
  - destruct (pageHasBlock eb p) eqn:Hp.
    + cbn. split; [done|]. exists 0%nat, p. split_and!; [lia | done | done |].
      intros k' q' Hk'. lia.
    + split; [done | by apply Hrec2].
  - split; [done|]. apply Hrec2. by apply pageHasBlock_no_metadata.
Qed.

(** An end page is known, the start page is not. *)
Lemma findPageRange_from_end sb eb pages :
  ∀ i e0,
    let r := findPageRange_from i pages sb eb None (Some e0) in
    match r.1 with
    | None => ∀ (k : nat) q, pages !! k = Some q → pageHasBlock sb q = false
    | Some s =>
        ∃ (ks : nat) qs, s = (i + ks)%nat ∧ pages !! ks = Some qs ∧
          pageHasBlock sb qs = true ∧
          (∀ (k : nat) q, (k < ks)%nat → pages !! k = Some q → pageHasBlock sb q = false) ∧
          ∃ e, r.2 = Some e ∧
            ((e = e0 ∧ ∀ (k : nat) q, (k ≤ ks)%nat → pages !! k = Some q →
                         pageHasBlock eb q = false) ∨
             (∃ (ke : nat) qe, e = (i + ke)%nat ∧ (ke ≤ ks)%nat ∧ pages !! ke = Some qe ∧
                pageHasBlock eb qe = true ∧
                ∀ (k : nat) q, (ke < k ≤ ks)%nat → pages !! k = Some q →
                  pageHasBlock eb q = false))
    end.
Proof.
  induction pages as [|p pages IH]; intros i e0; [done|].
  cbv zeta. rewrite findPageRange_from_step. cbv zeta.
  assert (Hrec : ∀ e1,
    pageHasBlock sb p = false →
    (e1 = e0 ∧ pageHasBlock eb p = false ∨ e1 = i ∧ pageHasBlock eb p = true) →
    let r := findPageRange_from (S i) pages sb eb None (Some e1) in
    match r.1 with
    | None => ∀ (k : nat) q, (p :: pages) !! k = Some q → pageHasBlock sb q = false
    | Some s =>
        ∃ (ks : nat) qs, s = (i + ks)%nat ∧ (p :: pages) !! ks = Some qs ∧
          pageHasBlock sb qs = true ∧
          (∀ (k : nat) q, (k < ks)%nat → (p :: pages) !! k = Some q →
             pageHasBlock sb q = false) ∧
          ∃ e, r.2 = Some e ∧
            ((e = e0 ∧ ∀ (k : nat) q, (k ≤ ks)%nat → (p :: pages) !! k = Some q →
                         pageHasBlock eb q = false) ∨
             (∃ (ke : nat) qe, e = (i + ke)%nat ∧ (ke ≤ ks)%nat ∧
                (p :: pages) !! ke = Some qe ∧ pageHasBlock eb qe = true ∧
                ∀ (k : nat) q, (ke < k ≤ ks)%nat → (p :: pages) !! k = Some q →
                  pageHasBlock eb q = false))
    end).
  { intros e1 Hs He1. specialize (IH (S i) e1). cbv zeta in IH |- *.
    destruct ((findPageRange_from (S i) pages sb eb None (Some e1)).1) as [s|].
    - destruct IH as (ks & qs & -> & Hqs & Hbs & Hfirst & e & -> & Hend).
      exists (S ks), qs. split_and!; [lia | done | done | |].
      { intros [|k] q Hk Hq; cbn in Hq; [by simplify_eq|]. apply (Hfirst k); [lia|done]. }
      exists e. split; [done|].
      destruct Hend as [[-> Hnone] | (ke & qe & -> & Hke & Hqe & Hbe & Hnone)].
      + destruct He1 as [[-> Hp] | [-> Hp]].
        * left. split; [done|]. intros [|k] q Hk Hq; cbn in Hq; [by simplify_eq|].
          apply (Hnone k); [lia | done].
        * right. exists 0%nat, p. split_and!; [lia | lia | done | done |].
          intros [|k] q Hk Hq; cbn in Hq; [lia|]. apply (Hnone k); [lia | done].
      + right. exists (S ke), qe. split_and!; [lia | lia | done | done |].
        intros [|k] q Hk Hq; cbn in Hq; [lia|]. apply (Hnone k); [lia | done].
    - intros [|k] q Hq; cbn in Hq; [by simplify_eq | by apply (IH k)]. }
  destruct (metadata p) as [m|] eqn:Hm.
  - destruct (pageHasBlock sb p) eqn:Hs.
    + destruct (pageHasBlock eb p) eqn:He; cbn.
      * exists 0%nat, p. split_and!; [lia | done | done | intros; lia |].
        exists i. split; [done|]. right. exists 0%nat, p.
        split_and!; [lia | lia | done | done | intros; lia].
      * exists 0%nat, p. split_and!; [lia | done | done | intros; lia |].
        exists e0. split; [done|]. left. split; [done|].
        intros k q Hk Hq. assert (k = 0%nat) as -> by lia. cbn in Hq. by simplify_eq.
    + destruct (pageHasBlock eb p) eqn:He.
      * apply (Hrec i); [done | by right].
      * apply (Hrec e0); [done | by left].
  - apply (Hrec e0); [by apply pageHasBlock_no_metadata|].
    left. split; [done | by apply pageHasBlock_no_metadata].
Qed.

Lemma findPageRange_from_end_kept sb eb pages :
  ∀ i s0 e0, (findPageRange_from i pages sb eb s0 (Some e0)).2 ≠ None.
Proof.
  induction pages as [|p pages IH]; intros i s0 e0; [done|].
  rewrite findPageRange_from_step. cbv zeta.
  destruct (metadata p), s0, (pageHasBlock sb p), (pageHasBlock eb p);
    try done; apply IH.
Qed.

(** The range of a result of the loop, over the pages from index [i] on. *)
Lemma findPageRange_from_none sb eb pages :
  ∀ i,
    let r := findPageRange_from i pages sb eb None None in
    (r.1 = None → ∀ (k : nat) q, pages !! k = Some q → pageHasBlock sb q = false) ∧
    (r.2 = None → ∀ (k : nat) q, pages !! k = Some q → pageHasBlock eb q = false) ∧
    (∀ s e, r = (Some s, Some e) →
       ∃ (ks ke : nat) qs qe, s = (i + ks)%nat ∧ e = (i + ke)%nat ∧
         pages !! ks = Some qs ∧ pageHasBlock sb qs = true ∧
         (∀ (k : nat) q, (k < ks)%nat → pages !! k = Some q → pageHasBlock sb q = false) ∧
         pages !! ke = Some qe ∧ pageHasBlock eb qe = true ∧
         ((ke ≤ ks)%nat → ∀ (k : nat) q, (ke < k ≤ ks)%nat → pages !! k = Some q →
            pageHasBlock eb q = false) ∧
         ((ks < ke)%nat → ∀ (k : nat) q, (k < ke)%nat → pages !! k = Some q →
            pageHasBlock eb q = false)).
Proof.
  induction pages as [|p pages IH]; intros i; [by split_and!|].
  cbv zeta. rewrite findPageRange_from_step. cbv zeta.
  assert (Hskip :
    pageHasBlock sb p = false → pageHasBlock eb p = false →
    let r := findPageRange_from (S i) pages sb eb None None in
    (r.1 = None → ∀ (k : nat) q, (p :: pages) !! k = Some q → pageHasBlock sb q = false) ∧
    (r.2 = None → ∀ (k : nat) q, (p :: pages) !! k = Some q → pageHasBlock eb q = false) ∧
    (∀ s e, r = (Some s, Some e) →
       ∃ (ks ke : nat) qs qe, s = (i + ks)%nat ∧ e = (i + ke)%nat ∧
         (p :: pages) !! ks = Some qs ∧ pageHasBlock sb qs = true ∧
         (∀ (k : nat) q, (k < ks)%nat → (p :: pages) !! k = Some q →
            pageHasBlock sb q = false) ∧
         (p :: pages) !! ke = Some qe ∧ pageHasBlock eb qe = true ∧
         ((ke ≤ ks)%nat → ∀ (k : nat) q, (ke < k ≤ ks)%nat → (p :: pages) !! k = Some q →
            pageHasBlock eb q = false) ∧
         ((ks < ke)%nat → ∀ (k : nat) q, (k < ke)%nat → (p :: pages) !! k = Some q →
            pageHasBlock eb q = false))).
  { intros Hs He. specialize (IH (S i)). cbv zeta in IH |- *.
    destruct IH as (IH1 & IH2 & IH3). split_and!.
    - intros Hr [|k] q Hq; cbn in Hq; [by simplify_eq | by apply (IH1 Hr k)].
    - intros Hr [|k] q Hq; cbn in Hq; [by simplify_eq | by apply (IH2 Hr k)].
    - intros s e Hr.
      destruct (IH3 s e Hr)
        as (ks & ke & qs & qe & -> & -> & Hqs & Hbs & Hfirst & Hqe & Hbe & Hle & Hlt).
      exists (S ks), (S ke), qs, qe. split_and!; [lia | lia | done | done | | done | done | |].
      + intros [|k] q Hk Hq; cbn in Hq; [by simplify_eq|]. apply (Hfirst k); [lia | done].
      + intros Hke [|k] q Hk Hq; cbn in Hq; [lia|]. apply (Hle ltac:(lia) k); [lia | done].
      + intros Hke [|k] q Hk Hq; cbn in Hq; [by simplify_eq|].
        apply (Hlt ltac:(lia) k); [lia | done]. }
  destruct (metadata p) as [m|] eqn:Hm.
  - destruct (pageHasBlock sb p) eqn:Hs; destruct (pageHasBlock eb p) eqn:He.
    + cbn. split_and!; [done | done |]. intros s e [= <- <-].
      exists 0%nat, 0%nat, p, p.
      split_and!; [lia | lia | done | done | intros; lia | done | done
                   | intros; lia | intros; lia].
    + pose proof (findPageRange_from_start sb eb pages (S i) i) as H. cbv zeta in H.
      destruct H as [H1 H2]. split_and!.
      * intros Hr. by rewrite H1 in Hr.
      * intros Hr. rewrite Hr in H2.
        intros [|k] q Hq; cbn in Hq; [by simplify_eq | by apply (H2 k)].
      * intros s e Hr. rewrite Hr in H1, H2. cbn in H1, H2. injection H1 as ->.
        destruct H2 as (k & q & -> & Hq & Hb & Hfirst).
        exists 0%nat, (S k), p, q.
        split_and!; [lia | lia | done | done | intros; lia | done | done
                     | intros; lia |].
        intros _ [|k'] q' Hk' Hq'; cbn in Hq'; [by simplify_eq|].
        apply (Hfirst k'); [lia | done].
    + pose proof (findPageRange_from_end sb eb pages (S i) i) as H. cbv zeta in H.
      split_and!.
      * intros Hr. rewrite Hr in H.
        intros [|k] q Hq; cbn in Hq; [by simplify_eq | by apply (H k)].
      * intros Hr.
        destruct ((findPageRange_from (S i) pages sb eb None (Some i)).1) as [s|] eqn:H1.
        -- destruct H as (_ & _ & _ & _ & _ & _ & e & He' & _). congruence.
        -- by apply findPageRange_from_end_kept in Hr.
      * intros s e Hr. rewrite Hr in H. cbn in H.
        destruct H as (ks & qs & -> & Hqs & Hbs & Hfirst & e' & [= <-] & Hend).
        destruct Hend as [[-> Hnone] | (ke & qe & -> & Hke & Hqe & Hbe & Hnone)].
        -- exists (S ks), 0%nat, qs, p.
           split_and!; [lia | lia | done | done | | done | done | | intros; lia].
           ++ intros [|k] q Hk Hq; cbn in Hq; [by simplify_eq|].
              apply (Hfirst k); [lia | done].
           ++ intros _ [|k] q Hk Hq; cbn in Hq; [lia|]. apply (Hnone k); [lia | done].
        -- exists (S ks), (S ke), qs, qe.
           split_and!; [lia | lia | done | done | | done | done | | intros; lia].
           ++ intros [|k] q Hk Hq; cbn in Hq; [by simplify_eq|].
              apply (Hfirst k); [lia | done].
           ++ intros _ [|k] q Hk Hq; cbn in Hq; [lia|]. apply (Hnone k); [lia | done].
    + by apply Hskip.
  - apply Hskip; by apply pageHasBlock_no_metadata.
Qed.

(** X4.  [findPageRangeByBlockRange] returns [null] exactly when the start block
    or the end block is listed by no page.  Otherwise the start index is the
    first page listing the start block; the end index is the last page up to
    the start page that lists the end block, when there is one (so the end
    may lie before the start), and else the first page listing it. *)
Theorem findPageRangeByBlockRange_spec (pages : list PageData) (sb eb : N) :
  match findPageRangeByBlockRange pages sb eb with
  | None =>
      (∀ (k : nat) q, pages !! k = Some q → pageHasBlock sb q = false) ∨
      (∀ (k : nat) q, pages !! k = Some q → pageHasBlock eb q = false)
  | Some (s, e) =>
      (∃ qs, pages !! s = Some qs ∧ pageHasBlock sb qs = true) ∧
      (∀ (k : nat) q, (k < s)%nat → pages !! k = Some q → pageHasBlock sb q = false) ∧
      (∃ qe, pages !! e = Some qe ∧ pageHasBlock eb qe = true) ∧
      ((e ≤ s)%nat → ∀ (k : nat) q, (e < k ≤ s)%nat → pages !! k = Some q →
         pageHasBlock eb q = false) ∧
      ((s < e)%nat → ∀ (k : nat) q, (k < e)%nat → pages !! k = Some q →
         pageHasBlock eb q = false)
  end.
Proof.
  unfold findPageRangeByBlockRange.
  pose proof (findPageRange_from_none sb eb pages 0) as H. cbv zeta in H.
  destruct H as (H1 & H2 & H3).
  destruct (findPageRange_from 0 pages sb eb None None) as [[s|] [e|]]; cbn in *.
  - destruct (H3 s e eq_refl)
      as (ks & ke & qs & qe & -> & -> & Hqs & Hbs & Hfirst & Hqe & Hbe & Hle & Hlt).
    split_and!; [by exists qs | done | by exists qe | done | done].
  - right. by apply H2.
  - left. by apply H1.
  - left. by apply H1.
Qed.

(** *** [findPageByProgress] *)

Lemma clampedProgress_range (progress : Q) :
  (0 <= Qmax 0 (Qmin 1 progress))%Q ∧ (Qmax 0 (Qmin 1 progress) <= 1)%Q.
Proof.
  split; [apply Q.le_max_l|].
  apply Q.max_lub; [done | apply Q.le_min_l].
Qed.

Lemma targetPageIndex_range (n : nat) (c : Q) :
  (0 < n)%nat → (0 <= c)%Q → (c <= 1)%Q →
  0 ≤ Qfloor (inject_Z (Z.of_nat n - 1) * c) < Z.of_nat n.
Proof.
  intros Hn H0 H1.
  assert (Hn0 : (0 <= inject_Z (Z.of_nat n - 1))%Q).
  { change 0%Q with (inject_Z 0). rewrite <- Zle_Qle. lia. }
  split.
  - change 0 with (Qfloor (inject_Z 0)) at 1. apply Qfloor_resp_le.
    change (inject_Z 0) with 0%Q. by apply Qmult_le_0_compat.
  - apply Z.le_lt_trans with (Z.of_nat n - 1); [|lia].
    rewrite <- (Qfloor_Z (Z.of_nat n - 1)) at 2. apply Qfloor_resp_le.
    rewrite <- (Qmult_1_r (inject_Z (Z.of_nat n - 1))) at 2.
    rewrite !(Qmult_comm (inject_Z (Z.of_nat n - 1))).
    by apply Qmult_le_compat_r.
Qed.


(** X6.  A larger progress never selects an earlier page. *)
Theorem findPageByProgress_monotone (pages : list PageData) (p1 p2 : Q)
    (r1 r2 : FindResult) :
  (p1 <= p2)%Q →
  findPageByProgress pages p1 = Some r1 →
  findPageByProgress pages p2 = Some r2 →
  (pageIndex r1 ≤ pageIndex r2)%nat.
Proof.
  intros Hle. unfold findPageByProgress. cbv zeta.
  destruct pages as [|p pages].
  { by destruct (_ || _). }
  set (n := length (p :: pages)).
  assert (Hn : (0 < n)%nat) by (unfold n; cbn; lia).
  destruct (clampedProgress_range p1) as [H0 H1].
  destruct (clampedProgress_range p2) as [H0' H1'].
  pose proof (targetPageIndex_range n _ Hn H0 H1) as Ht1.
  pose proof (targetPageIndex_range n _ Hn H0' H1') as Ht2.
  assert (Hmono : Qfloor (inject_Z (Z.of_nat n - 1) * Qmax 0 (Qmin 1 p1))
                  ≤ Qfloor (inject_Z (Z.of_nat n - 1) * Qmax 0 (Qmin 1 p2))).
  { apply Qfloor_resp_le. rewrite !(Qmult_comm (inject_Z (Z.of_nat n - 1))).
    apply Qmult_le_compat_r.
    - apply Q.max_le_compat_l. by apply Q.min_le_compat_l.
    - change 0%Q with (inject_Z 0). rewrite <- Zle_Qle. lia. }
  destruct (_ || _); [done|]. destruct (_ !! _); [|done]. intros [= <-].
  destruct (_ || _); [done|]. destruct (_ !! _); [|done]. intros [= <-].
  cbn [pageIndex]. apply Z2Nat.inj_le; [apply Ht1 | apply Ht2 | exact Hmono].
Qed.

Lemma findPageByProgress_monotone_witness :
  ∃ r1 r2,
    findPageByProgress twoChapterPages (1 # 4) = Some r1 ∧
    findPageByProgress twoChapterPages 1 = Some r2 ∧
    (pageIndex r1 ≤ pageIndex r2)%nat.
Proof.
  eexists _, _. split_and!; [reflexivity | reflexivity |].
  eapply (findPageByProgress_monotone twoChapterPages (1 # 4) 1);
    [by vm_compute | reflexivity | reflexivity].
Defined.

(** ** Where [fitTextToPage] cuts *)

Lemma scanForCut_condition (cutPoint : Z) (i : nat) :
  Qle_bool (Qmult (inject_Z cutPoint) (7 # 10)) (inject_Z (Z.of_nat i)) &&
    negb (Qeq_bool (Qmult (inject_Z cutPoint) (7 # 10)) (inject_Z (Z.of_nat i))) = true
  ↔ 7 * cutPoint < 10 * Z.of_nat i.
Proof.
  rewrite andb_true_iff, negb_true_iff, Qle_bool_iff, <- not_true_iff_false, Qeq_bool_iff.
  unfold Qle, Qeq. cbn. lia.
Qed.

(** The scan returns the position after the last punctuation character of
    its window, or the value it started with when the window has none. *)
Lemma scanForCut_spec (text : jsstring) (cutPoint : Z) (lastGoodCut : Z) :
  ∀ i : nat,
    (TextMeasurer.scanForCut text cutPoint i lastGoodCut = lastGoodCut ∧
     ∀ (j : nat) c, (0 < j ≤ i)%nat → 7 * cutPoint < 10 * Z.of_nat j →
       text !! j = Some c → TextMeasurer.punctuation c = false) ∨
    (∃ (j : nat) c,
       TextMeasurer.scanForCut text cutPoint i lastGoodCut = Z.of_nat j + 1 ∧
       (0 < j ≤ i)%nat ∧ 7 * cutPoint < 10 * Z.of_nat j ∧
       text !! j = Some c ∧ TextMeasurer.punctuation c = true ∧
       ∀ (j' : nat) c', (j < j' ≤ i)%nat → text !! j' = Some c' →
         TextMeasurer.punctuation c' = false).
Proof.
  induction i as [|i IH].
  { left. split; [done|]. intros j c Hj. lia. }
  cbn [TextMeasurer.scanForCut].
  destruct (_ && _) eqn:Hcond.
  - apply scanForCut_condition in Hcond.
    assert (Hnext :
      (∀ c, text !! S i = Some c → TextMeasurer.punctuation c = false) →
      (TextMeasurer.scanForCut text cutPoint i lastGoodCut = lastGoodCut ∧
       ∀ (j : nat) c, (0 < j ≤ S i)%nat → 7 * cutPoint < 10 * Z.of_nat j →
         text !! j = Some c → TextMeasurer.punctuation c = false) ∨
      (∃ (j : nat) c,
         TextMeasurer.scanForCut text cutPoint i lastGoodCut = Z.of_nat j + 1 ∧
         (0 < j ≤ S i)%nat ∧ 7 * cutPoint < 10 * Z.of_nat j ∧
         text !! j = Some c ∧ TextMeasurer.punctuation c = true ∧
         ∀ (j' : nat) c', (j < j' ≤ S i)%nat → text !! j' = Some c' →
           TextMeasurer.punctuation c' = false)).
    { intros Hhere. destruct IH as [[-> Hnone] | (j & c & -> & Hj & Hw & Hc & Hp & Hlast)].
      - left. split; [done|]. intros j c Hj Hw Hc.
        destruct (decide (j = S i)) as [->|]; [by apply Hhere|].
        apply (Hnone j); [lia | done | done].
      - right. exists j, c. split_and!; [done | lia | lia | done | done | done |].
        intros j' c' Hj' Hc'. destruct (decide (j' = S i)) as [->|]; [by apply Hhere|].
        apply (Hlast j'); [lia | done]. }
    destruct (text !! S i) as [c|] eqn:Hc; [|by apply Hnext].
    destruct (TextMeasurer.punctuation c) eqn:Hp; [|apply Hnext; by intros c' [= <-]].
    right. exists (S i), c. split_and!; [done | lia | lia | done | done | done |].
    intros j' c' Hj'. lia.
  - left. split; [done|]. intros j c Hj Hw.
    assert (Hno : ¬ 7 * cutPoint < 10 * Z.of_nat (S i)).
    { rewrite <- scanForCut_condition. by rewrite Hcond. }
    lia.
Qed.

Lemma safeCharacterCount_bound (total : Z) :
  0 < total →
  1 ≤ Z.max 1 (Qfloor (Qmult (inject_Z total) (8 # 10))) ≤ total ∧
  Z.max 1 (Qfloor (Qmult (inject_Z total) (8 # 10))) + 1 ≤ Z.max 2 total.
Proof.
  intros Htotal.
  assert (Hfloor : Qfloor (Qmult (inject_Z total) (8 # 10)) = (total * 8) `div` 10) by done.
  rewrite Hfloor. pose proof (Z.div_mod (total * 8) 10 ltac:(done)) as Hdiv.
  pose proof (Z.mod_pos_bound (total * 8) 10 ltac:(done)) as Hmod. lia.
Qed.

Lemma fitTextToPage_cut_window (tm : TextMeasurer.t) (text : jsstring) :
  let total := TextMeasurer.totalCharacters (TextMeasurer.getPageCapacity tm) in
  let cutPoint := Z.max 1 (Qfloor (Qmult (inject_Z total) (8 # 10))) in
  0 < total → total < Z.of_nat (length text) →
  ∃ k : nat,
    TextMeasurer.fitTextToPage tm text = (take k text, drop k text) ∧
    ((Z.of_nat k = cutPoint ∧
      ∀ (j : nat) c, 0 < Z.of_nat j ≤ cutPoint → 7 * cutPoint < 10 * Z.of_nat j →
        text !! j = Some c → TextMeasurer.punctuation c = false) ∨
     (∃ (j : nat) c, k = S j ∧ 0 < Z.of_nat j ≤ cutPoint ∧
        7 * cutPoint ≤ 10 * Z.of_nat j ∧
        text !! j = Some c ∧ TextMeasurer.punctuation c = true ∧
        ∀ (j' : nat) c', Z.of_nat j < Z.of_nat j' ≤ cutPoint → text !! j' = Some c' →
          TextMeasurer.punctuation c' = false)).
Proof.
  intros total cutPoint Htotal Hlong.
  destruct (safeCharacterCount_bound total Htotal) as [Hsafe _]. fold cutPoint in Hsafe.
  unfold TextMeasurer.fitTextToPage. fold total.
  pose proof (getPageCapacity_lines tm Htotal) as Hlines.
  destruct text as [|c0 text]; [cbn in Hlong; lia|]. cbn [truthy negb orb].
  destruct (Z.leb_spec total 0); [lia|].
  destruct (Z.leb_spec (TextMeasurer.linesPerPage (TextMeasurer.getPageCapacity tm)) 0);
    [lia|].
  destruct (Z.leb_spec (Z.of_nat (length (c0 :: text))) total); [lia|].
  cbv zeta. fold cutPoint.
  rewrite (Z.min_l cutPoint) by lia.
  destruct (scanForCut_spec (c0 :: text) cutPoint cutPoint (Z.to_nat cutPoint))
    as [[-> Hnone] | (j & c & -> & Hj & Hw & Hc & Hp & Hlast)].
  - destruct (Z.ltb_spec 0 cutPoint); [|lia].
    exists (Z.to_nat cutPoint). split; [done|]. left. split; [lia|].
    intros j c Hj. apply Hnone. lia.
  - destruct (Z.ltb_spec 0 (Z.of_nat j + 1)); [|lia].
    exists (S j). split; [by replace (Z.to_nat (Z.of_nat j + 1)) with (S j) by lia|].
    right. exists j, c. split_and!; [done | lia | lia | lia | done | done |].
    intros j' c' Hj'. apply Hlast. lia.
Qed.

Lemma fitTextToPage_length_le (tm : TextMeasurer.t) (text : jsstring) :
  Z.of_nat (length (TextMeasurer.fitTextToPage tm text).1)
    ≤ Z.max 2 (TextMeasurer.totalCharacters (TextMeasurer.getPageCapacity tm)).
Proof.
  set (total := TextMeasurer.totalCharacters (TextMeasurer.getPageCapacity tm)).
  destruct (Z.leb_spec total 0) as [Hz|Htotal].
  { destruct (fitTextToPage_cut tm text) as (k & -> & Hzero & _).
    rewrite (Hzero (or_introl Hz)). cbn [fst]. rewrite take_0. cbn [length]. lia. }
  destruct (Z.leb_spec (Z.of_nat (length text)) total) as [Hshort|Hlong].
  { destruct (fitTextToPage_cut tm text) as (k & -> & _). cbn [fst].
    rewrite length_take. lia. }
  destruct (fitTextToPage_cut_window tm text Htotal Hlong) as (k & -> & Hk).
  cbn [fst]. rewrite length_take.
  destruct (safeCharacterCount_bound total Htotal) as [_ Hsafe]. fold total in Hk.
  destruct Hk as [[Hk _] | (j & c & -> & Hj & _)]; lia.
Qed.

(** X7.  When a text is longer than a positive page capacity, [fitTextToPage]
    cuts it right after the last punctuation or white-space character found
    between 70% of the cut point and the cut point, and at the cut point
    (80% of the capacity, at least 1) when there is none. *)
Theorem fitTextToPage_cut_point (tm : TextMeasurer.t) (text : jsstring) :
  let total := TextMeasurer.totalCharacters (TextMeasurer.getPageCapacity tm) in
  let cutPoint := Z.max 1 (Qfloor (Qmult (inject_Z total) (8 # 10))) in
  0 < total → total < Z.of_nat (length text) →
  ∃ k : nat,
    TextMeasurer.fitTextToPage tm text = (take k text, drop k text) ∧
    ((Z.of_nat k = cutPoint ∧
      ∀ (j : nat) c, 0 < Z.of_nat j ≤ cutPoint → 7 * cutPoint < 10 * Z.of_nat j →
        text !! j = Some c → TextMeasurer.punctuation c = false) ∨
     (∃ (j : nat) c, k = S j ∧ 0 < Z.of_nat j ≤ cutPoint ∧
        7 * cutPoint ≤ 10 * Z.of_nat j ∧
        text !! j = Some c ∧ TextMeasurer.punctuation c = true ∧
        ∀ (j' : nat) c', Z.of_nat j < Z.of_nat j' ≤ cutPoint → text !! j' = Some c' →
          TextMeasurer.punctuation c' = false)).
Proof. exact (fitTextToPage_cut_window tm text). Qed.

Lemma fitTextToPage_cut_point_witness :
  ∃ k : nat,
    TextMeasurer.fitTextToPage sampleMeasurer (replicate 30 97%N) =
      (take k (replicate 30 97%N), drop k (replicate 30 97%N)).
Proof.
  destruct (fitTextToPage_cut_point sampleMeasurer (replicate 30 97%N))
    as (k & Hk & _); [by vm_compute | by vm_compute |].
  by exists k.
Defined.

(** X8.  [fitTextToPage] never fits more characters than the page capacity,
    except that with a capacity of 1 it may fit 2. *)
Theorem fitTextToPage_bound (tm : TextMeasurer.t) (text : jsstring) :
  Z.of_nat (length (TextMeasurer.fitTextToPage tm text).1)
    ≤ Z.max 2 (TextMeasurer.totalCharacters (TextMeasurer.getPageCapacity tm)).
Proof. apply fitTextToPage_length_le. Qed.

(** ** The pages of [PaginationCalculator.calculatePages] *)

Section PaginationCalculatorFacts.
Import PaginationCalculator.

Variable tm : TextMeasurer.t.

Lemma idsFrom_nil n : idsFrom n [].
Proof. by intros i p. Qed.

Lemma idsFrom_app n l1 l2 :
  idsFrom n l1 → idsFrom (n + Z.of_nat (length l1)) l2 → idsFrom n (l1 ++ l2).
Proof.
  intros H1 H2 i p Hi. apply lookup_app_Some in Hi as [Hi | [Hlen Hi]]; [by apply H1|].
  rewrite (H2 _ _ Hi). lia.
Qed.

Lemma idsFrom_cons n p l :
  id p = n → idsFrom (n + 1) l → idsFrom n (p :: l).
Proof.
  intros Hp Hl [|i] q Hq; cbn in Hq; [simplify_eq; lia|].
  rewrite (Hl _ _ Hq). lia.
Qed.

Lemma effectiveCapacity_pos : 1 ≤ effectiveCapacity tm.
Proof. unfold effectiveCapacity. cbv zeta. destruct (Z.ltb_spec 0 (TextMeasurer.totalCharacters (TextMeasurer.getPageCapacity tm))); lia. Qed.

Lemma capacity_le_pageBound :
  Z.max 2 (TextMeasurer.totalCharacters (TextMeasurer.getPageCapacity tm)) ≤ pageBound tm.
Proof.
  unfold pageBound, effectiveCapacity. cbv zeta.
  destruct (Z.ltb_spec 0 (TextMeasurer.totalCharacters (TextMeasurer.getPageCapacity tm)));
    lia.
Qed.

Lemma splitLargeBlock_loop_pages ch b fuel :
  b ∈ chapter_blocks ch →
  ∀ rem start pid ps,
    0 ≤ start →
    splitLargeBlock_loop fuel tm (chapter_id ch) (block_id b) rem start pid = Some ps →
    Forall (pageOfChapter (pageBound tm) ch) ps ∧ idsFrom pid ps.
Proof.
  intros Hb. induction fuel as [|fuel IH]; intros rem start pid ps Hstart.
  { cbn. case_bool_decide; [done|]. intros [= <-]. split; [done | apply idsFrom_nil]. }
  cbn -[TextMeasurer.fitTextToPage]. case_bool_decide as Hlen.
  2: { intros [= <-]. split; [done | apply idsFrom_nil]. }
  pose proof (fitTextToPage_length_le tm rem) as Hbound.
  pose proof capacity_le_pageBound as Hcap.
  destruct (TextMeasurer.fitTextToPage tm rem) as [fitted next]. cbn [fst] in Hbound.
  case_bool_decide as Hf.
  - destruct (splitLargeBlock_loop fuel tm _ _ (drop 1 rem) _ _) as [rest|] eqn:Hrest;
      [|done].
    cbn [mbind option_bind]. intros [= <-].
    apply IH in Hrest as [Hrest Hids]; [|lia].
    assert (Hone : length (take 1 rem) = 1%nat) by (rewrite length_take; lia).
    split; [|by apply idsFrom_cons].
    constructor; [|done]. unfold pageOfChapter, pageText. cbn.
    rewrite app_nil_r, Hone. split_and!; try done; try lia. by exists b.
  - destruct (splitLargeBlock_loop fuel tm _ _ next _ _) as [rest|] eqn:Hrest; [|done].
    cbn [mbind option_bind]. intros [= <-].
    apply IH in Hrest as [Hrest Hids]; [|lia].
    split; [|by apply idsFrom_cons].
    constructor; [|done]. unfold pageOfChapter, pageText. cbn.
    rewrite app_nil_r. split_and!; try done; try lia. by exists b.
Qed.

Lemma blockIdAt_lookup blocks (i : nat) (n : nat) :
  (i < n)%nat → (n ≤ length blocks)%nat →
  ∃ b, b ∈ blocks ∧ blockIdAt blocks i = block_id b.
Proof.
  intros Hi Hn. destruct (lookup_lt_is_Some_2 blocks i) as [b Hb]; [lia|].
  exists b. split; [by eapply list_elem_of_lookup_2|]. unfold blockIdAt. by rewrite Hb.
Qed.

Lemma openPage_pageOfChapter ch (n : nat) v :
  (n ≤ length (chapter_blocks ch))%nat →
  chapterInv tm n v → currentPageContent v ≠ [] →
  pageOfChapter (pageBound tm) ch (openPage ch v).
Proof.
  intros Hn (Hid & Hcount & Hle & Hidx & Hcap) Hne.
  destruct (blockIdAt_lookup (chapter_blocks ch) (currentBlockStartIndex v) n)
    as (b & Hb & Hbid); [by apply Hidx | done |].
  unfold pageOfChapter, pageText, pageBound. cbn.
  split_and!; try done; try lia. by exists b.
Qed.

Lemma calc_blockStep_inv ch (n : nat) v block v' :
  chapter_blocks ch !! n = Some block →
  chapterInv tm n v →
  blockStep tm (effectiveCapacity tm) ch v n block = Some v' →
  chapterInv tm (S n) v' ∧
  ∃ new, pages v' = pages v ++ new ∧
         Forall (pageOfChapter (pageBound tm) ch) new ∧
         idsFrom (Z.of_nat (length (pages v)) + 1) new.
Proof.
  intros Hblock Hinv.
  assert (Hn : (n < length (chapter_blocks ch))%nat) by by eapply lookup_lt_Some.
  assert (Hin : block ∈ chapter_blocks ch) by by eapply list_elem_of_lookup_2.
  pose proof Hinv as (Hid & Hcount & Hle & Hidx & Hcap).
  unfold blockStep. cbv zeta.
  destruct (Z.leb_spec (Z.of_nat (length (concat (currentPageContent v ++ [block_text block]))))
              (effectiveCapacity tm)) as [Hfit|Hover].
  { intros [= <-]. split.
    - unfold chapterInv. cbn. rewrite concat_app, length_app in *. cbn in *.
      rewrite app_nil_r in *. split_and!; [done | lia | lia | lia | done].
    - exists []. cbn. rewrite app_nil_r. split_and!; [done | done | apply idsFrom_nil]. }
  set (flushed := bool_decide (0 < length (currentPageContent v))%nat).
  assert (Hflush : ∃ new1,
    (if flushed then pages v ++ [openPage ch v] else pages v) = pages v ++ new1 ∧
    Forall (pageOfChapter (pageBound tm) ch) new1 ∧
    idsFrom (Z.of_nat (length (pages v)) + 1) new1 ∧
    (if flushed then pageId v + 1 else pageId v) =
      Z.of_nat (length (pages v ++ new1)) + 1).
  { unfold flushed. case_bool_decide as Hc.
    - exists [openPage ch v]. split_and!; [done | | | ].
      + apply Forall_singleton. apply (openPage_pageOfChapter ch n); [lia | done |].
        intros Hnil. rewrite Hnil in Hc. cbn in Hc. lia.
      + apply idsFrom_cons; [cbn; lia | apply idsFrom_nil].
      + rewrite length_app. cbn. lia.
    - exists []. rewrite app_nil_r. split_and!; [done | done | apply idsFrom_nil | done]. }
  destruct Hflush as (new1 & -> & Hnew1 & Hids1 & ->).
  destruct (Z.ltb_spec (effectiveCapacity tm) (Z.of_nat (length (block_text block))))
    as [Hlarge|Hsmall].
  - unfold splitLargeBlock.
    destruct (splitLargeBlock_loop _ tm _ _ _ _ _) as [split|] eqn:Hsplit; [|done].
    cbn [mbind option_bind]. intros [= <-].
    apply (splitLargeBlock_loop_pages ch block) in Hsplit as [Hsplit Hids]; [|done|lia].
    split.
    + unfold chapterInv. cbn. pose proof effectiveCapacity_pos.
      split_and!; [done | done | lia | done | lia].
    + exists (new1 ++ split). cbn. rewrite app_assoc. split_and!; [done | | ].
      * by apply Forall_app.
      * apply idsFrom_app; [done|]. rewrite length_app in Hids.
        replace (Z.of_nat (length (pages v)) + 1 + Z.of_nat (length new1))
          with (Z.of_nat (length (pages v) + length new1) + 1) by lia. done.
  - intros [= <-]. split.
    + unfold chapterInv. cbn. rewrite app_nil_r. split_and!; [done | done | lia | lia | lia].
    + exists new1. by split_and!.
Qed.

Lemma calc_blocksLoop_inv ch blocks :
  ∀ (n : nat) v v',
    (n ≤ length (chapter_blocks ch))%nat →
    drop n (chapter_blocks ch) = blocks →
    chapterInv tm n v →
    blocksLoop tm (effectiveCapacity tm) ch v n blocks = Some v' →
    chapterInv tm (length (chapter_blocks ch)) v' ∧
    ∃ new, pages v' = pages v ++ new ∧
           Forall (pageOfChapter (pageBound tm) ch) new ∧
           idsFrom (Z.of_nat (length (pages v)) + 1) new.
Proof.
  induction blocks as [|block blocks IH]; intros n v v' Hn Hdrop Hinv.
  - cbn. intros [= <-].
    assert (n = length (chapter_blocks ch)) as <-.
    { apply (f_equal length) in Hdrop. rewrite length_drop in Hdrop. cbn in Hdrop. lia. }
    split; [done|]. exists []. rewrite app_nil_r. split_and!; [done | done | apply idsFrom_nil].
  - assert (Hblock : chapter_blocks ch !! n = Some block).
    { rewrite <- (Nat.add_0_r n), <- lookup_drop, Hdrop. done. }
    cbn [blocksLoop].
    destruct (blockStep tm (effectiveCapacity tm) ch v n block) as [w|] eqn:Hw; [|done].
    cbn [mbind option_bind]. intros Hv'.
    destruct (calc_blockStep_inv ch n v block w Hblock Hinv Hw)
      as (Hinvw & new1 & Hp1 & Hnew1 & Hids1).
    destruct (IH (S n) w v') as (Hinv' & new2 & Hp2 & Hnew2 & Hids2); [| |done|done|].
    + by apply lookup_lt_Some in Hblock.
    + rewrite (drop_S _ _ _ Hblock) in Hdrop. by injection Hdrop.
    + split; [done|]. exists (new1 ++ new2). rewrite Hp2, Hp1, app_assoc.
      split_and!; [done | by apply Forall_app |].
      apply idsFrom_app; [done|]. rewrite Hp1, length_app in Hids2.
      replace (Z.of_nat (length (pages v)) + 1 + Z.of_nat (length new1))
        with (Z.of_nat (length (pages v) + length new1) + 1) by lia. done.
Qed.

Lemma calc_chapterStep_inv acc ch acc' :
  acc.2 = Z.of_nat (length acc.1) + 1 →
  chapterStep tm (effectiveCapacity tm) acc ch = Some acc' →
  acc'.2 = Z.of_nat (length acc'.1) + 1 ∧
  ∃ new, acc'.1 = acc.1 ++ new ∧
         Forall (pageOfChapter (pageBound tm) ch) new ∧
         idsFrom (Z.of_nat (length acc.1) + 1) new.
Proof.
  intros Hacc. unfold chapterStep.
  destruct (blocksLoop _ _ _ _ _ _) as [v|] eqn:Hv; [|done]. cbn [mbind option_bind].
  apply calc_blocksLoop_inv in Hv
    as (Hinv & new & Hp & Hnew & Hids); [|lia|done|].
  2: { unfold chapterInv. cbn. pose proof effectiveCapacity_pos.
       split_and!; [done | done | lia | done | lia]. }
  cbn in Hp, Hids. pose proof Hinv as (Hid & _).
  case_bool_decide as Hc; intros [= <-]; cbn.
  - rewrite Hid, length_app. cbn. split; [lia|].
    exists (new ++ [openPage ch v]). rewrite Hp, app_assoc. split_and!; [done | |].
    + apply Forall_app. split; [done|]. apply Forall_singleton.
      apply (openPage_pageOfChapter ch (length (chapter_blocks ch))); [done | done |].
      intros Hnil. rewrite Hnil in Hc. cbn in Hc. lia.
    + apply idsFrom_app; [done|]. apply idsFrom_cons; [|apply idsFrom_nil].
      cbn. rewrite Hid, Hp, length_app. lia.
  - split; [done|]. by exists new.
Qed.

Lemma calc_chaptersLoop_inv chapters :
  ∀ acc acc',
    acc.2 = Z.of_nat (length acc.1) + 1 →
    chaptersLoop tm (effectiveCapacity tm) acc chapters = Some acc' →
    ∃ groups,
      acc'.1 = acc.1 ++ concat groups ∧
      Forall2 (λ ch group, Forall (pageOfChapter (pageBound tm) ch) group)
        chapters groups ∧
      idsFrom (Z.of_nat (length acc.1) + 1) (concat groups).
Proof.
  induction chapters as [|ch chapters IH]; intros acc acc' Hacc.
  - cbn. intros [= <-]. exists []. cbn. rewrite app_nil_r.
    split_and!; [done | done | apply idsFrom_nil].
  - cbn [chaptersLoop].
    destruct (chapterStep tm (effectiveCapacity tm) acc ch) as [acc1|] eqn:H1; [|done].
    cbn [mbind option_bind]. intros Hrest.
    destruct (calc_chapterStep_inv acc ch acc1 Hacc H1) as (Hacc1 & new & Hp & Hnew & Hids).
    destruct (IH acc1 acc' Hacc1 Hrest) as (groups & Hp' & Hgroups & Hids').
    exists (new :: groups). cbn [concat]. rewrite Hp', Hp, app_assoc.
    split_and!; [done | by constructor |].
    apply idsFrom_app; [done|]. rewrite Hp, length_app in Hids'.
    replace (Z.of_nat (length acc.1) + 1 + Z.of_nat (length new))
      with (Z.of_nat (length acc.1 + length new) + 1) by lia. done.
Qed.

(** The pages of [calculatePages] come chapter by chapter. *)
Lemma calculatePages_groups book ps :
  calculatePages tm book = Some ps →
  ∃ groups,
    ps = concat groups ∧
    Forall2 (λ ch group, Forall (pageOfChapter (pageBound tm) ch) group) book groups ∧
    idsFrom 1 ps.
Proof.
  unfold calculatePages.
  destruct (chaptersLoop _ _ _ _) as [acc'|] eqn:Hloop; [|done]. cbn. intros [= <-].
  apply calc_chaptersLoop_inv in Hloop as (groups & Hp & Hgroups & Hids); [|done].
  cbn in Hp, Hids. exists groups. by rewrite Hp.
Qed.

Lemma calculatePages_pageOfBook book ps :
  calculatePages tm book = Some ps → Forall (pageOfBook tm book) ps.
Proof.
  intros (groups & -> & Hgroups & _)%calculatePages_groups.
  induction Hgroups as [|ch group book groups Hgroup _ IH]; [done|].
  cbn [concat]. apply Forall_app. split.
  - eapply Forall_impl; [|exact Hgroup]. intros p Hp. exists ch. split; [|done].
    by apply elem_of_cons; left.
  - eapply Forall_impl; [|exact IH]. intros p (ch' & Hch' & Hp). exists ch'.
    split; [|done]. by apply elem_of_cons; right.
Qed.

End PaginationCalculatorFacts.

(** X9.  The pages of [calculatePages] are numbered 1, 2, 3, ... in the order of
    the list. *)
Theorem calculatePages_page_ids (tm : TextMeasurer.t) (book : Book)
    (pages : list PaginationCalculator.Page) (i : nat) (p : PaginationCalculator.Page) :
  PaginationCalculator.calculatePages tm book = Some pages →
  pages !! i = Some p →
  PaginationCalculator.id p = Z.of_nat i + 1.
Proof.
  intros (groups & _ & _ & Hids)%calculatePages_groups Hp.
  rewrite (Hids i p Hp). lia.
Qed.

Lemma calculatePages_page_ids_witness :
  ∃ pages p,
    PaginationCalculator.calculatePages sampleMeasurer [sampleChapter] = Some pages ∧
    pages !! 0%nat = Some p ∧ PaginationCalculator.id p = 1.
Proof.
  eexists _, _. split_and!; [reflexivity | reflexivity |].
  eapply (calculatePages_page_ids sampleMeasurer [sampleChapter] _ 0); reflexivity.
Defined.

(** X10.  Every page of [calculatePages] carries the id of a chapter of the book
    and the id of a block of that chapter, has a content that is not the
    empty array, counts in [totalCharacters] the characters of its content,
    and has a character range of that length. *)
Theorem calculatePages_page_shape (tm : TextMeasurer.t) (book : Book)
    (pages : list PaginationCalculator.Page) (i : nat) (p : PaginationCalculator.Page) :
  PaginationCalculator.calculatePages tm book = Some pages →
  pages !! i = Some p →
  (∃ ch b, ch ∈ book ∧ b ∈ chapter_blocks ch ∧
     PaginationCalculator.chapterId (PaginationCalculator.position p) = chapter_id ch ∧
     PaginationCalculator.blockId (PaginationCalculator.position p) = block_id b) ∧
  PaginationCalculator.content p ≠ [] ∧
  PaginationCalculator.totalCharacters p = Z.of_nat (length (pageText p)) ∧
  0 ≤ PaginationCalculator.characterStart (PaginationCalculator.position p) ∧
  PaginationCalculator.characterEnd (PaginationCalculator.position p) =
    PaginationCalculator.characterStart (PaginationCalculator.position p) +
    PaginationCalculator.totalCharacters p.
Proof.
  intros Hpages%calculatePages_pageOfBook Hp.
  rewrite Forall_lookup in Hpages.
  destruct (Hpages i p Hp) as (ch & Hch & Hc & (b & Hb & Hbid) & Hne & Htot & Hs & He & _).
  split_and!; try done. by exists ch, b.
Qed.

Lemma calculatePages_page_shape_witness :
  ∃ pages p,
    PaginationCalculator.calculatePages sampleMeasurer [sampleChapter] = Some pages ∧
    pages !! 0%nat = Some p ∧
    PaginationCalculator.totalCharacters p = Z.of_nat (length (pageText p)).
Proof.
  eexists _, _. split_and!; [reflexivity | reflexivity |].
  eapply (calculatePages_page_shape sampleMeasurer [sampleChapter] _ 0); reflexivity.
Defined.

(** X11.  No page of [calculatePages] holds more characters than the capacity the
    calculator works with (the measured capacity, or 1000 when that is not
    positive), except that with a capacity of 1 a page may hold 2. *)
Theorem calculatePages_page_capacity (tm : TextMeasurer.t) (book : Book)
    (pages : list PaginationCalculator.Page) (i : nat) (p : PaginationCalculator.Page) :
  PaginationCalculator.calculatePages tm book = Some pages →
  pages !! i = Some p →
  Z.of_nat (length (pageText p)) ≤ Z.max 2 (PaginationCalculator.effectiveCapacity tm).
Proof.
  intros Hpages%calculatePages_pageOfBook Hp.
  rewrite Forall_lookup in Hpages.
  destruct (Hpages i p Hp) as (ch & _ & _ & _ & _ & Htot & _ & _ & Hbound).
  unfold pageBound in Hbound. lia.
Qed.

Lemma calculatePages_page_capacity_witness :
  ∃ pages p,
    PaginationCalculator.calculatePages sampleMeasurer [sampleChapter] = Some pages ∧
    pages !! 0%nat = Some p ∧
    Z.of_nat (length (pageText p)) ≤ 20.
Proof.
  eexists _, _. split_and!; [reflexivity | reflexivity |].
  eapply (calculatePages_page_capacity sampleMeasurer [sampleChapter] _ 0); reflexivity.
Defined.

(** X12.  [calculatePages] ends for every measurer and every book, and the
    contents of its pages, in order, are the texts of the blocks of the
    book, in order: nothing is lost, repeated or added. *)
Theorem calculatePages_covers_book (tm : TextMeasurer.t) (book : Book) :
  ∃ pages,
    PaginationCalculator.calculatePages tm book = Some pages ∧
    pagesText pages = bookText book.
Proof. apply calculatePages_coverage. Qed.

Lemma foldl_block_lengths (blocks : list Block) :
  ∀ a, foldl (λ sum block, sum + Z.of_nat (length (block_text block))) a blocks =
       a + Z.of_nat (length (b ← blocks; block_text b)).
Proof.
  induction blocks as [|b blocks IH]; intros a; cbn; [lia|].
  rewrite IH, length_app. lia.
Qed.

Lemma bookText_blocks (book : Book) :
  bookText book = (b ← (ch ← book; chapter_blocks ch); block_text b).
Proof.
  unfold bookText. induction book as [|ch book IH]; [done|].
  cbn. by rewrite bind_app, IH.
Qed.

Lemma sumZ_totalCharacters (pages : list PaginationCalculator.Page) :
  Forall (λ p, PaginationCalculator.totalCharacters p = Z.of_nat (length (pageText p)))
    pages →
  sumZ (PaginationCalculator.totalCharacters <$> pages) = Z.of_nat (length (pagesText pages)).
Proof.
  induction 1 as [|p pages Hp _ IH]; [done|].
  unfold pagesText in *. cbn. rewrite length_app, Hp. unfold sumZ in IH. lia.
Qed.

(** X13.  The character total that [getSummary] computes from the book is the sum
    of the [totalCharacters] of the pages that [calculatePages] made. *)
Theorem getSummary_totalCharacters (tm : TextMeasurer.t) (book : Book)
    (pages : list PaginationCalculator.Page) :
  PaginationCalculator.calculatePages tm book = Some pages →
  PaginationCalculator.summaryTotalCharacters (PaginationCalculator.getSummary book pages)
    = sumZ (PaginationCalculator.totalCharacters <$> pages).
Proof.
  intros Hpages.
  destruct (calculatePages_coverage tm book) as (pages' & Hpages' & Htext).
  rewrite Hpages in Hpages'. injection Hpages' as <-.
  rewrite sumZ_totalCharacters.
  - rewrite Htext. cbn. by rewrite foldl_block_lengths, bookText_blocks.
  - apply (calculatePages_pageOfBook tm) in Hpages.
    eapply Forall_impl; [|exact Hpages]. by intros p (ch & _ & _ & _ & _ & Htot & _).
Qed.

Lemma getSummary_totalCharacters_witness :
  PaginationCalculator.summaryTotalCharacters
    (PaginationCalculator.getSummary [sampleChapter]
       (default [] (PaginationCalculator.calculatePages sampleMeasurer [sampleChapter])))
  = 3.
Proof.
  rewrite (getSummary_totalCharacters sampleMeasurer [sampleChapter]); reflexivity.
Defined.

(** ** The character ranges of [splitLargeBlock] *)

Lemma splitLargeBlock_loop_ranges tm chapter block whole fuel :
  ∀ rem start pid ps,
    0 ≤ start →
    drop (Z.to_nat start) whole = rem →
    PaginationCalculator.splitLargeBlock_loop fuel tm chapter block rem start pid = Some ps →
    tiles start (start + Z.of_nat (length rem)) ps ∧
    Forall (sliceOfBlock chapter block whole) ps.
Proof.
  induction fuel as [|fuel IH]; intros rem start pid ps Hstart Hrem.
  { cbn. case_bool_decide as Hlen; [done|]. intros [= <-]. cbn. split; [lia | done]. }
  cbn -[TextMeasurer.fitTextToPage]. case_bool_decide as Hlen.
  2: { intros [= <-]. cbn. split; [lia | done]. }
  destruct (fitTextToPage_cut tm rem) as (k & -> & _).
  assert (Hslice : ∀ n : nat, (1 ≤ n ≤ length rem)%nat →
            substring whole start (start + Z.of_nat n) = take n rem ∧
            drop (Z.to_nat (start + Z.of_nat n)) whole = drop n rem).
  { intros n Hn. unfold substring. rewrite Hrem.
    replace (Z.to_nat (start + Z.of_nat n - start)) with n by lia. split; [done|].
    rewrite <- Hrem, drop_drop. f_equal. lia. }
  case_bool_decide as Hf.
  - destruct (PaginationCalculator.splitLargeBlock_loop fuel tm _ _ (drop 1 rem) _ _)
      as [rest|] eqn:Hrest; [|done].
    cbn [mbind option_bind]. intros [= <-].
    destruct (Hslice 1%nat ltac:(lia)) as [Hs Hd].
    apply IH in Hrest as [Htiles Hall]; [|lia|exact Hd].
    rewrite length_drop in Htiles. split.
    + cbn. split_and!; [done | lia |].
      replace (start + 1 + Z.of_nat (length rem - 1)) with (start + Z.of_nat (length rem))
        in Htiles by lia. done.
    + constructor; [|done]. unfold sliceOfBlock. cbn. by rewrite <- Hs.
  - rewrite length_take in Hf.
    destruct (PaginationCalculator.splitLargeBlock_loop fuel tm _ _ (drop k rem) _ _)
      as [rest|] eqn:Hrest; [|done].
    cbn [mbind option_bind]. intros [= <-].
    rewrite length_take in *.
    destruct (Hslice (k `min` length rem)%nat ltac:(lia)) as [Hs Hd].
    assert (Htake : take (k `min` length rem) rem = take k rem).
    { destruct (decide (k ≤ length rem)%nat).
      - by rewrite Nat.min_l.
      - rewrite Nat.min_r by lia. by rewrite !take_ge by lia. }
    assert (Hdrop : drop (k `min` length rem) rem = drop k rem).
    { destruct (decide (k ≤ length rem)%nat).
      - by rewrite Nat.min_l.
      - rewrite Nat.min_r by lia. by rewrite !drop_ge by lia. }
    rewrite Htake in Hs. rewrite Hdrop in Hd.
    apply IH in Hrest as [Htiles Hall]; [|lia|exact Hd].
    rewrite length_drop in Htiles. split.
    + cbn. split_and!; [done | lia |].
      replace (start + Z.of_nat (k `min` length rem) + Z.of_nat (length rem - k))
        with (start + Z.of_nat (length rem)) in Htiles by lia. done.
    + constructor; [|done]. unfold sliceOfBlock. cbn. by rewrite <- Hs.
Qed.

(** X15.  The pages that [splitLargeBlock] makes of a block carry the ids of the
    chapter and of the block; their character ranges start at 0, follow one
    another without gap or overlap, and end at the length of the block
    text; and each page holds exactly the characters of its range. *)
Theorem splitLargeBlock_ranges (tm : TextMeasurer.t) (chapter : Chapter) (block : Block)
    (startPageId : Z) (pages : list PaginationCalculator.Page) :
  PaginationCalculator.splitLargeBlock tm chapter block startPageId = Some pages →
  tiles 0 (Z.of_nat (length (block_text block))) pages ∧
  Forall (sliceOfBlock (chapter_id chapter) (block_id block) (block_text block)) pages.
Proof.
  unfold PaginationCalculator.splitLargeBlock. intros H.
  by apply (splitLargeBlock_loop_ranges _ _ _ (block_text block)) in H.
Qed.

Lemma splitLargeBlock_ranges_witness :
  ∃ pages,
    PaginationCalculator.splitLargeBlock sampleMeasurer sampleChapter
      {| block_id := 1; block_type := paragraph; block_text := replicate 30 97%N |} 1
      = Some pages ∧
    tiles 0 30 pages.
Proof.
  eexists. split; [reflexivity|].
  eapply (splitLargeBlock_ranges sampleMeasurer sampleChapter
            {| block_id := 1; block_type := paragraph; block_text := replicate 30 97%N |} 1).
  reflexivity.
Defined.

Lemma findPageByPosition_from_tiles chapter block text pages :
  ∀ from to k characterPosition,
    tiles from to pages →
    Forall (sliceOfBlock chapter block text) pages →
    from ≤ characterPosition < to →
    ∃ (i : nat) p,
      PaginationCalculator.findPageByPosition_from k pages chapter block characterPosition
        = k + Z.of_nat i ∧
      pages !! i = Some p ∧
      from ≤ PaginationCalculator.characterStart (PaginationCalculator.position p) ∧
      PaginationCalculator.characterStart (PaginationCalculator.position p)
        ≤ characterPosition
        < PaginationCalculator.characterEnd (PaginationCalculator.position p).
Proof.
  induction pages as [|p pages IH]; intros from to k c Htiles Hall Hc.
  { cbn in Htiles. lia. }
  destruct Htiles as (Hstart & Hend & Htiles).
  apply list.Forall_cons in Hall as [(Hch & Hb & _) Hall].
  cbn [PaginationCalculator.findPageByPosition_from].
  destruct (PaginationCalculator.positionMatches chapter block c p) eqn:Hm.
  - exists 0%nat, p. apply positionMatches_spec in Hm.
    split_and!; [lia | done | lia | lia | lia].
  - assert (Hge : PaginationCalculator.characterEnd (PaginationCalculator.position p) ≤ c).
    { destruct (Z.le_gt_cases
                  (PaginationCalculator.characterEnd (PaginationCalculator.position p)) c)
        as [|Hlt]; [done|].
      assert (PaginationCalculator.positionMatches chapter block c p = true); [|congruence].
      apply positionMatches_spec. split_and!; [done | done | lia | lia]. }
    destruct (IH _ to (k + 1) c Htiles Hall ltac:(lia)) as (i & q & Hi & Hq & Hfrom & Hr).
    exists (S i), q. split_and!; [lia | done | lia | lia | lia].
Qed.

(** X16.  On the pages that [splitLargeBlock] makes of a block, [findPageByPosition]
    finds, for every character position of the block, the page whose range
    holds that position; the character is in that page's content, at the
    position counted from the start of the range. *)
Theorem splitLargeBlock_findPageByPosition (tm : TextMeasurer.t) (chapter : Chapter)
    (block : Block) (startPageId : Z) (pages : list PaginationCalculator.Page)
    (characterPosition : nat) :
  PaginationCalculator.splitLargeBlock tm chapter block startPageId = Some pages →
  (characterPosition < length (block_text block))%nat →
  ∃ (i : nat) p,
    PaginationCalculator.findPageByPosition pages (chapter_id chapter) (block_id block)
      (Z.of_nat characterPosition) = Z.of_nat i ∧
    pages !! i = Some p ∧
    PaginationCalculator.characterStart (PaginationCalculator.position p)
      ≤ Z.of_nat characterPosition
      < PaginationCalculator.characterEnd (PaginationCalculator.position p) ∧
    pageText p !! (characterPosition -
                   Z.to_nat (PaginationCalculator.characterStart
                               (PaginationCalculator.position p)))%nat
      = block_text block !! characterPosition.
Proof.
  unfold PaginationCalculator.splitLargeBlock. intros H Hc.
  apply (splitLargeBlock_loop_ranges _ _ _ (block_text block)) in H as [Htiles Hall];
    [|done|done].
  destruct (findPageByPosition_from_tiles _ _ _ pages 0 _ 0 (Z.of_nat characterPosition)
              Htiles Hall ltac:(lia)) as (i & p & Hi & Hp & Hfrom & Hr).
  exists i, p. unfold PaginationCalculator.findPageByPosition.
  split_and!; [lia | done | lia | lia |].
  rewrite Forall_lookup in Hall. destruct (Hall i p Hp) as (_ & _ & Hcontent).
  unfold pageText. rewrite Hcontent. cbn [concat]. rewrite app_nil_r. unfold substring.
  rewrite lookup_take_lt by lia. rewrite lookup_drop. f_equal. lia.
Qed.

Lemma splitLargeBlock_findPageByPosition_witness :
  ∃ pages (i : nat),
    PaginationCalculator.splitLargeBlock sampleMeasurer sampleChapter
      {| block_id := 1; block_type := paragraph; block_text := replicate 30 97%N |} 1
      = Some pages ∧
    PaginationCalculator.findPageByPosition pages 1 1 25 = Z.of_nat i.
Proof.
  eexists.
  destruct (splitLargeBlock_findPageByPosition sampleMeasurer sampleChapter
              {| block_id := 1; block_type := paragraph; block_text := replicate 30 97%N |}
              1 _ 25 eq_refl) as (i & p & Hi & _); [vm_compute; lia|].
  exists i. split; [reflexivity | exact Hi].
Defined.

(** ** Navigation and summary *)

(** X17.  The page index of [getPaginationState] is the requested index clamped
    to the list: when there is a page, it designates one that [getPageContent]
    returns, and a requested index that designates a page is kept; with no
    page it is 0, for which [getPageContent] returns [null]. *)
Theorem getPaginationState_index (tm : TextMeasurer.t)
    (pages : list PaginationCalculator.Page) (requested : Z) :
  let state := PaginationCalculator.getPaginationState tm pages requested in
  PaginationCalculator.totalPages state = Z.of_nat (length pages) ∧
  (pages ≠ [] →
     is_Some (PaginationCalculator.getPageContent pages
                (PaginationCalculator.currentPageIndex state))) ∧
  (is_Some (PaginationCalculator.getPageContent pages requested) →
     PaginationCalculator.currentPageIndex state = requested) ∧
  (pages = [] →
     PaginationCalculator.currentPageIndex state = 0 ∧
     PaginationCalculator.getPageContent pages
       (PaginationCalculator.currentPageIndex state) = None).
Proof.
  cbv zeta. unfold PaginationCalculator.getPaginationState,
    PaginationCalculator.getPageContent. cbn.
  split_and!; [done | | |].
  - intros Hne. assert (0 < length pages)%nat by (destruct pages; [done | cbn; lia]).
    destruct (Z.ltb_spec (Z.max 0 (Z.min requested (Z.of_nat (length pages) - 1))) 0);
      [lia|].
    destruct (Z.leb_spec (Z.of_nat (length pages))
                (Z.max 0 (Z.min requested (Z.of_nat (length pages) - 1)))); [lia|].
    cbn. apply lookup_lt_is_Some_2. lia.
  - destruct (Z.ltb_spec requested 0); [by intros [? [=]]|].
    destruct (Z.leb_spec (Z.of_nat (length pages)) requested); [by intros [? [=]]|].
    intros _. lia.
  - intros ->. cbn. split; [lia|]. by destruct (_ || _).
Qed.

(** X18.  For a current index that designates a page, [hasNextPage] and
    [hasPreviousPage] hold exactly when [getPageContent] returns a page for
    the next and for the previous index. *)
Theorem hasNextPage_getPageContent (pages : list PaginationCalculator.Page)
    (currentPageIndex : Z) :
  is_Some (PaginationCalculator.getPageContent pages currentPageIndex) →
  (PaginationCalculator.hasNextPage pages currentPageIndex = true ↔
     is_Some (PaginationCalculator.getPageContent pages (currentPageIndex + 1))) ∧
  (PaginationCalculator.hasPreviousPage currentPageIndex = true ↔
     is_Some (PaginationCalculator.getPageContent pages (currentPageIndex - 1))).
Proof.
  unfold PaginationCalculator.getPageContent, PaginationCalculator.hasNextPage,
    PaginationCalculator.hasPreviousPage.
  destruct (Z.ltb_spec currentPageIndex 0); [by intros [? [=]]|].
  destruct (Z.leb_spec (Z.of_nat (length pages)) currentPageIndex); [by intros [? [=]]|].
  intros _. rewrite !Z.ltb_lt. split.
  - destruct (Z.ltb_spec (currentPageIndex + 1) 0); [lia|].
    destruct (Z.leb_spec (Z.of_nat (length pages)) (currentPageIndex + 1)); cbn.
    + split; [lia | by intros [? [=]]].
    + split; [|lia]. intros _. apply lookup_lt_is_Some_2. lia.
  - destruct (Z.ltb_spec (currentPageIndex - 1) 0); cbn.
    + split; [lia | by intros [? [=]]].
    + destruct (Z.leb_spec (Z.of_nat (length pages)) (currentPageIndex - 1)); [lia|].
      split; [|lia]. intros _. apply lookup_lt_is_Some_2. lia.
Qed.

Lemma hasNextPage_getPageContent_witness :
  PaginationCalculator.hasNextPage samplePositions 0 = true ↔
  is_Some (PaginationCalculator.getPageContent samplePositions (0 + 1)).
Proof.
  apply (hasNextPage_getPageContent samplePositions 0). by eexists.
Defined.

(** *** The pages of a chapter *)

Lemma getChapterStartPage_from_segment (c : N) (pre g post : list PaginationCalculator.Page) :
  Forall (λ p, PaginationCalculator.chapterId (PaginationCalculator.position p) ≠ c) pre →
  Forall (λ p, PaginationCalculator.chapterId (PaginationCalculator.position p) = c) g →
  Forall (λ p, PaginationCalculator.chapterId (PaginationCalculator.position p) ≠ c) post →
  filter (λ p, PaginationCalculator.chapterId (PaginationCalculator.position p) = c)
    (pre ++ g ++ post) = g ∧
  ∀ k, PaginationCalculator.getChapterStartPage_from k (pre ++ g ++ post) c =
         if bool_decide (g = []) then 0 else k + Z.of_nat (length pre).
Proof.
  intros Hpre Hg Hpost.
  assert (Hfpost : ∀ l, Forall (λ p, PaginationCalculator.chapterId
                                       (PaginationCalculator.position p) ≠ c) l →
            filter (λ p, PaginationCalculator.chapterId (PaginationCalculator.position p) = c)
              l = [] ∧
            ∀ k, PaginationCalculator.getChapterStartPage_from k l c = 0).
  { induction 1 as [|p l Hp _ [IH1 IH2]]; [done|]. split.
    - rewrite filter_cons_False by done. done.
    - intros k. cbn. apply N.eqb_neq in Hp. rewrite Hp. apply IH2. }
  assert (Hfg : filter (λ p, PaginationCalculator.chapterId
                               (PaginationCalculator.position p) = c) g = g).
  { clear -Hg. induction Hg as [|p l Hp _ IH]; [done|].
    rewrite filter_cons_True by done. by rewrite IH. }
  induction Hpre as [|p pre Hp _ [IH1 IH2]].
  - cbn [app length]. rewrite list.filter_app, Hfg, (proj1 (Hfpost post Hpost)), app_nil_r.
    split; [done|]. intros k. destruct Hg as [|q g Hq Hg].
    + cbn [app]. rewrite bool_decide_eq_true_2 by done. apply (Hfpost post Hpost).
    + rewrite bool_decide_eq_false_2 by done. cbn. apply N.eqb_eq in Hq. rewrite Hq. lia.
  - cbn [app]. rewrite filter_cons_False by done. split; [done|].
    intros k. cbn [PaginationCalculator.getChapterStartPage_from].
    apply N.eqb_neq in Hp. rewrite Hp, IH2. case_bool_decide; [done|]. cbn. lia.
Qed.

Lemma groups_segment (bound : Z) (book : list Chapter)
    (groups : list (list PaginationCalculator.Page)) :
  Forall2 (λ ch group, Forall (pageOfChapter bound ch) group) book groups →
  NoDup (chapter_id <$> book) →
  ∀ (k : nat) ch, book !! k = Some ch →
    ∃ pre g post,
      concat groups = pre ++ g ++ post ∧
      Forall (λ p, PaginationCalculator.chapterId (PaginationCalculator.position p)
                     ≠ chapter_id ch) pre ∧
      Forall (λ p, PaginationCalculator.chapterId (PaginationCalculator.position p)
                     = chapter_id ch) g ∧
      Forall (λ p, PaginationCalculator.chapterId (PaginationCalculator.position p)
                     ≠ chapter_id ch) post.
Proof.
  assert (Hothers : ∀ book groups c,
            Forall2 (λ ch group, Forall (pageOfChapter bound ch) group) book groups →
            c ∉ chapter_id <$> book →
            Forall (λ p, PaginationCalculator.chapterId (PaginationCalculator.position p) ≠ c)
              (concat groups)).
  { intros bk gs c H. induction H as [|ch0 g0 bk gs Hg0 _ IH]; intros Hc; [done|].
    cbn [concat]. rewrite fmap_cons, not_elem_of_cons in Hc. destruct Hc as [Hc0 Hc].
    apply Forall_app. split; [|by apply IH].
    eapply Forall_impl; [|exact Hg0]. intros p (Hp & _). congruence. }
  induction 1 as [|ch0 g0 book groups Hg0 Hgroups IH]; intros Hnodup k ch Hk; [done|].
  rewrite fmap_cons in Hnodup. apply list.NoDup_cons in Hnodup as [Hfresh Hnodup].
  destruct k as [|k]; cbn in Hk.
  - simplify_eq. exists [], g0, (concat groups). split_and!; [done | done | |].
    + eapply Forall_impl; [|exact Hg0]. by intros p (Hp & _).
    + by apply (Hothers book).
  - destruct (IH Hnodup k ch Hk) as (pre & g & post & Hc & Hpre & Hg & Hpost).
    exists (g0 ++ pre), g, post. cbn [concat]. rewrite Hc, <- app_assoc.
    split_and!; [done | | done | done].
    apply Forall_app. split; [|done].
    eapply Forall_impl; [|exact Hg0]. intros p (Hp & _). rewrite Hp. intros Heq.
    apply Hfresh. rewrite Heq. apply list_elem_of_fmap_2. by eapply list_elem_of_lookup_2.
Qed.

(** X14.  When the chapters of the book have distinct ids, the pages that
    [calculatePages] makes for a chapter are consecutive: they are exactly
    the pages from the [startPage] that [getSummary] reports for the
    chapter on, as many as its [pageCount]. *)
Theorem getSummary_chapter_pages (tm : TextMeasurer.t) (book : Book)
    (pages : list PaginationCalculator.Page) (k : nat)
    (info : PaginationCalculator.ChapterInfo) :
  PaginationCalculator.calculatePages tm book = Some pages →
  NoDup (chapter_id <$> book) →
  PaginationCalculator.chaptersInfo (PaginationCalculator.getSummary book pages) !! k
    = Some info →
  ∀ (i : nat) p, pages !! i = Some p →
    (PaginationCalculator.chapterId (PaginationCalculator.position p)
       = PaginationCalculator.info_chapterId info ↔
     PaginationCalculator.startPage info ≤ Z.of_nat i
       < PaginationCalculator.startPage info + PaginationCalculator.pageCount info).
Proof.
  intros (groups & -> & Hgroups & _)%calculatePages_groups Hnodup Hinfo i p Hp.
  cbn in Hinfo. rewrite list_lookup_fmap in Hinfo.
  destruct (book !! k) as [ch|] eqn:Hk; [|done]. cbn in Hinfo. injection Hinfo as <-.
  cbn [PaginationCalculator.info_chapterId PaginationCalculator.startPage
       PaginationCalculator.pageCount].
  destruct (groups_segment _ _ _ Hgroups Hnodup k ch Hk)
    as (pre & g & post & Hc & Hpre & Hg & Hpost).
  rewrite Hc in *.
  destruct (getChapterStartPage_from_segment (chapter_id ch) pre g post Hpre Hg Hpost)
    as [-> Hstart].
  unfold PaginationCalculator.getChapterStartPage. rewrite Hstart.
  rewrite Forall_lookup in Hpre, Hg, Hpost.
  apply lookup_app_Some in Hp as [Hp | [Hi Hp]].
  { specialize (Hpre _ _ Hp). apply lookup_lt_Some in Hp.
    split; [done|]. case_bool_decide as Hnil; [rewrite Hnil; cbn; lia | lia]. }
  apply lookup_app_Some in Hp as [Hp | [Hi' Hp]].
  { specialize (Hg _ _ Hp). apply lookup_lt_Some in Hp.
    split; [|done]. intros _.
    rewrite bool_decide_eq_false_2; [lia|]. intros ->. cbn in Hp. lia. }
  specialize (Hpost _ _ Hp). split; [done|].
  case_bool_decide as Hnil; [rewrite Hnil; cbn; lia | lia].
Qed.

Lemma getSummary_chapter_pages_witness :
  ∃ pages,
    PaginationCalculator.calculatePages sampleMeasurer twoChapterBook = Some pages ∧
    ∀ (i : nat) p, pages !! i = Some p →
      (PaginationCalculator.chapterId (PaginationCalculator.position p) = 2%N ↔
       1 ≤ Z.of_nat i < 1 + 1).
Proof.
  eexists. split; [vm_compute; reflexivity|].
  apply (getSummary_chapter_pages sampleMeasurer twoChapterBook _ 1
           {| PaginationCalculator.info_chapterId := 2;
              PaginationCalculator.info_title := [50]%N;
              PaginationCalculator.startPage := 1;
              PaginationCalculator.pageCount := 1 |}).
  - by vm_compute.
  - vm_compute. apply list.NoDup_cons. split; [|apply NoDup_singleton].
    intros H. apply list_elem_of_singleton in H. done.
  - by vm_compute.
Defined.

(** ** Numbers in the ids of the structured blocks *)

Lemma digitsFrom_spec fuel :
  ∀ n, (N.log2 n ≤ N.of_nat fuel)%N →
    Forall (λ d, (d < 10)%N) (digitsFrom fuel n) ∧
    foldr (λ d acc, (d + 10 * acc)%N) 0%N (digitsFrom fuel n) = n ∧
    (∃ d ds, digitsFrom fuel n = ds ++ [d] ∧ (n ≠ 0%N → d ≠ 0%N)) ∧
    (n ≠ 0%N → 10 ^ N.of_nat (length (digitsFrom fuel n) - 1) ≤ n)%N.
Proof.
  induction fuel as [|fuel IH]; intros n Hn.
  - assert (n < 2)%N as Hlt.
    { destruct (decide (n = 0%N)) as [->|]; [lia|].
      pose proof (N.log2_spec n ltac:(lia)) as [_ H].
      replace (N.log2 n) with 0%N in H by lia. cbn in H. lia. }
    cbn [digitsFrom]. rewrite N.mod_small by lia. split_and!.
    + apply Forall_singleton. lia.
    + cbn. lia.
    + exists n, []. done.
    + cbn. lia.
  - cbn [digitsFrom]. destruct (N.ltb_spec n 10) as [Hlt|Hge].
    + split_and!; [apply Forall_singleton; lia | cbn; lia | by exists n, [] | cbn; lia].
    + assert (N.log2 (n `div` 10) ≤ N.of_nat fuel)%N as Hdiv.
      { assert (N.log2 (n `div` 10) ≤ N.log2 (n `div` 2 ^ 1))%N as H.
        { apply N.log2_le_mono, N.div_le_compat_l. cbn. lia. }
        rewrite <- N.shiftr_div_pow2, N.log2_shiftr in H. lia. }
      destruct (IH _ Hdiv) as (Hall & Hval & (d & ds & Hds & Hd) & Hlen).
      assert (n `div` 10 ≠ 0)%N as Hq.
      { pose proof (N.div_mod n 10 ltac:(lia)).
        pose proof (N.mod_upper_bound n 10 ltac:(lia)). lia. }
      split_and!.
      * constructor; [|done]. apply N.mod_upper_bound. lia.
      * cbn [foldr]. rewrite Hval. pose proof (N.div_mod n 10 ltac:(lia)). lia.
      * exists d, ((n `mod` 10)%N :: ds). rewrite Hds. split; [done|].
        intros _. by apply Hd.
      * intros _. specialize (Hlen Hq). cbn [length].
        assert (0 < length (digitsFrom fuel (n `div` 10)))%nat
          by (rewrite Hds, length_app; cbn; lia).
        replace (N.of_nat (S (length (digitsFrom fuel (n `div` 10))) - 1))
          with (N.succ (N.of_nat (length (digitsFrom fuel (n `div` 10)) - 1))) by lia.
        rewrite N.pow_succ_r'. pose proof (N.div_mod n 10 ltac:(lia)) as Hdm.
        revert Hlen Hdm.
        generalize (10 ^ N.of_nat (length (digitsFrom fuel (n `div` 10)) - 1))%N
          (n `div` 10)%N (n `mod` 10)%N.
        intros. lia.
Qed.

Lemma decimal_spec n :
  Forall (λ c, isDigit c = true) (decimal n) ∧
  digitsValue (decimal n) = n ∧
  (∃ c rest, decimal n = c :: rest ∧ (n ≠ 0%N → (49 ≤ c ≤ 57)%N)) ∧
  (n ≠ 0%N → 10 ^ N.of_nat (length (decimal n) - 1) ≤ n)%N.
Proof.
  unfold decimal.
  destruct (digitsFrom_spec (N.to_nat (N.log2 n)) n ltac:(lia))
    as (Hall & Hval & (d & ds & Hds & Hd) & Hlen).
  split_and!.
  - apply Forall_fmap, Forall_reverse. eapply Forall_impl; [|exact Hall].
    intros c Hc. cbn beta in Hc. unfold isDigit, digitChar.
    apply andb_true_iff. split; apply N.leb_le; lia.
  - unfold digitsValue. etransitivity; [|exact Hval].
    generalize (digitsFrom (N.to_nat (N.log2 n)) n) as l. clear.
    induction l as [|d l IH]; [done|].
    rewrite reverse_cons, fmap_app, foldl_app. cbn [fmap list_fmap foldl foldr].
    rewrite IH. unfold digitChar. lia.
  - rewrite Hds, reverse_app. cbn. eexists _, _. split; [reflexivity|].
    intros Hn. specialize (Hd Hn). unfold digitChar.
    assert (d < 10)%N; [|lia].
    rewrite Hds in Hall. apply Forall_app in Hall as [_ Hall].
    apply list.Forall_cons in Hall as [Hall _]. exact Hall.
  - intros Hn. rewrite length_fmap, length_reverse. by apply Hlen.
Qed.

Lemma leadingDigits_app digits rest :
  Forall (λ c, isDigit c = true) digits →
  leadingDigits (digits ++ rest) = digits ++ leadingDigits rest.
Proof.
  induction 1 as [|c digits Hc _ IH]; [done|]. cbn. by rewrite Hc, IH.
Qed.

Lemma roundToDouble_small n : (n < 2 ^ 53)%N → roundToDouble n = n.
Proof.
  intros Hn. unfold roundToDouble.
  assert (N.log2 n - 52 = 0)%N as ->; [|done].
  destruct (decide (n = 0%N)) as [->|]; [done|].
  assert (N.log2 n < 53)%N; [|lia].
  apply N.log2_lt_pow2; lia.
Qed.

Lemma roundToDouble_nonzero n : n ≠ 0%N → roundToDouble n ≠ 0%N.
Proof.
  intros Hn. unfold roundToDouble.
  destruct (N.eqb_spec (N.log2 n - 52) 0) as [|He]; [done|].
  set (e := (N.log2 n - 52)%N) in *.
  assert (N.shiftr n e ≠ 0%N) as Hq.
  { rewrite N.shiftr_div_pow2.
    pose proof (N.log2_spec n ltac:(lia)) as [Hlo _].
    assert (2 ^ e ≤ n)%N.
    { etransitivity; [|exact Hlo]. apply N.pow_le_mono_r; lia. }
    assert (0 < 2 ^ e)%N by (apply N.neq_0_lt_0, N.pow_nonzero; lia).
    pose proof (N.div_le_lower_bound n (2 ^ e) 1 ltac:(lia) ltac:(lia)). lia. }
  rewrite N.shiftl_mul_pow2.
  assert (2 ^ e ≠ 0)%N by (apply N.pow_nonzero; lia).
  repeat destruct (_ <? _)%N; try destruct (N.even _); lia.
Qed.

Lemma digitsValue_nonzero c rest :
  (49 ≤ c ≤ 57)%N → digitsValue (c :: rest) ≠ 0%N.
Proof.
  intros Hc. unfold digitsValue. cbn [foldl].
  assert (10 * 0 + (c - 48) ≠ 0)%N as Hacc by lia.
  revert Hacc. generalize (10 * 0 + (c - 48))%N as acc.
  induction rest as [|d rest IH]; intros acc Hacc; [done|].
  cbn [foldl]. apply IH. lia.
Qed.

(** A string that starts with a digit from 1 to 9 is read as a number that
    is not 0. *)
Lemma parseInt_nonzero c rest :
  (49 ≤ c ≤ 57)%N → ∃ m, parseInt (c :: rest) = Some m ∧ m ≠ 0%N.
Proof.
  intros Hc. unfold parseInt. cbn [leadingDigits].
  assert (isDigit c = true) as ->.
  { unfold isDigit. apply andb_true_iff. split; apply N.leb_le; lia. }
  eexists. split; [reflexivity|]. by apply roundToDouble_nonzero, digitsValue_nonzero.
Qed.

Lemma significandAt_value x e s :
  significandAt x e = Some s → roundToDouble (s * 10 ^ e) = x.
Proof.
  unfold significandAt.
  destruct (N.eqb_spec (roundToDouble (x `div` 10 ^ e * 10 ^ e)) x) as [Hlo|Hlo];
    destruct (N.eqb_spec (roundToDouble ((x `div` 10 ^ e + 1) * 10 ^ e)) x) as [Hhi|Hhi];
    cbn [andb]; intros [= <-]; try done.
  repeat destruct (_ <? _)%N; try destruct (N.even _); done.
Qed.

Lemma shortestAmong_nonzero x exponents s e :
  x ≠ 0%N → shortestAmong x exponents = Some (s, e) → s ≠ 0%N.
Proof.
  intros Hx. induction exponents as [|e0 rest IH]; [done|]. cbn [shortestAmong].
  destruct (significandAt x e0) as [s0|] eqn:Hs0; [|done].
  intros [= <- <-] ->. apply significandAt_value in Hs0. by cbn in Hs0.
Qed.

Lemma withoutTrailingZeros_nonzero fuel :
  ∀ s e, s ≠ 0%N → (withoutTrailingZeros fuel s e).1 ≠ 0%N.
Proof.
  induction fuel as [|fuel IH]; intros s e Hs; [done|]. cbn [withoutTrailingZeros].
  destruct (N.ltb_spec 0 s); [|lia]. cbn [andb].
  destruct (N.eqb_spec (s `mod` 10) 0) as [Hmod|]; [|done].
  apply IH. pose proof (N.div_mod s 10 ltac:(lia)). lia.
Qed.

Lemma shortestDigits_nonzero x : x ≠ 0%N → (shortestDigits x).1 ≠ 0%N.
Proof.
  intros Hx. unfold shortestDigits. destruct (_ <? _)%N; [done|].
  destruct (shortestAmong _ _) as [[s e]|] eqn:Hs; [|done].
  apply withoutTrailingZeros_nonzero. by eapply shortestAmong_nonzero.
Qed.

(** A number that is not 0 is printed with a digit from 1 to 9 in front. *)
Lemma numberToString_head x :
  x ≠ 0%N → ∃ c rest, numberToString x = c :: rest ∧ (49 ≤ c ≤ 57)%N.
Proof.
  intros Hx. unfold numberToString.
  pose proof (shortestDigits_nonzero x Hx) as Hs.
  destruct (shortestDigits x) as [s e]. cbn [fst] in Hs.
  destruct (decimal_spec s) as (_ & _ & (c & rest & -> & Hc) & _).
  specialize (Hc Hs).
  destruct (_ <=? _)%N; [by eexists _, _|].
  destruct rest; by eexists _, _.
Qed.

(** No hyphen is printed. *)
Lemma numberToString_no_hyphen x : HYPHEN ∉ numberToString x.
Proof.
  assert (Hdec : ∀ n, HYPHEN ∉ decimal n).
  { intros n Hin. destruct (decimal_spec n) as (Hall & _).
    rewrite list.Forall_forall in Hall. specialize (Hall _ Hin). done. }
  unfold numberToString. destruct (shortestDigits x) as [s e].
  destruct (_ <=? _)%N.
  - intros [Hin|Hin]%elem_of_app; [by eapply Hdec|].
    apply elem_of_replicate in Hin as [Hin _]. done.
  - pose proof (Hdec s) as Hs.
    destruct (decimal s) as [|d [|d' rest]]; [by intros ?%elem_of_nil| |].
    + intros [Hin|Hin]%elem_of_app; [|by eapply Hdec].
      rewrite !elem_of_cons in Hin. destruct Hin as [Hin|[Hin|[Hin|Hin]]]; try done.
      * apply Hs. rewrite Hin. by left.
      * by apply elem_of_nil in Hin.
    + intros [Hin|[Hin|Hin]%elem_of_app]%elem_of_app; [| |by eapply Hdec].
      * rewrite !elem_of_cons in Hin. destruct Hin as [Hin|[Hin|[Hin|Hin]]]; try done.
        -- apply Hs. rewrite Hin. by left.
        -- apply Hs. rewrite Hin. right. by left.
        -- apply Hs. right. by right.
      * rewrite !elem_of_cons in Hin. destruct Hin as [Hin|[Hin|Hin]]; try done.
        by apply elem_of_nil in Hin.
Qed.

(** An integer below 2^53 is read back as it was printed. *)
Lemma parseInt_numberToString x :
  (x < 2 ^ 53)%N → parseInt (numberToString x) = Some x.
Proof.
  intros Hx. unfold numberToString, shortestDigits.
  rewrite (proj2 (N.ltb_lt _ _) Hx).
  destruct (decimal_spec x) as (Hall & Hval & (c & rest & Hdec & _) & Hlen).
  assert (N.of_nat (length (decimal x)) + 0 ≤ 21)%N as Hn.
  { destruct (decide (x = 0%N)) as [->|Hx0]; [by vm_compute|].
    specialize (Hlen Hx0).
    destruct (decide (N.of_nat (length (decimal x)) + 0 ≤ 21)%N) as [|Hbig]; [done|].
    assert (10 ^ 21 ≤ 10 ^ N.of_nat (length (decimal x) - 1))%N
      by (apply N.pow_le_mono_r; lia).
    assert (2 ^ 53 < 10 ^ 21)%N by (by vm_compute). lia. }
  rewrite (proj2 (N.leb_le _ _) Hn). cbn [N.to_nat replicate]. rewrite app_nil_r.
  unfold parseInt.
  rewrite <- (app_nil_r (decimal x)) at 1. rewrite leadingDigits_app by done.
  cbn [leadingDigits]. rewrite app_nil_r, Hdec, <- Hdec.
  by rewrite Hval, roundToDouble_small.
Qed.

(** A number that is not 0 is never read back as 0 or as [NaN]. *)
Lemma parseInt_numberToString_nonzero x :
  x ≠ 0%N → ∃ m, parseInt (numberToString x) = Some m ∧ m ≠ 0%N.
Proof.
  intros Hx. destruct (numberToString_head x Hx) as (c & rest & -> & Hc).
  by apply parseInt_nonzero.
Qed.

Lemma split_no_separator sep (s : jsstring) : sep ∉ s → split sep s = [s].
Proof.
  induction s as [|c s IH]; [done|]. intros Hin. cbn [split].
  destruct (N.eqb_spec c sep) as [->|]; [by destruct Hin; left|].
  rewrite IH; [done|]. intros ?. apply Hin. by right.
Qed.

Lemma split_app sep (s rest : jsstring) :
  sep ∉ s → split sep (s ++ sep :: rest) = s :: split sep rest.
Proof.
  induction s as [|c s IH]; intros Hin.
  - cbn. by rewrite N.eqb_refl.
  - cbn [app split]. destruct (N.eqb_spec c sep) as [->|]; [by destruct Hin; left|].
    rewrite IH; [done|]. intros ?. apply Hin. by right.
Qed.

(** The parts of the id of a structured block. *)
Lemma split_textBlockOf ch b :
  split HYPHEN (tb_id (textBlockOf ch b)) =
    [blockWord; numberToString (chapter_id ch); numberToString (block_id b)].
Proof.
  cbn [tb_id textBlockOf app].
  rewrite (split_app HYPHEN blockWord).
  2: { vm_compute. intros H. repeat (apply elem_of_cons in H as [H|H]; [done|]).
       by apply elem_of_nil in H. }
  rewrite (split_app HYPHEN (numberToString (chapter_id ch)))
    by apply numberToString_no_hyphen.
  by rewrite split_no_separator by apply numberToString_no_hyphen.
Qed.

Lemma split_chapterMarkerOf ch :
  split HYPHEN (tb_id (chapterMarkerOf ch)) =
    [chapterWord; numberToString (chapter_id ch)].
Proof.
  cbn [tb_id chapterMarkerOf app].
  rewrite (split_app HYPHEN chapterWord).
  2: { vm_compute. intros H. repeat (apply elem_of_cons in H as [H|H]; [done|]).
       by apply elem_of_nil in H. }
  by rewrite split_no_separator by apply numberToString_no_hyphen.
Qed.

Lemma parseIdPart2_textBlockOf ch b :
  parseIdPart2 (tb_id (textBlockOf ch b)) = parseInt (numberToString (block_id b)).
Proof. unfold parseIdPart2. by rewrite split_textBlockOf. Qed.

Lemma parseIdPart1_chapterMarkerOf ch :
  parseIdPart1 (tb_id (chapterMarkerOf ch)) = parseInt (numberToString (chapter_id ch)).
Proof. unfold parseIdPart1. by rewrite split_chapterMarkerOf. Qed.

(** ** The pages of the hook *)

Section HookPages.
Variable measureTextWidth : jsstring → Z.
Variable actualMaxWidth : Z.
Variable book : Book.

Lemma enriched_hookPageOf pageContent title chapter ids chapterEnd endOffset withEnd :
  pageContent ≠ [] → chapter ≠ 0%N → ids ≠ [] → Forall (readBlockId book) ids →
  hookPageOf book
    (pushedPage (enrichPageWithMetadata pageContent title chapter ids false chapterEnd
                   endOffset) withEnd).
Proof.
  intros Hc Hch Hids Hall. split; [done|]. eexists. split; [reflexivity|]. cbn.
  split_and!; try done.
  - by rewrite head_lookup.
  - rewrite last_lookup. f_equal. lia.
Qed.

Lemma splitRemaining_hookPageOf fuel title chapter blockId :
  chapter ≠ 0%N → readBlockId book blockId →
  ∀ pages processed rem sv,
    Forall (hookPageOf book) pages →
    splitRemaining measureTextWidth actualMaxWidth fuel title chapter blockId pages
      processed rem = Some sv →
    Forall (hookPageOf book) (sv_pages sv).
Proof.
  intros Hch Hb. induction fuel as [|fuel IH]; intros pages processed rem sv Hpages.
  { cbn. case_bool_decide; [done|]. by intros [= <-]. }
  cbn -[findFittingText]. case_bool_decide; [|by intros [= <-]].
  case_bool_decide; [by intros [= <-]|].
  destruct (findFittingText _ _ _ _ _) as [portion|]; [|done]. cbn [mbind option_bind].
  case_bool_decide as Hlen; [|by intros [= <-]].
  apply IH. apply Forall_app. split; [done|]. apply Forall_singleton.
  apply enriched_hookPageOf; [|done| done |by apply Forall_singleton].
  intros ->. cbn in Hlen. lia.
Qed.

Lemma splitWholeBlock_hookPageOf fuel title chapter blockId :
  chapter ≠ 0%N → readBlockId book blockId →
  ∀ pages processed rem sv,
    Forall (hookPageOf book) pages →
    splitWholeBlock measureTextWidth actualMaxWidth fuel title chapter blockId pages
      processed rem = Some sv →
    Forall (hookPageOf book) (sv_pages sv).
Proof.
  intros Hch Hb. induction fuel as [|fuel IH]; intros pages processed rem sv Hpages.
  { cbn. case_bool_decide; [done|]. by intros [= <-]. }
  cbn -[findFittingText]. case_bool_decide; [|by intros [= <-]].
  destruct (findFittingText _ _ _ _ _) as [portion|]; [|done]. cbn [mbind option_bind].
  case_bool_decide as Hlen; [|by intros [= <-]].
  apply IH. apply Forall_app. split; [done|]. apply Forall_singleton.
  apply enriched_hookPageOf; [|done| done |by apply Forall_singleton].
  intros ->. cbn in Hlen. lia.
Qed.

Lemma truthy_spec (s : jsstring) : truthy s = true ↔ s ≠ [].
Proof. by destruct s. Qed.

Lemma chapterStep_hookInv v block :
  hookInv book v → hookInv book (chapterStep v block).
Proof.
  intros (Hpages & Hch & Hids & Hne). unfold chapterStep, hookInv. cbn.
  assert (Hch' : match parseIdPart1 (tb_id block) with
                 | Some c => if truthyN c then c else (currentChapterId v + 1)%N
                 | None => (currentChapterId v + 1)%N
                 end ≠ 0%N).
  { destruct (parseIdPart1 (tb_id block)) as [c|]; [|lia].
    unfold truthyN. destruct (N.eqb_spec c 0); cbn; [lia | done]. }
  destruct (truthy (currentPageContent v)) eqn:Ht.
  - apply truthy_spec in Ht. split_and!; [|done|done|done].
    apply Forall_app. split; [done|]. apply Forall_singleton.
    apply enriched_hookPageOf; [done | done | by apply Hne | done].
  - by split_and!.
Qed.

Lemma textStep_hookInv v block v' :
  hookInv book v →
  readBlockId book (default 0%N (parseIdPart2 (tb_id block))) →
  textStep measureTextWidth actualMaxWidth v block = Some v' →
  hookInv book v'.
Proof.
  intros (Hpages & Hch & Hids & Hne) Hb. unfold textStep.
  set (blockId := default 0%N (parseIdPart2 (tb_id block))) in *.
  set (ids := if includes blockId (currentBlockIds v) then currentBlockIds v
              else currentBlockIds v ++ [blockId]).
  assert (Hids' : Forall (readBlockId book) ids ∧ ids ≠ []).
  { unfold ids, includes. case_bool_decide as Hin.
    - split; [done|]. intros Hnil. rewrite Hnil in Hin. by apply elem_of_nil in Hin.
    - split; [apply Forall_app; split; [done | by apply Forall_singleton]|].
      by destruct (currentBlockIds v). }
  destruct Hids' as [Hids' Hne'].
  assert (Hone : Forall (readBlockId book) [blockId]) by by apply Forall_singleton.
  destruct (bool_decide (actualMaxWidth < _) && truthy (currentPageContent v)) eqn:Hover.
  2: { intros [= <-]. unfold hookInv. cbn. by split_and!. }
  apply andb_true_iff in Hover as [_ Ht]. apply truthy_spec in Ht.
  destruct (findFittingText _ _ _ _ _) as [portion|]; [|done]. cbn [mbind option_bind].
  case_bool_decide as Hlen.
  - destruct (splitRemaining _ _ _ _ _ _ _ _ _) as [sv|] eqn:Hsv; [|done].
    cbn [mbind option_bind]. intros [= <-]. unfold hookInv. cbn.
    split_and!; [|done|done|done].
    eapply splitRemaining_hookPageOf; [done | done | | exact Hsv].
    apply Forall_app. split; [done|]. apply Forall_singleton.
    apply enriched_hookPageOf; [|done|done|done].
    intros Hnil. apply app_eq_nil in Hnil as [Hnil _].
    apply app_eq_nil in Hnil as [Hnil _]. done.
  - assert (Hpushed : Forall (hookPageOf book)
        (calculatedPages v ++
         [pushedPage (enrichPageWithMetadata (currentPageContent v) (currentChapterTitle v)
            (currentChapterId v) ids false false
            (Some (length (default []
               ((if includes blockId (currentBlockIds v)
                 then match blockTexts v !! blockId with
                      | Some _ => blockTexts v
                      | None => <[blockId:=tb_content block]> (blockTexts v)
                      end
                 else <[blockId:=tb_content block]>
                        match blockTexts v !! blockId with
                        | Some _ => blockTexts v
                        | None => <[blockId:=tb_content block]> (blockTexts v)
                        end) !! blockId))))) false])).
    { apply Forall_app. split; [done|]. apply Forall_singleton.
      by apply enriched_hookPageOf. }
    case_bool_decide.
    + intros [= <-]. unfold hookInv. cbn. by split_and!.
    + destruct (splitWholeBlock _ _ _ _ _ _ _ _ _) as [sv|] eqn:Hsv; [|done].
      cbn [mbind option_bind]. intros [= <-]. unfold hookInv. cbn.
      split_and!; [|done|done|done].
      eapply splitWholeBlock_hookPageOf; [done | done | | exact Hsv]. exact Hpushed.
Qed.

Lemma runBlocks_hookInv blocks :
  Forall (bookTextBlock book) blocks →
  ∀ v v',
    hookInv book v →
    runBlocks measureTextWidth actualMaxWidth v blocks = Some v' →
    hookInv book v'.
Proof.
  induction 1 as [|block blocks Hblock _ IH]; intros v v' Hinv.
  { cbn. by intros [= <-]. }
  cbn [runBlocks]. unfold blockStep.
  destruct (tb_type block) eqn:Htype.
  - destruct Hblock as [?|Hb]; [congruence|].
    destruct (textStep _ _ v block) as [w|] eqn:Hw; [|done]. cbn [mbind option_bind].
    apply IH. by eapply textStep_hookInv.
  - destruct Hblock as [?|Hb]; [congruence|].
    destruct (textStep _ _ v block) as [w|] eqn:Hw; [|done]. cbn [mbind option_bind].
    apply IH. by eapply textStep_hookInv.
  - cbn [mbind option_bind]. apply IH. by apply chapterStep_hookInv.
Qed.

Lemma getStructuredBlocks_bookTextBlock :
  Forall (bookTextBlock book) (getStructuredBlocks book).
Proof.
  unfold getStructuredBlocks. apply list.Forall_forall. intros tb Htb.
  apply list_elem_of_bind in Htb as (ch & Htb & Hch).
  apply elem_of_cons in Htb as [->|Htb]; [by left|].
  apply list_elem_of_fmap in Htb as (b & -> & Hb). right. cbn. by exists ch, b.
Qed.

Lemma calculatePagination_hookPageOf pages :
  calculatePagination measureTextWidth actualMaxWidth book = Some (Paginated pages) →
  Forall (hookPageOf book) pages.
Proof.
  unfold calculatePagination, paginateBlocks.
  destruct (getStructuredBlocks book) as [|tb tbs] eqn:Hblocks; [done|].
  destruct (runBlocks _ _ initialVars (tb :: tbs)) as [v|] eqn:Hv; [|done].
  cbn [mbind option_bind]. intros [= <-].
  eapply runBlocks_hookInv in Hv as (Hpages & Hch & Hids & Hne).
  - unfold finalPages. destruct (truthy (currentPageContent v)) eqn:Ht; [|done].
    apply truthy_spec in Ht. apply Forall_app. split; [done|]. apply Forall_singleton.
    apply enriched_hookPageOf; [done | done | by apply Hne | done].
  - rewrite <- Hblocks. apply getStructuredBlocks_bookTextBlock.
  - unfold hookInv. cbn. by split_and!.
Qed.

End HookPages.

(** X19.  Every page that the hook produces has a content that is not empty and
    carries metadata: a chapter id that is not 0, a list of block ids that
    is not empty, its first and last element as [startBlockId] and
    [endBlockId], and the character range from 0 to the last index of the
    content.  When the block ids of the book are safe integers, which the
    hook reads back from its structured blocks as they were printed, the
    list names blocks of the book only. *)
Theorem calculatePagination_page_metadata
    (measureTextWidth : jsstring → Z) (actualMaxWidth : Z) (book : Book)
    (pages : list PageData) (i : nat) (p : PageData) :
  calculatePagination measureTextWidth actualMaxWidth book = Some (Paginated pages) →
  pages !! i = Some p →
  content p ≠ [] ∧
  ∃ m, metadata p = Some m ∧
       chapterId m ≠ 0%N ∧
       blockIds m ≠ [] ∧
       startBlockId m = head (blockIds m) ∧
       endBlockId m = list.last (blockIds m) ∧
       characterRange m =
         Some {| range_start := 0; range_end := Z.of_nat (length (content p)) - 1 |} ∧
       ((∀ ch blk, ch ∈ book → blk ∈ chapter_blocks ch → isSafeInteger (block_id blk)) →
        Forall (bookBlockId book) (blockIds m)).
Proof.
  intros Hpages%calculatePagination_hookPageOf Hp.
  rewrite Forall_lookup in Hpages.
  destruct (Hpages i p Hp) as (Hc & m & Hm & Hch & Hne & Hall & Hstart & Hend & Hrange).
  split; [done|]. exists m. split_and!; try done.
  intros Hsafe. eapply Forall_impl; [|exact Hall].
  intros b (ch & blk & Hin & Hblk & Hb). exists ch, blk. split_and!; [done | done |].
  rewrite parseIdPart2_textBlockOf, parseInt_numberToString in Hb; [done|].
  by eapply Hsafe.
Qed.

Lemma calculatePagination_page_metadata_witness :
  ∃ p m,
    twoChapterPages !! 1%nat = Some p ∧ content p ≠ [] ∧
    metadata p = Some m ∧ Forall (bookBlockId twoChapterBook) (blockIds m).
Proof.
  destruct (calculatePagination_page_metadata lengthWidth 100 twoChapterBook
              twoChapterPages 1
              (pushedPage (enrichPageWithMetadata [99; 100]%N (Some [50]%N) 2 [1%N]
                             false false (Some 2%nat)) false))
    as (Hc & m & Hm & _ & _ & _ & _ & _ & Hids); [by vm_compute | reflexivity |].
  eexists _, m. split_and!; [reflexivity | exact Hc | exact Hm |].
  apply Hids. intros ch blk Hch Hblk.
  repeat (apply elem_of_cons in Hch; destruct Hch as [->|Hch]);
    try (by apply elem_of_nil in Hch);
    cbn in Hblk; apply list_elem_of_singleton in Hblk; subst blk; by vm_compute.
Defined.

(** X20.  When no block of the book has the id 0, every page that the hook
    produces has a content position: [getContentPositionFromPage] returns
    the page's chapter id, its first block id and an offset inside the
    content, which is the requested offset when that lies inside. *)
Theorem calculatePagination_positions
    (measureTextWidth : jsstring → Z) (actualMaxWidth : Z) (book : Book)
    (pages : list PageData) (i : nat) (p : PageData) (characterOffset : Z) :
  (∀ ch blk, ch ∈ book → blk ∈ chapter_blocks ch → block_id blk ≠ 0%N) →
  calculatePagination measureTextWidth actualMaxWidth book = Some (Paginated pages) →
  pages !! i = Some p →
  ∃ pos m,
    getContentPositionFromPage p characterOffset = Some pos ∧
    metadata p = Some m ∧
    pos_chapterId pos = chapterId m ∧
    head (blockIds m) = Some (pos_blockId pos) ∧
    0 ≤ pos_characterOffset pos < Z.of_nat (length (content p)) ∧
    (0 ≤ characterOffset < Z.of_nat (length (content p)) →
       pos_characterOffset pos = characterOffset).
Proof.
  intros Hids Hpages%calculatePagination_hookPageOf Hp.
  rewrite Forall_lookup in Hpages.
  destruct (Hpages i p Hp) as (Hc & m & Hm & Hch & Hne & Hall & Hstart & _).
  destruct (blockIds m) as [|b0 rest] eqn:Hb; [done|].
  assert (Hb0 : b0 ≠ 0%N).
  { apply list.Forall_cons in Hall as [(ch & blk & Hin & Hblk & <-) _].
    rewrite parseIdPart2_textBlockOf.
    destruct (parseInt_numberToString_nonzero (block_id blk)) as (n & -> & Hn); [|done].
    by eapply Hids. }
  unfold getContentPositionFromPage. rewrite Hm, Hb. cbn [lookup list_lookup head] in *.
  unfold truthyN. rewrite (proj2 (N.eqb_neq _ _) Hch), (proj2 (N.eqb_neq _ _) Hb0).
  cbn [negb]. eexists _, m. split; [reflexivity|]. cbn.
  rewrite Hstart. cbn. unfold truthyN. rewrite (proj2 (N.eqb_neq _ _) Hb0). cbn.
  assert (0 < length (content p))%nat by (destruct (content p); [done | cbn; lia]).
  split_and!; [done | done | by rewrite Hb | lia | lia | lia].
Qed.

Lemma calculatePagination_positions_witness :
  ∃ p pos,
    twoChapterPages !! 1%nat = Some p ∧
    getContentPositionFromPage p 1 = Some pos ∧ pos_characterOffset pos = 1.
Proof.
  destruct (calculatePagination_positions lengthWidth 100 twoChapterBook twoChapterPages 1
              (pushedPage (enrichPageWithMetadata [99; 100]%N (Some [50]%N) 2 [1%N]
                             false false (Some 2%nat)) false) 1)
    as (pos & m & Hpos & _ & _ & _ & _ & Hoff).
  - intros ch blk Hch Hblk.
    repeat (apply elem_of_cons in Hch; destruct Hch as [->|Hch]);
      try (by apply elem_of_nil in Hch);
      cbn in Hblk; apply list_elem_of_singleton in Hblk; by subst.
  - by vm_compute.
  - reflexivity.
  - eexists _, pos. split_and!; [reflexivity | exact Hpos |]. apply Hoff. cbn. lia.
Defined.

(** ** The block that opens the book *)

Section HookFirstBlock.
Variable measureTextWidth : jsstring → Z.
Variable actualMaxWidth : Z.

Lemma opensWith_push s pages current p new current' :
  opensWith s pages current → current `prefix_of` content p →
  opensWith s (pages ++ p :: new) current'.
Proof.
  unfold opensWith. destruct pages as [|q pages]; cbn; [|done].
  intros Hs Hp. by etransitivity.
Qed.

Lemma opensWith_grow s pages current new current' :
  pages ≠ [] → opensWith s pages current → opensWith s (pages ++ new) current'.
Proof. unfold opensWith. by destruct pages. Qed.

Lemma opensWith_extend s pages current current' :
  opensWith s pages current → current `prefix_of` current' →
  opensWith s pages current'.
Proof.
  unfold opensWith. destruct pages as [|q pages]; [|done].
  intros Hs Hp. by etransitivity.
Qed.

Lemma splitRemaining_grows fuel title chapter blockId :
  ∀ pages processed rem sv,
    splitRemaining measureTextWidth actualMaxWidth fuel title chapter blockId pages
      processed rem = Some sv →
    ∃ new, sv_pages sv = pages ++ new.
Proof.
  induction fuel as [|fuel IH]; intros pages processed rem sv.
  { cbn. case_bool_decide; [done|]. intros [= <-]. exists []. by rewrite app_nil_r. }
  cbn -[findFittingText].
  case_bool_decide; [|intros [= <-]; exists []; by rewrite app_nil_r].
  case_bool_decide; [intros [= <-]; exists []; by rewrite app_nil_r|].
  destruct (findFittingText _ _ _ _ _) as [portion|]; [|done]. cbn [mbind option_bind].
  case_bool_decide; [|intros [= <-]; exists []; by rewrite app_nil_r].
  intros (new & ->)%IH. eexists. by rewrite <- app_assoc.
Qed.

Lemma splitWholeBlock_grows fuel title chapter blockId :
  ∀ pages processed rem sv,
    splitWholeBlock measureTextWidth actualMaxWidth fuel title chapter blockId pages
      processed rem = Some sv →
    ∃ new, sv_pages sv = pages ++ new.
Proof.
  induction fuel as [|fuel IH]; intros pages processed rem sv.
  { cbn. case_bool_decide; [done|]. intros [= <-]. exists []. by rewrite app_nil_r. }
  cbn -[findFittingText].
  case_bool_decide; [|intros [= <-]; exists []; by rewrite app_nil_r].
  destruct (findFittingText _ _ _ _ _) as [portion|]; [|done]. cbn [mbind option_bind].
  case_bool_decide; [|intros [= <-]; exists []; by rewrite app_nil_r].
  intros (new & ->)%IH. eexists. by rewrite <- app_assoc.
Qed.

Lemma textStep_opensWith s v block v' :
  opensWith s (calculatedPages v) (currentPageContent v) →
  textStep measureTextWidth actualMaxWidth v block = Some v' →
  opensWith s (calculatedPages v') (currentPageContent v').
Proof.
  intros Hs. unfold textStep.
  destruct (bool_decide (actualMaxWidth < _) && truthy (currentPageContent v)).
  2: { intros [= <-]. cbn. eapply opensWith_extend; [done|].
       rewrite <- app_assoc. by apply prefix_app_r. }
  destruct (findFittingText _ _ _ _ _) as [portion|]; [|done]. cbn [mbind option_bind].
  case_bool_decide.
  - destruct (splitRemaining _ _ _ _ _ _ _ _ _) as [sv|] eqn:Hsv; [|done].
    cbn [mbind option_bind]. intros [= <-]. cbn.
    apply splitRemaining_grows in Hsv as (new & ->). rewrite <- app_assoc. cbn.
    eapply opensWith_push; [done|]. cbn. rewrite <- app_assoc. by apply prefix_app_r.
  - case_bool_decide.
    + intros [= <-]. cbn. by eapply (opensWith_push _ _ _ _ []).
    + destruct (splitWholeBlock _ _ _ _ _ _ _ _ _) as [sv|] eqn:Hsv; [|done].
      cbn [mbind option_bind]. intros [= <-]. cbn.
      apply splitWholeBlock_grows in Hsv as (new & ->). rewrite <- app_assoc. cbn.
      by eapply opensWith_push.
Qed.

Lemma chapterStep_opensWith s v block :
  opensWith s (calculatedPages v) (currentPageContent v) →
  opensWith s (calculatedPages (chapterStep v block))
    (currentPageContent (chapterStep v block)).
Proof.
  intros Hs. unfold chapterStep. cbn. destruct (truthy (currentPageContent v)); [|done].
  by eapply (opensWith_push _ _ _ _ []).
Qed.

Lemma runBlocks_opensWith s blocks :
  ∀ v v',
    opensWith s (calculatedPages v) (currentPageContent v) →
    runBlocks measureTextWidth actualMaxWidth v blocks = Some v' →
    opensWith s (calculatedPages v') (currentPageContent v').
Proof.
  induction blocks as [|block blocks IH]; intros v v' Hs.
  { cbn. by intros [= <-]. }
  cbn [runBlocks]. unfold blockStep.
  destruct (tb_type block);
    try (destruct (textStep _ _ v block) as [w|] eqn:Hw; [|done]; cbn [mbind option_bind];
         apply IH; by eapply textStep_opensWith).
  cbn [mbind option_bind]. apply IH. by apply chapterStep_opensWith.
Qed.

Lemma calculatePagination_opens ch b bs book pages p :
  chapter_blocks ch = b :: bs →
  calculatePagination measureTextWidth actualMaxWidth (ch :: book)
    = Some (Paginated pages) →
  pages !! 0%nat = Some p →
  blockContentOf (textBlockOf ch b) `prefix_of` content p.
Proof.
  intros Hblocks. unfold calculatePagination, paginateBlocks.
  rewrite getStructuredBlocks_cons, Hblocks, fmap_cons, <- !app_comm_cons.
  rewrite runBlocks_chapterMarker.
  set (v1 := chapterStep initialVars (chapterMarkerOf ch)).
  cbn [runBlocks]. unfold blockStep.
  assert (Hstep : ∃ v2,
    textStep measureTextWidth actualMaxWidth v1 (textBlockOf ch b) = Some v2 ∧
    opensWith (blockContentOf (textBlockOf ch b)) (calculatedPages v2)
      (currentPageContent v2)).
  { unfold textStep. cbn [v1 chapterStep initialVars currentPageContent truthy].
    rewrite andb_false_r. eexists. split; [reflexivity|].
    cbn. unfold blockContentOf. cbn. by destruct (block_type b). }
  destruct Hstep as (v2 & Hv2 & Hopens).
  assert (Hsame : match tb_type (textBlockOf ch b) with
                  | tb_chapter => Some (chapterStep v1 (textBlockOf ch b))
                  | _ => textStep measureTextWidth actualMaxWidth v1 (textBlockOf ch b)
                  end = Some v2).
  { cbn. by destruct (block_type b). }
  rewrite Hsame. cbn [mbind option_bind].
  destruct (runBlocks _ _ v2 _) as [v|] eqn:Hv; [|done]. cbn [mbind option_bind].
  intros [= <-]. apply (runBlocks_opensWith _ _ _ _ Hopens) in Hv.
  unfold finalPages. unfold opensWith in Hv.
  destruct (calculatedPages v) as [|q qs] eqn:Hq.
  - destruct (truthy (currentPageContent v)); [|done]. cbn. by intros [= <-].
  - destruct (truthy (currentPageContent v)); cbn; by intros [= <-].
Qed.

End HookFirstBlock.

(** X21.  The block that opens the book is never split: whatever the measurements
    and the page width, the first page starts with the whole laid-out text
    of the first block of the first chapter. *)
Theorem calculatePagination_first_block_whole
    (measureTextWidth : jsstring → Z) (actualMaxWidth : Z)
    (ch : Chapter) (b : Block) (bs : list Block) (book : Book)
    (pages : list PageData) (p : PageData) :
  chapter_blocks ch = b :: bs →
  calculatePagination measureTextWidth actualMaxWidth (ch :: book)
    = Some (Paginated pages) →
  pages !! 0%nat = Some p →
  blockContentOf (textBlockOf ch b) `prefix_of` content p.
Proof. apply calculatePagination_opens. Qed.

(** On a page of width 0, the first block of [wideGlyphBook] still goes
    whole on the first page. *)
Lemma calculatePagination_first_block_whole_witness :
  ∃ pages p,
    calculatePagination glyphWidth 0 wideGlyphBook = Some (Paginated pages) ∧
    pages !! 0%nat = Some p ∧
    [97%N] `prefix_of` content p.
Proof.
  eexists _, _. split; [vm_compute; reflexivity|]. split; [reflexivity|].
  eapply (calculatePagination_first_block_whole glyphWidth 0
           {| chapter_id := 1; chapter_title := [49]%N;
              chapter_blocks :=
                [ {| block_id := 1; block_type := conversation; block_text := [97]%N |};
                  {| block_id := 2; block_type := conversation;
                     block_text := [97; 87]%N |} ] |}
           {| block_id := 1; block_type := conversation; block_text := [97]%N |}
           [ {| block_id := 2; block_type := conversation; block_text := [97; 87]%N |} ]
           [] _ _ eq_refl); [vm_compute; reflexivity | reflexivity].
Defined.

(** The page contents of the hook cover the book when every character fits
    a page: here on a page that holds 100 code units. *)
Lemma calculatePagination_coverage_witness :
  ∃ pages,
    calculatePagination lengthWidth 100 twoChapterBook = Some (Paginated pages) ∧
    withoutNewlines (concat (content <$> pages)) =
    withoutNewlines (indentedText twoChapterBook).
Proof.
  apply (calculatePagination_coverage lengthWidth 100); [by vm_compute | by vm_compute].
Defined.

(** ** The break point of [DOMPaginationCalculator] *)

Lemma applyKinsoku_leading_witness :
  leadingBreak (λ s, bool_decide (2 < length s)%nat) [12354; 12356; 12290; 12358]%N 2
    (DOMPaginationCalculator.applyKinsoku (λ s, bool_decide (2 < length s)%nat)
       [12354; 12356; 12290; 12358]%N 2) ∧
  DOMPaginationCalculator.applyKinsoku (λ s, bool_decide (2 < length s)%nat)
    [12354; 12356; 12290; 12358]%N 2 = 1%nat.
Proof.
  split; [|by vm_compute].
  destruct (applyKinsoku_leading (λ s, bool_decide (2 < length s)%nat)
              [12354; 12356; 12290; 12358]%N 2) as [Hnearest _];
    [cbn; lia | by vm_compute |].
  destruct (Hnearest 1%nat) as [Hbreak _]; [|exact Hbreak].
  split_and!; [lia | lia | by vm_compute | by vm_compute].
Defined.

Section DOMBreakPointFacts.
Variable overflow : jsstring → bool.

Lemma leadingScan_fits text i r :
  DOMPaginationCalculator.leadingScan overflow text i = Some r →
  (r ≤ i)%nat ∧ overflow (take r text) = false.
Proof.
  induction i as [|i IH]; [done|]. cbn [DOMPaginationCalculator.leadingScan].
  destruct (_ && _) eqn:Hok.
  - intros [= <-]. apply andb_true_iff in Hok as [_ H]. apply negb_true_iff in H.
    split; [lia | done].
  - intros [Hr Hf]%IH. split; [lia | done].
Qed.

Lemma trailingScan_fits text position indices r :
  DOMPaginationCalculator.trailingScan overflow text position indices = Some r →
  (r < length text)%nat ∧ overflow (take r text) = false.
Proof.
  induction indices as [|i indices IH]; [done|].
  cbn [DOMPaginationCalculator.trailingScan].
  destruct (bool_decide (i < length text)%nat && _) eqn:Hin; [|done].
  apply andb_true_iff in Hin as [Hlt _]. apply bool_decide_eq_true_1 in Hlt.
  destruct (negb _ && _) eqn:Hok; [|exact IH].
  intros [= <-]. apply andb_true_iff in Hok as [_ H]. apply negb_true_iff in H. done.
Qed.

Lemma applyKinsoku_fits text position :
  overflowMonotone overflow text →
  (position ≤ length text)%nat →
  overflow (take position text) = false →
  (DOMPaginationCalculator.applyKinsoku overflow text position ≤ length text)%nat ∧
  overflow (take (DOMPaginationCalculator.applyKinsoku overflow text position) text) = false.
Proof.
  intros Hmono Hpos Hfit. unfold DOMPaginationCalculator.applyKinsoku.
  destruct (_ || _); [done|]. cbv zeta.
  destruct (if DOMPaginationCalculator.includesAt _ text position then _ else None)
    as [r|] eqn:Hlead.
  { destruct (DOMPaginationCalculator.includesAt _ text position); [|done].
    apply leadingScan_fits in Hlead as [Hr Hf]. split; [lia | done]. }
  destruct (DOMPaginationCalculator.includesAt _ text (position - 1)); [|done].
  destruct (DOMPaginationCalculator.trailingScan _ _ _ _) as [r|] eqn:Htrail.
  { apply trailingScan_fits in Htrail as [Hr Hf]. split; [lia | done]. }
  split; [lia|].
  destruct (overflow (take (0 `max` (position - 1)) text)) eqn:Hback; [|done].
  rewrite (Hmono (0 `max` (position - 1))%nat position) in Hfit; [done | lia | done | done].
Qed.

Lemma includesAt_kinsokuFree set text i :
  (∀ c, c ∈ text → c ∉ set) → DOMPaginationCalculator.includesAt set text i = false.
Proof.
  intros Hfree. unfold DOMPaginationCalculator.includesAt.
  destruct (text !! i) as [c|] eqn:Hc; [|done].
  apply bool_decide_eq_false_2. apply Hfree. by eapply list_elem_of_lookup_2.
Qed.

Lemma applyKinsoku_kinsokuFree text position :
  kinsokuFree text →
  DOMPaginationCalculator.applyKinsoku overflow text position = position.
Proof.
  intros Hfree. unfold DOMPaginationCalculator.applyKinsoku.
  destruct (_ || _); [done|]. cbv zeta.
  rewrite !includesAt_kinsokuFree; [done | |]; intros c Hc; by apply Hfree.
Qed.

Lemma findOptimalBreakPoint_spec text :
  overflowMonotone overflow text →
  overflow [] = false →
  ∃ n : nat,
    DOMPaginationCalculator.findOptimalBreakPoint overflow text = Some n ∧
    (n ≤ length text)%nat ∧
    overflow (take n text) = false ∧
    (kinsokuFree text →
       ∀ k : nat, (n < k ≤ length text)%nat → overflow (take k text) = true).
Proof.
  intros Hmono Hempty. unfold DOMPaginationCalculator.findOptimalBreakPoint.
  case_bool_decide as Hlen.
  { exists 0%nat. split_and!; [done | lia | by rewrite take_0 | intros _ k Hk; lia]. }
  destruct (findOptimalBreakPoint_loop_max overflow (S (length text)) text Hmono
              0 (Z.of_nat (length text)) 0)
    as (n & Hn & -> & Hfit & Hmax); try lia; try done.
  cbn [mbind option_bind].
  rewrite take_0 in Hfit. specialize (Hfit Hempty).
  destruct (applyKinsoku_fits text (Z.to_nat n) Hmono ltac:(lia) Hfit) as [Hle Hf].
  eexists. split_and!; [done | done | done |].
  intros Hfree k Hk. rewrite (applyKinsoku_kinsokuFree _ _ Hfree) in Hk.
  apply Hmax; lia.
Qed.

End DOMBreakPointFacts.

(** X24.  When overflow is monotone in the prefix length and the empty text does
    not overflow, [findOptimalBreakPoint] returns a break point inside the
    text whose prefix does not overflow, also after the kinsoku rules; and
    when no character of the text is subject to a kinsoku rule, every longer
    prefix overflows. *)
Theorem findOptimalBreakPoint_fits (overflow : jsstring → bool) (text : jsstring) :
  overflowMonotone overflow text →
  overflow [] = false →
  ∃ n : nat,
    DOMPaginationCalculator.findOptimalBreakPoint overflow text = Some n ∧
    (n ≤ length text)%nat ∧
    overflow (take n text) = false ∧
    (kinsokuFree text →
       ∀ k : nat, (n < k ≤ length text)%nat → overflow (take k text) = true).
Proof. apply findOptimalBreakPoint_spec. Qed.

Lemma findOptimalBreakPoint_fits_witness :
  ∃ n : nat,
    DOMPaginationCalculator.findOptimalBreakPoint (λ s, bool_decide (2 < length s)%nat)
      [12354; 12356; 12290; 12358]%N = Some n ∧
    (n ≤ 4)%nat.
Proof.
  destruct (findOptimalBreakPoint_fits (λ s, bool_decide (2 < length s)%nat)
              [12354; 12356; 12290; 12358]%N) as (n & Hn & Hle & _).
  - intros i j Hij Hj Hi. apply bool_decide_eq_true_1 in Hi.
    apply bool_decide_eq_true_2. rewrite length_take in *. cbn in *. lia.
  - done.
  - by exists n.
Defined.

(** ** [DOMPaginationCalculator.processChapter] *)

Section DOMChapterFacts.
Import DOMPaginationCalculator.
Variable overflow : jsstring → bool.

Lemma applyKinsoku_le text position :
  (position ≤ length text)%nat → (applyKinsoku overflow text position ≤ length text)%nat.
Proof.
  intros Hpos. unfold applyKinsoku. destruct (_ || _); [done|]. cbv zeta.
  destruct (if includesAt _ text position then _ else None) as [r|] eqn:Hlead.
  { destruct (includesAt _ text position); [|done].
    apply leadingScan_fits in Hlead as [Hr _]. lia. }
  destruct (includesAt _ text (position - 1)); [|done].
  destruct (trailingScan _ _ _ _) as [r|] eqn:Htrail; [|lia].
  apply trailingScan_fits in Htrail as [Hr _]. lia.
Qed.

(** [findOptimalBreakPoint] always ends, on a position inside the text. *)
Lemma findOptimalBreakPoint_le text :
  ∃ n : nat, findOptimalBreakPoint overflow text = Some n ∧ (n ≤ length text)%nat.
Proof.
  unfold findOptimalBreakPoint. case_bool_decide; [exists 0%nat; split; [done | lia]|].
  destruct (findOptimalBreakPoint_loop_total overflow (S (length text)) text
              0 (Z.of_nat (length text)) 0) as (n & Hn & ->); try lia.
  cbn [mbind option_bind]. eexists. split; [done|]. apply applyKinsoku_le. lia.
Qed.

(** The inner loop ends within its fuel, and leaves an offset that is not
    below -1. *)
Lemma fillStep_progress chapter v block :
  -1 ≤ currentCharOffset v →
  chapter_blocks chapter !! currentBlockIndex v = Some block →
  ∃ v',
    fillStep overflow chapter v block = Some v' ∧
    -1 ≤ currentCharOffset v' ∧
    (remainingSpace v' = false ∨
     (currentBlockIndex v' = S (currentBlockIndex v) ∧ currentCharOffset v' = 0) ∨
     (currentBlockIndex v' = currentBlockIndex v ∧
      currentCharOffset v < 0 ∧ 0 ≤ currentCharOffset v')).
Proof.
  intros Hoff Hblock. unfold fillStep. cbv zeta.
  set (isBlockStart := currentCharOffset v =? 0).
  set (indented := isBlockStart &&
                   match block_type block with paragraph => true | _ => false end).
  set (needsNewline := isBlockStart && bool_decide (0 < length (pageContent v))%nat).
  case_bool_decide as Hrem.
  { eexists. split; [done|]. cbn. split; [lia|]. right. left. done. }
  rewrite length_drop in Hrem.
  set (remainingText := drop (Z.to_nat (currentCharOffset v)) (block_text block)).
  set (testText := concat (pageContent v) ++ (if needsNewline then [NEWLINE] else []) ++
                   (if indented then IDEOGRAPHIC_SPACE :: remainingText else remainingText)).
  destruct (findOptimalBreakPoint_le testText) as (bp & -> & Hbp).
  cbn [mbind option_bind].
  set (addedChars := Z.of_nat bp - Z.of_nat (length (concat (pageContent v)))).
  destruct (_ && bool_decide (length (pageContent v) = 0%nat)) eqn:Hforced.
  { eexists. split; [done|]. cbn. split; [lia|]. by left. }
  destruct (Z.ltb_spec 0 addedChars) as [Hadded|Hadded].
  2: { eexists. split; [done|]. cbn. split; [lia|]. by left. }
  set (original := if indented then addedChars - (if needsNewline then 1 else 0) - 1
                   else addedChars - (if needsNewline then 1 else 0)).
  eexists. split; [done|].
  cbn [currentCharOffset remainingSpace currentBlockIndex].
  assert (Hstart : isBlockStart = false → indented = false ∧ needsNewline = false).
  { intros H. unfold indented, needsNewline. by rewrite H. }
  assert (Horig : -1 ≤ currentCharOffset v + original).
  { unfold original. destruct isBlockStart eqn:Hs.
    - apply Z.eqb_eq in Hs. destruct indented, needsNewline; lia.
    - destruct (Hstart eq_refl) as [-> ->]. lia. }
  destruct (Z.leb_spec (Z.of_nat (length (block_text block)))
              (currentCharOffset v + original)) as [Hfin|Hfin].
  { split; [lia|]. right. left. done. }
  split; [lia|].
  destruct (bool_decide (bp < length testText)%nat) eqn:Hfull; [by left|].
  apply bool_decide_eq_false_1 in Hfull. right. right. split; [done|].
  assert (Hlen : length testText =
                 (length (concat (pageContent v)) +
                  ((if needsNewline then 1 else 0) +
                   ((if indented then 1 else 0) +
                    (length (block_text block) - Z.to_nat (currentCharOffset v)))))%nat).
  { unfold testText, remainingText. rewrite !length_app.
    destruct needsNewline, indented; cbn; rewrite length_drop; lia. }
  assert (Horiginal : original =
            Z.of_nat (length (block_text block) - Z.to_nat (currentCharOffset v))).
  { unfold original, addedChars. destruct indented, needsNewline; lia. }
  lia.
Qed.

Lemma fillPage_total chapter fuel :
  ∀ v,
    -1 ≤ currentCharOffset v →
    (2 * (length (chapter_blocks chapter) - currentBlockIndex v) +
     (if (currentCharOffset v <? 0)%Z then 1 else 0) ≤ fuel)%nat →
    ∃ v', fillPage overflow fuel chapter v = Some v' ∧ -1 ≤ currentCharOffset v'.
Proof.
  induction fuel as [|fuel IH]; intros v Hoff Hfuel.
  - cbn. destruct (chapter_blocks chapter !! currentBlockIndex v) as [block|] eqn:Hb.
    + apply lookup_lt_Some in Hb. lia.
    + by exists v.
  - cbn [fillPage].
    destruct (chapter_blocks chapter !! currentBlockIndex v) as [block|] eqn:Hb;
      [|by exists v].
    destruct (remainingSpace v); [|by exists v].
    destruct (fillStep_progress chapter v block Hoff Hb) as (w & -> & Hw & Hcase).
    cbn [mbind option_bind]. pose proof (lookup_lt_Some _ _ _ Hb) as Hlt.
    destruct Hcase as [Hstop | [[Hidx Hzero] | (Hidx & Hneg & Hpos)]].
    + destruct fuel; cbn; destruct (chapter_blocks chapter !! currentBlockIndex w);
        rewrite ?Hstop; by exists w.
    + apply IH; [done|]. rewrite Hidx, Hzero. cbn. lia.
    + apply IH; [done|]. rewrite Hidx.
      destruct (Z.ltb_spec (currentCharOffset w) 0); [lia|].
      destruct (Z.ltb_spec (currentCharOffset v) 0); lia.
Qed.

(** One turn of the outer loop always ends. *)
Lemma pageStep_total chapter chapterPages pageId blockIndex charOffset :
  -1 ≤ charOffset →
  ∃ chapterPages' pageId' blockIndex' charOffset',
    pageStep overflow (innerFuel chapter) chapter chapterPages pageId blockIndex charOffset
      = Some (chapterPages', pageId', blockIndex', charOffset') ∧
    -1 ≤ charOffset'.
Proof.
  intros Hoff. unfold pageStep.
  match goal with
  | |- context [fillPage overflow _ chapter ?v0] =>
      destruct (fillPage_total chapter (innerFuel chapter) v0) as (v & -> & Hv)
  end; [done | unfold innerFuel; cbn; destruct (charOffset <? 0); lia |].
  cbn [mbind option_bind]. case_bool_decide; by eexists _, _, _, _.
Qed.

Lemma fillPage_step fuel chapter v block :
  chapter_blocks chapter !! currentBlockIndex v = Some block →
  remainingSpace v = true →
  fillPage overflow (S fuel) chapter v =
    fillStep overflow chapter v block ≫= fillPage overflow fuel chapter.
Proof. intros Hb Hr. cbn [fillPage]. by rewrite Hb, Hr. Qed.

Lemma fillPage_closed fuel chapter v :
  remainingSpace v = false → fillPage overflow fuel chapter v = Some v.
Proof.
  intros Hv. destruct fuel; cbn;
    destruct (chapter_blocks chapter !! currentBlockIndex v); by rewrite ?Hv.
Qed.

Lemma fillPage_done fuel chapter v :
  chapter_blocks chapter !! currentBlockIndex v = None →
  fillPage overflow fuel chapter v = Some v.
Proof. intros Hv. destruct fuel; cbn; by rewrite Hv. Qed.

(** When only the indent of a paragraph fits an empty page, a turn of the
    outer loop makes a page and comes back to where it started. *)
Lemma pageStep_indent_only chapter (i : nat) block chapterPages pageId :
  chapter_blocks chapter !! i = Some block →
  block_type block = paragraph →
  block_text block ≠ [] →
  findOptimalBreakPoint overflow (IDEOGRAPHIC_SPACE :: block_text block) = Some 1%nat →
  pageStep overflow (innerFuel chapter) chapter chapterPages pageId i 0 =
    Some (chapterPages ++
          [ {| PaginationCalculator.id := pageId;
               PaginationCalculator.position :=
                 {| PaginationCalculator.chapterId := chapter_id chapter;
                    PaginationCalculator.blockId := block_id block;
                    PaginationCalculator.characterStart := 0;
                    PaginationCalculator.characterEnd := 0 |};
               PaginationCalculator.content :=
                 [IDEOGRAPHIC_SPACE :: take 1 (block_text block)];
               PaginationCalculator.totalCharacters := 2 |} ],
          pageId + 1, i, 0).
Proof.
  intros Hblock Hpar Htext Hbreak.
  unfold pageStep.
  replace (innerFuel chapter) with (S (2 * length (chapter_blocks chapter) + 1))
    by (unfold innerFuel; lia).
  rewrite (fillPage_step _ _ _ block) by done.
  assert (Hstep : fillStep overflow chapter
            {| pageContent := []; pageBreakPoints := []; remainingSpace := true;
               currentBlockIndex := i; currentCharOffset := 0 |} block =
          Some {| pageContent := [IDEOGRAPHIC_SPACE :: take 1 (block_text block)];
                  pageBreakPoints :=
                    [ {| bp_chapterId := chapter_id chapter; bp_blockId := block_id block;
                         bp_characterStart := 0; bp_characterEnd := 0 |} ];
                  remainingSpace := false;
                  currentBlockIndex := i; currentCharOffset := 0 |}).
  { unfold fillStep. cbn [currentCharOffset pageContent pageBreakPoints remainingSpace
                           currentBlockIndex Z.to_nat drop concat length app].
    rewrite Hpar. destruct (block_text block) as [|c text] eqn:Ht; [done|].
    cbn [length Z.eqb andb bool_decide app].
    rewrite bool_decide_eq_false_2 by done.
    rewrite (bool_decide_eq_false_2 (0 < 0)%nat) by lia.
    cbn [andb app]. change (drop (Z.to_nat 0) (c :: text)) with (c :: text).
    rewrite Hbreak. cbn [mbind option_bind].
    rewrite (bool_decide_eq_true_2 (1 < _)%nat) by (cbn; lia).
    destruct (Z.leb_spec (Z.of_nat (S (length text))) (0 + (Z.of_nat 1 - Z.of_nat 0 - 0 - 1)));
      [lia|].
    done. }
  rewrite Hstep. cbn [mbind option_bind].
  rewrite fillPage_closed by done. cbn.
  destruct (block_text block) as [|c text]; [done|]. done.
Qed.

Lemma processChapter_loop_indent_only chapter (i : nat) block fuel :
  chapter_blocks chapter !! i = Some block →
  block_type block = paragraph →
  block_text block ≠ [] →
  findOptimalBreakPoint overflow (IDEOGRAPHIC_SPACE :: block_text block) = Some 1%nat →
  ∀ chapterPages pageId,
    processChapter_loop overflow fuel chapter chapterPages pageId i 0 = None.
Proof.
  intros Hblock Hpar Htext Hbreak.
  induction fuel as [|fuel IH]; intros chapterPages pageId; cbn [processChapter_loop];
    rewrite bool_decide_eq_true_2 by (by eapply lookup_lt_Some); [done|].
  rewrite (pageStep_indent_only chapter i block) by done.
  cbn [mbind option_bind]. apply IH.
Qed.

Lemma findOptimalBreakPoint_all_fit text :
  (∀ k : nat, overflow (take k text) = false) →
  findOptimalBreakPoint overflow text = Some (length text).
Proof.
  intros Hfit. unfold findOptimalBreakPoint.
  case_bool_decide as Hlen; [by rewrite Hlen|].
  destruct (findOptimalBreakPoint_loop_max overflow (S (length text)) text
              ltac:(intros i j _ _ Hi; by rewrite Hfit in Hi)
              0 (Z.of_nat (length text)) 0)
    as (n & Hn & -> & _ & Hmax); try lia; try done.
  cbn [mbind option_bind].
  assert (n = Z.of_nat (length text)) as ->.
  { destruct (decide (n = Z.of_nat (length text))) as [|Hne]; [done|].
    specialize (Hmax (length text) ltac:(lia) ltac:(lia)). by rewrite Hfit in Hmax. }
  rewrite Nat2Z.id. unfold applyKinsoku.
  rewrite (bool_decide_eq_true_2 (length text ≤ length text)%nat) by lia.
  by rewrite orb_true_r.
Qed.

Lemma fillStep_all_fit chapter (i : nat) pc bps block more :
  block_text block ≠ [] →
  (∀ k : nat,
     overflow (take k (concat (pc ++ domPieces (bool_decide (pc = [])) [block]) ++ more))
       = false) →
  ∃ bps',
    fillStep overflow chapter
      {| pageContent := pc; pageBreakPoints := bps; remainingSpace := true;
         currentBlockIndex := i; currentCharOffset := 0 |} block =
    Some {| pageContent := pc ++ domPieces (bool_decide (pc = [])) [block];
            pageBreakPoints := bps'; remainingSpace := true;
            currentBlockIndex := S i; currentCharOffset := 0 |}.
Proof.
  intros Htext Hfit. unfold fillStep. cbv zeta.
  cbn [currentCharOffset pageContent pageBreakPoints remainingSpace currentBlockIndex].
  change (Z.to_nat 0) with 0%nat. rewrite drop_0.
  rewrite bool_decide_eq_false_2 by (by destruct (block_text block)).
  change (0 =? 0) with true. cbn [andb].
  set (indented := match block_type block with paragraph => true | _ => false end).
  set (needsNewline := bool_decide (0 < length pc)%nat).
  set (piece := (if bool_decide (pc = []) then [] else [NEWLINE]) ++
                (match block_type block with
                 | paragraph => [IDEOGRAPHIC_SPACE] | _ => [] end) ++ block_text block).
  assert (Hflag : bool_decide (pc = []) = negb needsNewline).
  { unfold needsNewline. destruct pc as [|x pc].
    - rewrite bool_decide_eq_true_2 by done.
      by rewrite bool_decide_eq_false_2 by (cbn; lia).
    - rewrite bool_decide_eq_false_2 by done.
      by rewrite bool_decide_eq_true_2 by (cbn; lia). }
  assert (Hpieces : domPieces (bool_decide (pc = [])) [block] = [piece]).
  { cbn. by rewrite bool_decide_eq_false_2 by done. }
  rewrite Hpieces in *.
  set (testText := concat pc ++ (if needsNewline then [NEWLINE] else []) ++
                   (if indented then IDEOGRAPHIC_SPACE :: block_text block
                    else block_text block)).
  assert (Htest : testText = concat pc ++ piece).
  { unfold testText, piece, indented. f_equal. rewrite Hflag.
    destruct needsNewline; cbn; by destruct (block_type block). }
  assert (Hbp : findOptimalBreakPoint overflow testText = Some (length testText)).
  { apply findOptimalBreakPoint_all_fit. intros k.
    rewrite Htest. rewrite concat_app in Hfit. cbn in Hfit. rewrite app_nil_r in Hfit.
    specialize (Hfit (k `min` length (concat pc ++ piece))%nat).
    rewrite <- take_take, take_app_length in Hfit. done. }
  rewrite Hbp. cbn [mbind option_bind].
  assert (Hpiece : length piece =
            ((if needsNewline then 1 else 0) + ((if indented then 1 else 0) +
              length (block_text block)))%nat).
  { unfold piece, indented. rewrite !length_app, Hflag.
    destruct needsNewline; cbn; destruct (block_type block); cbn; lia. }
  assert (Hlen : (0 < length (block_text block))%nat)
    by (destruct (block_text block); [done | cbn; lia]).
  assert (Hadded : Z.of_nat (length testText) - Z.of_nat (length (concat pc)) =
                   Z.of_nat (length piece)).
  { rewrite Htest, length_app. lia. }
  rewrite Hadded.
  destruct (Z.leb_spec (Z.of_nat (length piece)) 0) as [|_]; [lia|]. cbn [andb].
  destruct (Z.ltb_spec 0 (Z.of_nat (length piece))) as [_|]; [|lia].
  set (original := if indented
                   then Z.of_nat (length piece) - (if needsNewline then 1 else 0) - 1
                   else Z.of_nat (length piece) - (if needsNewline then 1 else 0)).
  assert (Horiginal : original = Z.of_nat (length (block_text block))).
  { unfold original. rewrite Hpiece. destruct needsNewline, indented; lia. }
  rewrite Horiginal.
  rewrite (bool_decide_eq_false_2 (length testText < length testText)%nat) by lia.
  destruct (Z.leb_spec (Z.of_nat (length (block_text block)))
              (0 + Z.of_nat (length (block_text block)))) as [_|]; [|lia].
  rewrite take_ge by lia.
  eexists. f_equal. f_equal. f_equal. f_equal. unfold piece, indented. rewrite Hflag.
  destruct needsNewline; cbn; by destruct (block_type block).
Qed.

Lemma fillPage_all_fit chapter rest :
  ∀ (i : nat) pc bps fuel,
    (i ≤ length (chapter_blocks chapter))%nat →
    drop i (chapter_blocks chapter) = rest →
    (length rest ≤ fuel)%nat →
    (∀ k : nat,
       overflow (take k (concat (pc ++ domPieces (bool_decide (pc = [])) rest))) = false) →
    ∃ bps',
      fillPage overflow fuel chapter
        {| pageContent := pc; pageBreakPoints := bps; remainingSpace := true;
           currentBlockIndex := i; currentCharOffset := 0 |} =
      Some {| pageContent := pc ++ domPieces (bool_decide (pc = [])) rest;
              pageBreakPoints := bps'; remainingSpace := true;
              currentBlockIndex := length (chapter_blocks chapter);
              currentCharOffset := 0 |}.
Proof.
  induction rest as [|block rest IH]; intros i pc bps fuel Hi Hdrop Hfuel Hfit.
  - assert (i = length (chapter_blocks chapter)) as ->.
    { apply (f_equal length) in Hdrop. rewrite length_drop in Hdrop. cbn in Hdrop. lia. }
    exists bps. cbn [domPieces]. rewrite app_nil_r. apply fillPage_done. cbn.
    by apply lookup_ge_None.
  - assert (Hblock : chapter_blocks chapter !! i = Some block).
    { rewrite <- (Nat.add_0_r i), <- lookup_drop, Hdrop. done. }
    assert (Hrest : drop (S i) (chapter_blocks chapter) = rest).
    { rewrite (drop_S _ _ _ Hblock) in Hdrop. by injection Hdrop. }
    pose proof (lookup_lt_Some _ _ _ Hblock) as Hlt.
    destruct fuel as [|fuel]; [cbn in Hfuel; lia|]. cbn in Hfuel.
    rewrite (fillPage_step _ _ _ block) by done.
    destruct (decide (block_text block = [])) as [Hempty|Htext].
    + unfold fillStep. cbv zeta. cbn [currentCharOffset]. rewrite Hempty.
      cbn [Z.to_nat drop length bool_decide]. rewrite bool_decide_eq_true_2 by done.
      cbn [mbind option_bind pageContent pageBreakPoints remainingSpace currentBlockIndex].
      cbn [domPieces] in *. rewrite bool_decide_eq_true_2 in * by done.
      apply IH; [lia | done | lia | done].
    + destruct (fillStep_all_fit chapter i pc bps block
                  (concat (domPieces false rest)) Htext) as (bps1 & ->).
      { intros k. specialize (Hfit k). cbn [domPieces] in *.
        rewrite bool_decide_eq_false_2 in * by done.
        rewrite !concat_app in *. cbn [concat] in *. by rewrite app_nil_r, <- app_assoc. }
      cbn [mbind option_bind]. cbn [domPieces] in *.
      rewrite bool_decide_eq_false_2 in * by done.
      match goal with
      | |- context [fillPage overflow fuel chapter
                      {| pageContent := ?pc1; pageBreakPoints := _; remainingSpace := _;
                         currentBlockIndex := _; currentCharOffset := _ |}] =>
          destruct (IH (S i) pc1 bps1 fuel ltac:(lia) Hrest ltac:(lia)) as (bps' & Hrun)
      end.
      { intros k. rewrite (bool_decide_eq_false_2 (_ ++ [_] = [])) by (by destruct pc).
        rewrite <- app_assoc. apply Hfit. }
      rewrite (bool_decide_eq_false_2 (_ ++ [_] = [])) in Hrun by (by destruct pc).
      rewrite <- app_assoc in Hrun. cbn [app] in Hrun. by exists bps'.
Qed.

(** When the whole chapter fits a page, [processChapter] ends after one
    turn of its outer loop. *)
Lemma processChapter_all_fit chapter pages fuel :
  (∀ k : nat, overflow (take k (concat (domPieces true (chapter_blocks chapter)))) = false) →
  (1 ≤ fuel)%nat →
  ∃ chapterPages,
    processChapter overflow fuel pages chapter = Some chapterPages ∧
    PaginationCalculator.content <$> chapterPages =
      (if bool_decide (domPieces true (chapter_blocks chapter) = []) then []
       else [domPieces true (chapter_blocks chapter)]) ∧
    Forall (λ p, PaginationCalculator.chapterId (PaginationCalculator.position p)
                   = chapter_id chapter ∧
                 PaginationCalculator.id p = Z.of_nat (length pages) + 1)
      chapterPages.
Proof.
  intros Hfit Hfuel. unfold processChapter.
  destruct fuel as [|fuel]; [lia|]. cbn [processChapter_loop].
  case_bool_decide as Hlen.
  2: { destruct (chapter_blocks chapter); [|cbn in Hlen; lia]. by exists []. }
  unfold pageStep.
  destruct (fillPage_all_fit chapter (chapter_blocks chapter) 0 [] []
              (innerFuel chapter)) as (bps & ->); [lia | done | unfold innerFuel; lia | done |].
  cbn [mbind option_bind app pageContent currentBlockIndex currentCharOffset].
  rewrite (bool_decide_eq_true_2 ([] = [])) by done.
  assert (Hstop : ∀ f ps pid,
            processChapter_loop overflow f chapter ps pid
              (length (chapter_blocks chapter)) 0 = Some ps).
  { intros f ps pid. destruct f; cbn; by rewrite bool_decide_eq_false_2 by lia. }
  destruct (domPieces true (chapter_blocks chapter)) as [|piece pieces] eqn:Hpieces.
  - rewrite (bool_decide_eq_false_2 (0 < length [])%nat) by (cbn; lia).
    cbn [mbind option_bind]. rewrite Hstop. by exists [].
  - rewrite (bool_decide_eq_true_2 (0 < length (piece :: pieces))%nat) by (cbn; lia).
    cbn [mbind option_bind]. rewrite Hstop. eexists. split; [done|].
    rewrite bool_decide_eq_false_2 by done. split; [done|].
    apply Forall_singleton. done.
Qed.

End DOMChapterFacts.

(** X25.  When just the indent of the paragraph that opens a chapter fits an empty
    page, [processChapter] never returns: each turn of its outer loop makes
    a page holding the indent and the first character of the paragraph and
    leaves the block index and the character offset where they were. *)
Theorem processChapter_indent_only (overflow : jsstring → bool)
    (chapter : Chapter) (block : Block) (rest : list Block) :
  chapter_blocks chapter = block :: rest →
  block_type block = paragraph →
  block_text block ≠ [] →
  DOMPaginationCalculator.findOptimalBreakPoint overflow
    (IDEOGRAPHIC_SPACE :: block_text block) = Some 1%nat →
  (∀ chapterPages pageId,
     ∃ page,
       DOMPaginationCalculator.pageStep overflow
         (DOMPaginationCalculator.innerFuel chapter) chapter chapterPages pageId 0 0
       = Some (chapterPages ++ [page], pageId + 1, 0%nat, 0) ∧
       PaginationCalculator.content page =
         [IDEOGRAPHIC_SPACE :: take 1 (block_text block)]) ∧
  (∀ fuel pages,
     DOMPaginationCalculator.processChapter overflow fuel pages chapter = None).
Proof.
  intros Hblocks Hpar Htext Hbreak.
  assert (Hblock : chapter_blocks chapter !! 0%nat = Some block) by by rewrite Hblocks.
  split.
  - intros chapterPages pageId.
    rewrite (pageStep_indent_only overflow chapter 0 block) by done.
    eexists. split; reflexivity.
  - intros fuel pages. unfold DOMPaginationCalculator.processChapter.
    by apply (processChapter_loop_indent_only overflow chapter 0 block).
Qed.

Lemma processChapter_indent_only_witness :
  DOMPaginationCalculator.processChapter (λ s, bool_decide (1 < length s)%nat) 100 []
    sampleChapter = None.
Proof.
  apply (processChapter_indent_only (λ s, bool_decide (1 < length s)%nat) sampleChapter
           {| block_id := 1; block_type := paragraph; block_text := [97; 98; 99]%N |} []);
    [reflexivity | reflexivity | done | by vm_compute].
Defined.

(** C6 at a failing input.  On a page that holds one character, the indent
    of the paragraph abc fits and nothing else does: the break point of the
    indented text is 1.  [processChapter] takes the branch for a part that
    fits, puts the indent and one character on the page
    ([Math.max(1, originalAddedChars)]) and advances the offset by
    [originalAddedChars], which is 0; the next turn of its outer loop starts
    from the same block and the same offset, so [processChapter] returns for
    no number of turns.  [splitLargeBlock] splits the same block into three
    pages. *)
Theorem processChapter_no_progress :
  DOMPaginationCalculator.findOptimalBreakPoint singleCharacterPage
    (IDEOGRAPHIC_SPACE :: [97; 98; 99]%N) = Some 1%nat ∧
  (∀ chapterPages pageId,
     ∃ page,
       DOMPaginationCalculator.pageStep singleCharacterPage
         (DOMPaginationCalculator.innerFuel sampleChapter) sampleChapter
         chapterPages pageId 0 0
       = Some (chapterPages ++ [page], pageId + 1, 0%nat, 0) ∧
       PaginationCalculator.content page = [[IDEOGRAPHIC_SPACE; 97]%N]) ∧
  (∀ fuel pages,
     DOMPaginationCalculator.processChapter singleCharacterPage fuel pages sampleChapter
       = None) ∧
  pageText <$> default []
    (PaginationCalculator.splitLargeBlock zeroWidthMeasurer sampleChapter
       {| block_id := 1; block_type := paragraph; block_text := [97; 98; 99]%N |} 1)
    = [[97]; [98]; [99]]%N.
Proof.
  assert (Hbreak : DOMPaginationCalculator.findOptimalBreakPoint singleCharacterPage
            (IDEOGRAPHIC_SPACE :: [97; 98; 99]%N) = Some 1%nat) by by vm_compute.
  split_and!.
  - exact Hbreak.
  - intros chapterPages pageId.
    rewrite (pageStep_indent_only singleCharacterPage sampleChapter 0
               {| block_id := 1; block_type := paragraph; block_text := [97; 98; 99]%N |})
      by done.
    eexists. split; reflexivity.
  - intros fuel pages. unfold DOMPaginationCalculator.processChapter.
    by apply (processChapter_loop_indent_only singleCharacterPage sampleChapter 0
                {| block_id := 1; block_type := paragraph; block_text := [97; 98; 99]%N |}).
  - by vm_compute.
Qed.

(** X26.  When every prefix of the laid-out chapter (its blocks with text, each
    paragraph behind its indent, joined by newlines) fits the page,
    [processChapter] returns after one turn of its outer loop, with one page
    holding these pieces, or with no page when no block has text. *)
Theorem processChapter_one_page (overflow : jsstring → bool) (chapter : Chapter)
    (pages : list PaginationCalculator.Page) (fuel : nat) :
  (∀ k : nat, overflow (take k (concat (domPieces true (chapter_blocks chapter)))) = false) →
  (1 ≤ fuel)%nat →
  ∃ chapterPages,
    DOMPaginationCalculator.processChapter overflow fuel pages chapter = Some chapterPages ∧
    PaginationCalculator.content <$> chapterPages =
      (if bool_decide (domPieces true (chapter_blocks chapter) = []) then []
       else [domPieces true (chapter_blocks chapter)]) ∧
    Forall (λ p, PaginationCalculator.chapterId (PaginationCalculator.position p)
                   = chapter_id chapter ∧
                 PaginationCalculator.id p = Z.of_nat (length pages) + 1)
      chapterPages.
Proof. apply processChapter_all_fit. Qed.

Lemma processChapter_one_page_witness :
  ∃ chapterPages,
    DOMPaginationCalculator.processChapter (λ _, false) 1 [] sampleChapter
      = Some chapterPages ∧
    PaginationCalculator.content <$> chapterPages = [[[12288; 97; 98; 99]%N]].
Proof.
  destruct (processChapter_one_page (λ _, false) sampleChapter [] 1)
    as (ps & Hps & Hcontent & _); [done | lia |].
  exists ps. split; [exact Hps | exact Hcontent].
Defined.

(** ** [VerticalPaginationCalculator.calculatePages] *)

Section VerticalFacts.
Variable scrollWidth : jsstring → Z.
Variable measuredMaxWidth : Z.

Lemma vertical_blockStep_text v block :
  ∃ v',
    VerticalPaginationCalculator.blockStep scrollWidth measuredMaxWidth v block = Some v' ∧
    concat (VerticalPaginationCalculator.content <$> VerticalPaginationCalculator.pages v') ++
      VerticalPaginationCalculator.currentPageContent v' =
    (concat (VerticalPaginationCalculator.content <$> VerticalPaginationCalculator.pages v) ++
       VerticalPaginationCalculator.currentPageContent v) ++ verticalText [block].
Proof.
  unfold VerticalPaginationCalculator.blockStep, verticalText. cbn [mbind list_bind].
  rewrite app_nil_r.
  assert (Hpush : ∀ ps s t,
    concat (VerticalPaginationCalculator.content <$>
              (ps ++ [ {| VerticalPaginationCalculator.content := s;
                          VerticalPaginationCalculator.chapterTitle := t |} ])) =
    concat (VerticalPaginationCalculator.content <$> ps) ++ s).
  { intros ps s t. rewrite fmap_app, concat_app. cbn. by rewrite app_nil_r. }
  destruct (tb_type block) eqn:Htype.
  3: { destruct (truthy (VerticalPaginationCalculator.currentPageContent v)) eqn:Ht.
       - eexists. split; [done|]. cbn. by rewrite Hpush, !app_nil_r.
       - eexists. split; [done|]. cbn. by rewrite !app_nil_r. }
  all: destruct (bool_decide _ && truthy _);
    [|eexists; split; [done|]; cbn; by rewrite app_assoc].
  all: unfold VerticalPaginationCalculator.findFittingText.
  all: match goal with
       | |- context [findFittingText_search scrollWidth ?t measuredMaxWidth [] []] =>
           destruct (findFittingText_search_prefix scrollWidth t measuredMaxWidth [] [])
             as (n & Hn & ->)
       end.
  all: cbn [mbind option_bind]; rewrite length_take.
  all: case_bool_decide; eexists; (split; [done|]); cbn [VerticalPaginationCalculator.pages
         VerticalPaginationCalculator.currentPageContent].
  all: rewrite ?Hpush, <- ?app_assoc; try done.
  all: rewrite Nat.min_l by done; by rewrite take_drop.
Qed.

Lemma vertical_runBlocks_text blocks :
  ∀ v,
    ∃ v',
      VerticalPaginationCalculator.runBlocks scrollWidth measuredMaxWidth v blocks = Some v' ∧
      concat (VerticalPaginationCalculator.content <$> VerticalPaginationCalculator.pages v')
        ++ VerticalPaginationCalculator.currentPageContent v' =
      (concat (VerticalPaginationCalculator.content <$> VerticalPaginationCalculator.pages v)
         ++ VerticalPaginationCalculator.currentPageContent v) ++ verticalText blocks.
Proof.
  induction blocks as [|block blocks IH]; intros v.
  { exists v. cbn. by rewrite app_nil_r. }
  destruct (vertical_blockStep_text v block) as (w & Hw & Hwt).
  destruct (IH w) as (v' & Hv' & Hvt).
  exists v'. cbn [VerticalPaginationCalculator.runBlocks]. rewrite Hw. cbn [mbind option_bind].
  split; [done|]. rewrite Hvt, Hwt, <- !app_assoc. f_equal. f_equal.
  unfold verticalText. cbn. by rewrite app_nil_r.
Qed.

End VerticalFacts.

(** X27.  [VerticalPaginationCalculator.calculatePages] ends for every list of
    blocks and every measurement, and the contents of its pages, put end to
    end, are the texts of the blocks in order, each paragraph behind its
    two-space indent: nothing is lost, repeated or added. *)
Theorem vertical_calculatePages_coverage (scrollWidth : jsstring → Z)
    (measuredMaxWidth : Z) (blocks : list TextBlock) :
  ∃ pages,
    VerticalPaginationCalculator.calculatePages scrollWidth measuredMaxWidth blocks
      = Some pages ∧
    concat (VerticalPaginationCalculator.content <$> pages) = verticalText blocks.
Proof.
  unfold VerticalPaginationCalculator.calculatePages.
  destruct (vertical_runBlocks_text scrollWidth measuredMaxWidth blocks
              {| VerticalPaginationCalculator.pages := [];
                 VerticalPaginationCalculator.currentPageContent := [];
                 VerticalPaginationCalculator.currentChapterTitle := None |})
    as (v & -> & Hv).
  cbn [mbind option_bind]. cbn in Hv.
  destruct (VerticalPaginationCalculator.currentPageContent v) as [|c s] eqn:Hc; cbn [truthy].
  - eexists. split; [done|]. by rewrite app_nil_r in Hv.
  - eexists. split; [done|]. rewrite fmap_app, concat_app. cbn. by rewrite app_nil_r.
Qed.

(** ** The hook against the paginator component *)

Section ComponentFacts.
Variable measureTextWidth : jsstring → Z.
Variable maxWidth : Z.

Lemma kinsokuAdjust_leadingFree text result :
  leadingFree text → kinsokuAdjust text result = result.
Proof.
  intros Hfree. unfold kinsokuAdjust. destruct (_ && _); [|done].
  destruct (text !! length result) as [c|] eqn:Hc; [|done].
  by rewrite (Hfree c) by by eapply list_elem_of_lookup_2.
Qed.

Lemma findFittingText_leadingFree text width baseContent separator :
  leadingFree text →
  findFittingText measureTextWidth text width baseContent separator =
  VerticalTextPaginator.findFittingText measureTextWidth text width baseContent separator.
Proof.
  intros Hfree. unfold findFittingText, VerticalTextPaginator.findFittingText.
  destruct (findFittingText_search _ _ _ _ _) as [result|]; [|done].
  cbn. by rewrite kinsokuAdjust_leadingFree.
Qed.

Lemma leadingFree_drop n text : leadingFree text → leadingFree (drop n text).
Proof.
  intros Hfree c Hc. apply Hfree. apply list_elem_of_lookup_1 in Hc as [i Hi].
  rewrite lookup_drop in Hi. by eapply list_elem_of_lookup_2.
Qed.

Lemma pagesAgree_push ps qs s t a b c d e :
  pagesAgree ps qs →
  pagesAgree
    (ps ++ [pushedPage (enrichPageWithMetadata s t a b c d e) false])
    (qs ++ [ {| VerticalTextPaginator.content := s;
                VerticalTextPaginator.chapterTitle := t |} ]).
Proof. unfold pagesAgree. intros H. by rewrite !fmap_app, H. Qed.

Lemma pagesAgree_push_end ps qs s t a b c d e :
  pagesAgree ps qs →
  pagesAgree
    (ps ++ [pushedPage (enrichPageWithMetadata s t a b c d e) true])
    (qs ++ [ {| VerticalTextPaginator.content := s;
                VerticalTextPaginator.chapterTitle := t |} ]).
Proof. unfold pagesAgree. intros H. by rewrite !fmap_app, H. Qed.

Lemma splitRemaining_agree fuel title chapter blockId :
  ∀ ps processed rem qs,
    pagesAgree ps qs → leadingFree rem →
    match splitRemaining measureTextWidth maxWidth fuel title chapter blockId ps
            processed rem,
          VerticalTextPaginator.splitRemaining measureTextWidth maxWidth fuel title qs rem
    with
    | Some sv, Some (qs', rest) => pagesAgree (sv_pages sv) qs' ∧ sv_rest sv = rest
    | None, None => True
    | _, _ => False
    end.
Proof.
  induction fuel as [|fuel IH]; intros ps processed rem qs Hagree Hfree.
  { cbn. by case_bool_decide. }
  cbn -[findFittingText VerticalTextPaginator.findFittingText].
  case_bool_decide; [|done]. case_bool_decide; [done|].
  rewrite findFittingText_leadingFree by done.
  destruct (VerticalTextPaginator.findFittingText _ _ _ _ _) as [portion|]; [|done].
  cbn [mbind option_bind]. case_bool_decide; [|done].
  apply IH; [by apply pagesAgree_push | by apply leadingFree_drop].
Qed.

Lemma splitWholeBlock_agree fuel title chapter blockId :
  ∀ ps processed rem qs,
    pagesAgree ps qs → leadingFree rem →
    match splitWholeBlock measureTextWidth maxWidth fuel title chapter blockId ps
            processed rem,
          VerticalTextPaginator.splitWholeBlock measureTextWidth maxWidth fuel title qs rem
    with
    | Some sv, Some (qs', rest) => pagesAgree (sv_pages sv) qs' ∧ sv_rest sv = rest
    | None, None => True
    | _, _ => False
    end.
Proof.
  induction fuel as [|fuel IH]; intros ps processed rem qs Hagree Hfree.
  { cbn. by case_bool_decide. }
  cbn -[findFittingText VerticalTextPaginator.findFittingText].
  case_bool_decide; [|done].
  rewrite findFittingText_leadingFree by done.
  destruct (VerticalTextPaginator.findFittingText _ _ _ _ _) as [portion|]; [|done].
  cbn [mbind option_bind]. case_bool_decide; [|done].
  apply IH; [by apply pagesAgree_push | by apply leadingFree_drop].
Qed.

Lemma textStep_agree v w block :
  varsAgree v w →
  leadingFree (tb_content block) →
  match textStep measureTextWidth maxWidth v block,
        VerticalTextPaginator.textStep measureTextWidth maxWidth w block with
  | Some v', Some w' => varsAgree v' w'
  | None, None => True
  | _, _ => False
  end.
Proof.
  intros (Hpages & Hcur & Htitle) Hfree.
  unfold textStep, VerticalTextPaginator.textStep. cbv zeta. rewrite <- Hcur, <- Htitle.
  set (blockContent := match tb_type block with
                       | tb_paragraph => IDEOGRAPHIC_SPACE :: tb_content block
                       | _ => tb_content block
                       end).
  assert (Hblock : leadingFree blockContent).
  { unfold blockContent. destruct (tb_type block); try done.
    intros c [->|Hc]%elem_of_cons; [done | by apply Hfree]. }
  destruct (bool_decide _ && truthy (currentPageContent v)); [|done].
  rewrite findFittingText_leadingFree by done.
  destruct (VerticalTextPaginator.findFittingText _ _ _ _ _) as [portion|]; [|done].
  cbn [mbind option_bind]. case_bool_decide.
  - match goal with
    | |- context [splitRemaining _ _ ?f ?t ?c ?b ?ps ?pr ?rem] =>
        match goal with
        | |- context [VerticalTextPaginator.splitRemaining _ _ f t ?qs rem] =>
            pose proof (splitRemaining_agree f t c b ps pr rem qs
                          ltac:(by apply pagesAgree_push)
                          ltac:(by apply leadingFree_drop)) as Hsplit
        end
    end.
    destruct (splitRemaining _ _ _ _ _ _ _ _ _) as [sv|];
      destruct (VerticalTextPaginator.splitRemaining _ _ _ _ _ _) as [[qs' rest]|];
      cbn [mbind option_bind]; try done.
    destruct Hsplit as [Hp Hr]. by split_and!.
  - case_bool_decide.
    + split_and!; [by apply pagesAgree_push | done | done].
    + match goal with
      | |- context [splitWholeBlock _ _ ?f ?t ?c ?b ?ps ?pr ?rem] =>
          match goal with
          | |- context [VerticalTextPaginator.splitWholeBlock _ _ f t ?qs rem] =>
              pose proof (splitWholeBlock_agree f t c b ps pr rem qs
                            ltac:(by apply pagesAgree_push) Hblock) as Hsplit
          end
      end.
      destruct (splitWholeBlock _ _ _ _ _ _ _ _ _) as [sv|];
        destruct (VerticalTextPaginator.splitWholeBlock _ _ _ _ _ _) as [[qs' rest]|];
        cbn [mbind option_bind]; try done.
      destruct Hsplit as [Hp Hr]. by split_and!.
Qed.

Lemma chapterStep_agree v w block :
  varsAgree v w →
  varsAgree (chapterStep v block) (VerticalTextPaginator.chapterStep w block).
Proof.
  intros (Hpages & Hcur & Htitle).
  unfold chapterStep, VerticalTextPaginator.chapterStep, varsAgree. cbn.
  rewrite <- Hcur, <- Htitle. destruct (truthy (currentPageContent v)); [|done].
  split_and!; [by apply pagesAgree_push_end | done | done].
Qed.

Lemma runBlocks_agree blocks :
  Forall (λ block, leadingFree (tb_content block)) blocks →
  ∀ v w,
    varsAgree v w →
    match runBlocks measureTextWidth maxWidth v blocks,
          VerticalTextPaginator.runBlocks measureTextWidth maxWidth w blocks with
    | Some v', Some w' => varsAgree v' w'
    | None, None => True
    | _, _ => False
    end.
Proof.
  induction 1 as [|block blocks Hblock _ IH]; intros v w Hagree; [done|].
  cbn [runBlocks VerticalTextPaginator.runBlocks].
  unfold blockStep, VerticalTextPaginator.blockStep.
  destruct (tb_type block) eqn:Htype.
  3: { cbn [mbind option_bind]. apply IH. by apply chapterStep_agree. }
  all: pose proof (textStep_agree v w block Hagree Hblock) as Hstep.
  all: destruct (textStep _ _ v block) as [v'|];
       destruct (VerticalTextPaginator.textStep _ _ w block) as [w'|]; try done.
  all: cbn [mbind option_bind]; by apply IH.
Qed.

Lemma calculatePagination_agree ch book :
  (∀ c b, c ∈ ch :: book → b ∈ chapter_blocks c → leadingFree (block_text b)) →
  ∃ ps qs,
    calculatePagination measureTextWidth maxWidth (ch :: book) = Some (Paginated ps) ∧
    VerticalTextPaginator.calculatePagination measureTextWidth maxWidth (ch :: book)
      = Some (VerticalTextPaginator.Paginated qs) ∧
    pagesAgree ps qs.
Proof.
  intros Hfree.
  destruct (runBlocks_book measureTextWidth maxWidth (ch :: book) initialVars)
    as (v & Hv & _); [by constructor|].
  assert (Hblocks : Forall (λ block, leadingFree (tb_content block))
                      (getStructuredBlocks (ch :: book))).
  { unfold getStructuredBlocks. apply list.Forall_forall. intros tb Htb.
    apply list_elem_of_bind in Htb as (c & Htb & Hc).
    apply elem_of_cons in Htb as [->|Htb]; [by intros x Hx; apply elem_of_nil in Hx|].
    apply list_elem_of_fmap in Htb as (b & -> & Hb). cbn. by eapply Hfree. }
  pose proof (runBlocks_agree _ Hblocks initialVars
                {| VerticalTextPaginator.calculatedPages := [];
                   VerticalTextPaginator.currentPageContent := [];
                   VerticalTextPaginator.currentChapterTitle := None |}
                ltac:(by split_and!)) as Hrun.
  rewrite Hv in Hrun.
  unfold calculatePagination, paginateBlocks, VerticalTextPaginator.calculatePagination.
  rewrite getStructuredBlocks_cons, <- app_comm_cons in *.
  rewrite Hv.
  destruct (VerticalTextPaginator.runBlocks _ _ _ _) as [w|]; [|done].
  cbn [mbind option_bind]. eexists _, _. split_and!; [done | done |].
  destruct Hrun as (Hpages & Hcur & Htitle).
  unfold finalPages, VerticalTextPaginator.finalPages. rewrite <- Hcur, <- Htitle.
  destruct (truthy (currentPageContent v)); [|done]. by apply pagesAgree_push.
Qed.

End ComponentFacts.

(** X28.  The hook compares the measured widths with the display area that it
    measures (the inner width of the container that it finds, or its
    [maxWidth] less 32 when it finds none), the paginator component with its
    [maxWidth].  When the former is as wide as the latter, and no block of
    the book holds a character that the kinsoku step keeps from the head of
    a page, the hook and the component produce, on the same text
    measurement, the same pages: the same contents under the same chapter
    titles, in the same order. *)
Theorem calculatePagination_matches_component
    (measureTextWidth : jsstring → Z) (container : option DisplayContainer)
    (hookMaxWidth maxWidth : Z) (ch : Chapter) (book : Book) :
  measureActualDisplayArea container hookMaxWidth = maxWidth →
  (∀ c b, c ∈ ch :: book → b ∈ chapter_blocks c → leadingFree (block_text b)) →
  ∃ ps qs,
    useVerticalTextPagination measureTextWidth container hookMaxWidth (ch :: book)
      = Some (Paginated ps) ∧
    VerticalTextPaginator.calculatePagination measureTextWidth maxWidth (ch :: book)
      = Some (VerticalTextPaginator.Paginated qs) ∧
    (λ p, (content p, chapterTitle p)) <$> ps =
    (λ q, (VerticalTextPaginator.content q, VerticalTextPaginator.chapterTitle q)) <$> qs.
Proof.
  intros Hwidth. unfold useVerticalTextPagination. rewrite Hwidth.
  apply calculatePagination_agree.
Qed.

Lemma calculatePagination_matches_component_witness :
  ∃ ps qs,
    useVerticalTextPagination lengthWidth None 132 twoChapterBook = Some (Paginated ps) ∧
    VerticalTextPaginator.calculatePagination lengthWidth 100 twoChapterBook
      = Some (VerticalTextPaginator.Paginated qs) ∧
    (λ p, (content p, chapterTitle p)) <$> ps =
    (λ q, (VerticalTextPaginator.content q, VerticalTextPaginator.chapterTitle q)) <$> qs.
Proof.
  apply (calculatePagination_matches_component lengthWidth None 132 100); [by vm_compute|].
  intros c b Hc Hb x Hx.
  repeat (apply elem_of_cons in Hc; destruct Hc as [->|Hc]);
    try (by apply elem_of_nil in Hc);
    cbn in Hb; apply list_elem_of_singleton in Hb; subst b; cbn in Hx;
    repeat (apply elem_of_cons in Hx; destruct Hx as [->|Hx]);
    try done; by apply elem_of_nil in Hx.
Defined.

(** ** The chapter of a page of the hook *)

Section HookChapters.
Variable measureTextWidth : jsstring → Z.
Variable actualMaxWidth : Z.
Variable book : Book.

Lemma splitRemaining_ofChapter fuel title chapter blockId :
  ofChapter book title chapter →
  ∀ pages processed rem sv,
    Forall (pageOfSomeChapter book) pages →
    splitRemaining measureTextWidth actualMaxWidth fuel title chapter blockId pages
      processed rem = Some sv →
    Forall (pageOfSomeChapter book) (sv_pages sv).
Proof.
  intros Hch. induction fuel as [|fuel IH]; intros pages processed rem sv Hpages.
  { cbn. case_bool_decide; [done|]. by intros [= <-]. }
  cbn -[findFittingText]. case_bool_decide; [|by intros [= <-]].
  case_bool_decide; [by intros [= <-]|].
  destruct (findFittingText _ _ _ _ _) as [portion|]; [|done]. cbn [mbind option_bind].
  case_bool_decide; [|by intros [= <-]].
  apply IH. apply Forall_app. split; [done|]. apply Forall_singleton.
  eexists. split; [reflexivity | exact Hch].
Qed.

Lemma splitWholeBlock_ofChapter fuel title chapter blockId :
  ofChapter book title chapter →
  ∀ pages processed rem sv,
    Forall (pageOfSomeChapter book) pages →
    splitWholeBlock measureTextWidth actualMaxWidth fuel title chapter blockId pages
      processed rem = Some sv →
    Forall (pageOfSomeChapter book) (sv_pages sv).
Proof.
  intros Hch. induction fuel as [|fuel IH]; intros pages processed rem sv Hpages.
  { cbn. case_bool_decide; [done|]. by intros [= <-]. }
  cbn -[findFittingText]. case_bool_decide; [|by intros [= <-]].
  destruct (findFittingText _ _ _ _ _) as [portion|]; [|done]. cbn [mbind option_bind].
  case_bool_decide; [|by intros [= <-]].
  apply IH. apply Forall_app. split; [done|]. apply Forall_singleton.
  eexists. split; [reflexivity | exact Hch].
Qed.

Lemma textStep_ofChapter v block v' :
  Forall (pageOfSomeChapter book) (calculatedPages v) →
  ofChapter book (currentChapterTitle v) (currentChapterId v) →
  textStep measureTextWidth actualMaxWidth v block = Some v' →
  Forall (pageOfSomeChapter book) (calculatedPages v') ∧
  ofChapter book (currentChapterTitle v') (currentChapterId v').
Proof.
  intros Hpages Hch. unfold textStep. cbv zeta.
  destruct (bool_decide _ && truthy (currentPageContent v)); [|by intros [= <-]].
  destruct (findFittingText _ _ _ _ _) as [portion|]; [|done]. cbn [mbind option_bind].
  assert (Hpush : ∀ s ids off,
    Forall (pageOfSomeChapter book)
      (calculatedPages v ++
       [pushedPage (enrichPageWithMetadata s (currentChapterTitle v) (currentChapterId v)
                      ids false false off) false])).
  { intros s ids off. apply Forall_app. split; [done|]. apply Forall_singleton.
    eexists. split; [reflexivity | exact Hch]. }
  case_bool_decide.
  - destruct (splitRemaining _ _ _ _ _ _ _ _ _) as [sv|] eqn:Hsv; [|done].
    cbn [mbind option_bind]. intros [= <-]. cbn. split; [|done].
    eapply splitRemaining_ofChapter; [exact Hch | | exact Hsv]. apply Hpush.
  - case_bool_decide.
    + intros [= <-]. cbn. split; [apply Hpush | done].
    + destruct (splitWholeBlock _ _ _ _ _ _ _ _ _) as [sv|] eqn:Hsv; [|done].
      cbn [mbind option_bind]. intros [= <-]. cbn. split; [|done].
      eapply splitWholeBlock_ofChapter; [exact Hch | | exact Hsv]. apply Hpush.
Qed.

Lemma chapterStep_ofChapter v ch :
  ch ∈ book →
  Forall (pageOfSomeChapter book) (calculatedPages v) →
  (currentPageContent v ≠ [] →
     ofChapter book (currentChapterTitle v) (currentChapterId v)) →
  Forall (pageOfSomeChapter book) (calculatedPages (chapterStep v (chapterMarkerOf ch))) ∧
  ofChapter book (currentChapterTitle (chapterStep v (chapterMarkerOf ch)))
    (currentChapterId (chapterStep v (chapterMarkerOf ch))).
Proof.
  intros Hin Hpages Hch. split.
  - unfold chapterStep. cbn [calculatedPages].
    destruct (currentPageContent v) as [|c s]; [done|]. cbn [truthy].
    apply Forall_app. split; [done|]. apply Forall_singleton.
    eexists. split; [reflexivity|]. by apply Hch.
  - exists ch. split_and!; [done | done |]. intros Hid Hsafe.
    unfold chapterStep. cbn [currentChapterId].
    rewrite parseIdPart1_chapterMarkerOf, parseInt_numberToString by done.
    unfold truthyN. by rewrite (proj2 (N.eqb_neq _ _) Hid).
Qed.

Lemma runBlocks_ofChapter blocks :
  Forall (chapterTextBlock book) blocks →
  ∀ v v',
    Forall (pageOfSomeChapter book) (calculatedPages v) →
    ofChapter book (currentChapterTitle v) (currentChapterId v) →
    runBlocks measureTextWidth actualMaxWidth v blocks = Some v' →
    Forall (pageOfSomeChapter book) (calculatedPages v') ∧
    ofChapter book (currentChapterTitle v') (currentChapterId v').
Proof.
  induction 1 as [|block blocks Hblock _ IH]; intros v v' Hpages Hch.
  { cbn. by intros [= <-]. }
  cbn [runBlocks]. unfold blockStep.
  destruct (tb_type block) eqn:Htype.
  3: { destruct Hblock as [(ch & Hin & ->)|Hne]; [|done]. cbn [mbind option_bind].
       destruct (chapterStep_ofChapter v ch Hin Hpages ltac:(done)) as [Hp' Hc'].
       by apply IH. }
  all: destruct (textStep _ _ v block) as [w|] eqn:Hw; [|done]; cbn [mbind option_bind].
  all: destruct (textStep_ofChapter v block w Hpages Hch Hw) as [Hp' Hc']; by apply IH.
Qed.

Lemma calculatePagination_ofChapter pages :
  calculatePagination measureTextWidth actualMaxWidth book = Some (Paginated pages) →
  Forall (pageOfSomeChapter book) pages.
Proof.
  unfold calculatePagination, paginateBlocks.
  destruct book as [|ch rest] eqn:Hbook; [done|].
  rewrite <- Hbook.
  assert (Hin : ch ∈ book) by (rewrite Hbook; by apply elem_of_cons; left).
  assert (Hblocks : getStructuredBlocks book =
            chapterMarkerOf ch ::
              ((textBlockOf ch <$> chapter_blocks ch) ++ getStructuredBlocks rest)).
  { by rewrite Hbook, getStructuredBlocks_cons. }
  rewrite Hblocks. rewrite runBlocks_chapterMarker.
  destruct (runBlocks _ _ _ _) as [v|] eqn:Hv; [|done].
  cbn [mbind option_bind]. intros [= <-].
  destruct (chapterStep_ofChapter initialVars ch Hin ltac:(done) ltac:(done)) as [Hp0 Hc0].
  eapply runBlocks_ofChapter in Hv as [Hpages Hch]; [| |exact Hp0|exact Hc0].
  - unfold finalPages. destruct (truthy (currentPageContent v)); [|done].
    apply Forall_app. split; [done|]. apply Forall_singleton.
    eexists. split; [reflexivity | exact Hch].
  - assert (Hall : Forall (chapterTextBlock book) (getStructuredBlocks book)).
    { unfold getStructuredBlocks. apply list.Forall_forall. intros tb Htb.
      apply list_elem_of_bind in Htb as (c & Htb & Hc).
      apply elem_of_cons in Htb as [->|Htb]; [left; by exists c|].
      apply list_elem_of_fmap in Htb as (b & -> & Hb). right. cbn.
      by destruct (block_type b). }
    rewrite Hblocks in Hall. by apply list.Forall_cons in Hall as [_ Hall].
Qed.

End HookChapters.

(** X29.  Every page that the hook produces carries the title of a chapter of the
    book and, when that chapter's id is a safe integer other than 0, which
    the hook reads back from the chapter marker as it was printed, its id as
    the chapter id of the metadata. *)
Theorem calculatePagination_page_chapter
    (measureTextWidth : jsstring → Z) (actualMaxWidth : Z) (book : Book)
    (pages : list PageData) (i : nat) (p : PageData) :
  calculatePagination measureTextWidth actualMaxWidth book = Some (Paginated pages) →
  pages !! i = Some p →
  ∃ ch m,
    ch ∈ book ∧
    chapterTitle p = Some (chapter_title ch) ∧
    metadata p = Some m ∧
    (chapter_id ch ≠ 0%N → isSafeInteger (chapter_id ch) → chapterId m = chapter_id ch).
Proof.
  intros Hpages%calculatePagination_ofChapter Hp.
  rewrite Forall_lookup in Hpages.
  destruct (Hpages i p Hp) as (m & Hm & ch & Hch & Htitle & Hid). by exists ch, m.
Qed.

Lemma calculatePagination_page_chapter_witness :
  ∃ p ch m,
    twoChapterPages !! 1%nat = Some p ∧ ch ∈ twoChapterBook ∧
    chapterTitle p = Some (chapter_title ch) ∧
    metadata p = Some m ∧ chapterId m = chapter_id ch.
Proof.
  destruct (calculatePagination_page_chapter lengthWidth 100 twoChapterBook twoChapterPages 1
              (pushedPage (enrichPageWithMetadata [99; 100]%N (Some [50]%N) 2 [1%N]
                             false false (Some 2%nat)) false))
    as (ch & m & Hch & Htitle & Hm & Hid); [by vm_compute | reflexivity |].
  eexists _, ch, m. split_and!; [reflexivity | exact Hch | exact Htitle | exact Hm |].
  repeat (apply elem_of_cons in Hch; destruct Hch as [->|Hch]);
    try (by apply elem_of_nil in Hch); apply Hid; by vm_compute.
Defined.

(** ** [findPageByBlockId] *)

